(** * DotLock: NFS-safe dot locking (dotlock.py)

    A shallow embedding of [dotlock.py] and the properties of its locking
    protocol.

    The Python module talks to the operating system through a handful of
    calls ([open], [os.link], [os.stat], [time.time], ...).  A function of the
    module is embedded as a tree of such calls ([prog]); the tree is run
    against an environment ([Env]) that answers each call and may fail any
    I/O call at will, as a network filesystem does.  Statements quantified
    over every environment therefore cover any behaviour of the filesystem
    and of the other processes that share it.

    Three environments are defined: [Scripted] replays a list of answers
    (for the examples), [Busy] is a lock that another holder keeps fresh, and
    [Posix] is a filesystem with a directory, inodes, link counts and faults,
    on which two engines run with their system calls interleaved.

    Numbers: [time.time()] is a float; times and delays are modelled as
    rationals with exact arithmetic (rounding is not modelled).  The fields of
    a stat tuple ([st[ST_INO]], [st[ST_NLINK]], [st[ST_MTIME]]) are integers.
    The loop of [acquire] is cut after a number of turns ([fuel]). *)

From stdpp Require Import base strings pretty gmap list relations.
From Stdlib Require Import ZArith QArith Qabs Qminmax Qround Lia Lra.
From Stdlib Require Import Lqa.

Local Open Scope string_scope.
Local Open Scope Z_scope.

(** ** Python values and exceptions *)

(** The two exception classes of the I/O layer, caught together by
    [except (OSError, IOError)]. *)
Inductive ioerr : Type :=
| OSError
| IOError.

(** Exceptions that can travel through the module: an I/O failure, or the
    module's own [DotLockError]. *)
Inductive exn : Type :=
| IOFailure (e : ioerr)
| DotLockError (msg : string).

(** The values returned by the methods whose result is used for its truth
    value: [None], [True] and [False]. *)
Inductive pyval : Type :=
| PyNone
| PyBool (b : bool).

Definition truthy (v : pyval) : bool :=
  match v with
  | PyNone => false
  | PyBool b => b
  end.

(** Outcome of a Python call: it returns a value or raises. *)
Inductive result (R : Type) : Type :=
| Normal (r : R)
| Raised (e : exn).
Arguments Normal {R} r.
Arguments Raised {R} e.

(** ** The engine object *)

(** Name of a caller-supplied [check_func]; the environment answers its
    calls. *)
Definition check_id : Type := nat.

(** [self]: the instance attributes of a [DotLock], with the three class
    attributes, which an instance may override (as [test] does). *)
Record DotLock : Type := mkDotLock {
  path : string;
  lockpath : string;
  check_func : option check_id;
  _skew : Q;
  _lock : option (Z * string);
  valid_lock_age : Q;
  poll_interval : Q;
  hijack_delay : Q
}.

Definition set_skew (s : Q) (self : DotLock) : DotLock :=
  mkDotLock (path self) (lockpath self) (check_func self) s (_lock self)
    (valid_lock_age self) (poll_interval self) (hijack_delay self).

Definition set_lock (l : option (Z * string)) (self : DotLock) : DotLock :=
  mkDotLock (path self) (lockpath self) (check_func self) (_skew self) l
    (valid_lock_age self) (poll_interval self) (hijack_delay self).

(** [DotLock.__init__] with the class defaults. *)
Definition DotLock_init (p : string) (cf : option check_id) : DotLock :=
  mkDotLock p (p +:+ ".lock") cf 0%Q None 60%Q 15%Q 15%Q.

(** ** Calls to the operating system *)

Inductive mode : Type :=
| ModeR
| ModeW.

(** A file object returned by [open]. *)
Definition fd : Type := Z.

(** The three fields of [os.stat]'s tuple that the module reads. *)
Record stat_result : Type := mkStat {
  ST_INO : Z;
  ST_NLINK : Z;
  ST_MTIME : Z
}.

(** Answer of a call that may fail. *)
Inductive io (A : Type) : Type :=
| Ok (a : A)
| Fail (e : ioerr).
Arguments Ok {A} a.
Arguments Fail {A} e.

Inductive syscall : Type :=
| os_open (p : string) (m : mode)
| file_write (f : fd) (data : string)
| file_read (f : fd)
| file_close (f : fd)
| os_utime (p : string) (atime mtime : Q)
| os_link (src dst : string)
| os_unlink (p : string)
| os_stat (p : string)
| time_time
| time_sleep (secs : Q)
| socket_gethostname
| os_getpid
| thread_get_ident
| call_check_func (f : check_id) (self : DotLock).

(** Type of the answer to each call.  [thread_get_ident] answers [None] when
    the [thread] module could not be imported. *)
Definition ans (c : syscall) : Type :=
  match c with
  | os_open _ _ => io fd
  | file_write _ _ => io unit
  | file_read _ => io string
  | file_close _ => io unit
  | os_utime _ _ _ => io unit
  | os_link _ _ => io unit
  | os_unlink _ => io unit
  | os_stat _ => io stat_result
  | time_time => Q
  | time_sleep _ => unit
  | socket_gethostname => string
  | os_getpid => Z
  | thread_get_ident => option Z
  | call_check_func _ _ => pyval
  end.

(** Answers of all calls in one type, for the log of a run. *)
Inductive answer : Type :=
| AFd (r : io fd)
| AUnit (r : io unit)
| AStr (r : io string)
| AStat (r : io stat_result)
| ATime (t : Q)
| ADone
| AHost (h : string)
| APid (p : Z)
| ATid (t : option Z)
| AVal (v : pyval).

Definition reply_of (c : syscall) : ans c -> answer :=
  match c with
  | os_open _ _ => AFd
  | file_write _ _ => AUnit
  | file_read _ => AStr
  | file_close _ => AUnit
  | os_utime _ _ _ => AUnit
  | os_link _ _ => AUnit
  | os_unlink _ => AUnit
  | os_stat _ => AStat
  | time_time => ATime
  | time_sleep _ => fun _ => ADone
  | socket_gethostname => AHost
  | os_getpid => APid
  | thread_get_ident => ATid
  | call_check_func _ _ => AVal
  end.

(** Calls that touch the filesystem. *)
Definition is_fs_call (c : syscall) : bool :=
  match c with
  | os_open _ _ | file_write _ _ | file_read _ | file_close _
  | os_utime _ _ _ | os_link _ _ | os_unlink _ | os_stat _ => true
  | _ => false
  end.

(** ** Programs *)

(** A program is a tree: it returns, or makes a call and goes on with the
    answer. *)
Inductive prog (R : Type) : Type :=
| Ret (r : R)
| Vis (c : syscall) (k : ans c -> prog R).
Arguments Ret {R} r.
Arguments Vis {R} c k.

Fixpoint pbind {A B : Type} (m : prog A) (f : A -> prog B) : prog B :=
  match m with
  | Ret a => f a
  | Vis c k => Vis c (fun x => pbind (k x) f)
  end.

(** Module-level Python code: a program that returns or raises. *)
Definition py (R : Type) : Type := prog (result R).

Definition py_ret {R : Type} (r : R) : py R := Ret (Normal r).

Definition py_raise {R : Type} (e : exn) : py R := Ret (Raised e).

Definition py_bind {A B : Type} (m : py A) (f : A -> py B) : py B :=
  pbind m (fun r => match r with
                    | Normal a => f a
                    | Raised e => Ret (Raised e)
                    end).

(** [try: body finally: fin]: [fin] always runs; when it raises, its
    exception replaces the outcome of [body]. *)
Definition py_finally {A : Type} (body : py A) (fin : py unit) : py A :=
  pbind body (fun r =>
  pbind fin (fun f => match f with
                      | Normal _ => Ret r
                      | Raised e => Ret (Raised e)
                      end)).

(** [try: body except (OSError, IOError): handler]. *)
Definition py_except_io {A : Type} (body : py A) (handler : py A) : py A :=
  pbind body (fun r => match r with
                       | Raised (IOFailure _) => handler
                       | _ => Ret r
                       end).

(** A call that cannot fail. *)
Definition call (c : syscall) : py (ans c) :=
  Vis c (fun a => Ret (Normal a)).

(** A failed I/O call raises its error. *)
Definition of_io {A : Type} (a : io A) : result A :=
  match a with
  | Ok x => Normal x
  | Fail e => Raised (IOFailure e)
  end.

Definition raw_open (p : string) (m : mode) : py fd :=
  Vis (os_open p m) (fun a => Ret (of_io a)).
Definition raw_write (f : fd) (data : string) : py unit :=
  Vis (file_write f data) (fun a => Ret (of_io a)).
Definition raw_read (f : fd) : py string :=
  Vis (file_read f) (fun a => Ret (of_io a)).
Definition raw_close (f : fd) : py unit :=
  Vis (file_close f) (fun a => Ret (of_io a)).
Definition raw_utime (p : string) (atime mtime : Q) : py unit :=
  Vis (os_utime p atime mtime) (fun a => Ret (of_io a)).
Definition raw_link (src dst : string) : py unit :=
  Vis (os_link src dst) (fun a => Ret (of_io a)).
Definition raw_unlink (p : string) : py unit :=
  Vis (os_unlink p) (fun a => Ret (of_io a)).
Definition raw_stat (p : string) : py stat_result :=
  Vis (os_stat p) (fun a => Ret (of_io a)).

(** ** The filesystem adapter (module-level functions) *)

(** [if data:] is false for the empty string. *)
Definition nonempty (s : string) : bool :=
  match s with
  | EmptyString => false
  | String _ _ => true
  end.

(** [writefile]: [open] is outside the [try], and there is no [except]. *)
Definition writefile (p data : string) : py unit :=
  py_bind (raw_open p ModeW) (fun f =>
  py_finally
    (if nonempty data then raw_write f data else py_ret tt)
    (raw_close f)).

(** [readfile]: the content, or [None] after an I/O failure. *)
Definition readfile (p : string) : py (option string) :=
  py_except_io
    (py_bind (raw_open p ModeR) (fun f =>
     py_finally
       (py_bind (raw_read f) (fun d => py_ret (Some d)))
       (raw_close f)))
    (py_ret None).

Definition utime (p : string) (t : Q * Q) : py unit :=
  py_except_io (raw_utime p (fst t) (snd t)) (py_ret tt).

Definition link (src dst : string) : py unit :=
  py_except_io (raw_link src dst) (py_ret tt).

Definition unlink (p : string) : py unit :=
  py_except_io (raw_unlink p) (py_ret tt).

Definition stat (p : string) : py (option stat_result) :=
  py_except_io
    (py_bind (raw_stat p) (fun st => py_ret (Some st)))
    (py_ret None).

(** ** Environments and runs *)

(** An environment answers every call from its current state. *)
Record Env : Type := mkEnv {
  world : Type;
  handle : forall c : syscall, world -> ans c * world
}.

(** One line of the log of a run: the call and its answer. *)
Definition entry : Type := (syscall * answer)%type.

(** [run p w]: the result of [p] started in [w], the final state of the
    environment and the log of the calls made. *)
Fixpoint run {E : Env} {R : Type} (p : prog R) (w : world E)
  : R * world E * list entry :=
  match p with
  | Ret r => (r, w, [])
  | Vis c k =>
      let (a, w1) := handle E c w in
      let '(r, w2, l) := run (k a) w1 in
      (r, w2, (c, reply_of c a) :: l)
  end.

Definition calls (l : list entry) : list syscall := map fst l.

(** ** Methods *)

(** A method reads and updates [self]; the updates made before an exception
    is raised stay. *)
Definition meth (R : Type) : Type := DotLock -> prog (result R * DotLock).

Definition m_ret {R : Type} (r : R) : meth R :=
  fun self => Ret (Normal r, self).

Definition m_raise {R : Type} (e : exn) : meth R :=
  fun self => Ret (Raised e, self).

Definition m_bind {A B : Type} (m : meth A) (f : A -> meth B) : meth B :=
  fun self =>
    pbind (m self) (fun rs =>
      match fst rs with
      | Normal a => f a (snd rs)
      | Raised e => Ret (Raised e, snd rs)
      end).

(** A module-level function called from a method. *)
Definition lift {A : Type} (p : py A) : meth A :=
  fun self => pbind p (fun r => Ret (r, self)).

(** [self.attr] *)
Definition get {A : Type} (attr : DotLock -> A) : meth A :=
  fun self => Ret (Normal (attr self), self).

(** [self.attr = v] *)
Definition put (upd : DotLock -> DotLock) : meth unit :=
  fun self => Ret (Normal tt, upd self).

Definition m_finally {A : Type} (body : meth A) (fin : meth unit) : meth A :=
  fun self =>
    pbind (body self) (fun rs =>
    pbind (fin (snd rs)) (fun fs =>
      match fst fs with
      | Normal _ => Ret (fst rs, snd fs)
      | Raised e => Ret (Raised e, snd fs)
      end)).

Notation "x <~ m ;; k" := (m_bind m (fun x => k))
  (at level 20, m at level 99, k at level 200, only parsing).
Notation "'exec' m ;; k" := (m_bind m (fun _ => k))
  (at level 10, m at level 99, k at level 200, only parsing).

(** [a < b] on numbers. *)
Definition Qltb (a b : Q) : bool := negb (Qle_bool b a).

(** [readfile(...) == lockdata]: [None] equals no string. *)
Definition content_eq (d : option string) (lockdata : string) : bool :=
  match d with
  | Some s => String.eqb s lockdata
  | None => false
  end.

(** [x is not None] *)
Definition is_not_none {A : Type} (x : option A) : bool :=
  match x with
  | Some _ => true
  | None => false
  end.

(** [thread and thread.get_ident() or 0] *)
Definition tid_of (t : option Z) : Z :=
  match t with
  | Some i => if i =? 0 then 0 else i
  | None => 0
  end.

Section Engine.

(** [str] of a float, as used by ["%s" % time.time()]. *)
Variable str_float : Q -> string.

(** ["%s %s %s %s" % (hostname, pid, tid, time.time())] *)
Definition fmt_lockdata (hostname : string) (pid tid : Z) (t : Q) : string :=
  hostname +:+ " " +:+ pretty pid +:+ " " +:+ pretty tid +:+ " " +:+ str_float t.

(** ["%stmp-%s-%s-%s" % (self.lockpath, hostname, pid, tid)] *)
Definition fmt_locktemp (lp hostname : string) (pid tid : Z) : string :=
  lp +:+ "tmp-" +:+ hostname +:+ "-" +:+ pretty pid +:+ "-" +:+ pretty tid.

(** [DotLock.is_locked] *)
Definition is_locked : meth bool :=
  l <~ get _lock ;;
  match l with
  | None => m_ret false
  | Some (st_ino, lockdata) =>
      lp <~ get lockpath ;;
      st <~ lift (stat lp) ;;
      ok <~ match st with
            | None => m_ret false
            | Some s =>
                if ST_INO s =? st_ino
                then d <~ lift (readfile lp) ;; m_ret (content_eq d lockdata)
                else m_ret false
            end ;;
      if ok : bool then m_ret true
      else exec put (set_lock None) ;; m_ret false
  end.

(** [DotLock.check_lock]: [self.check_func and self.check_func(self)] *)
Definition check_lock : meth pyval :=
  cf <~ get check_func ;;
  match cf with
  | None => m_ret PyNone
  | Some f => self <~ get id ;; lift (call (call_check_func f self))
  end.

(** [DotLock.is_stale] *)
Definition is_stale : meth bool :=
  lp <~ get lockpath ;;
  st <~ lift (stat lp) ;;
  match st with
  | None => m_ret false
  | Some s =>
      now <~ lift (call time_time) ;;
      skew <~ get _skew ;;
      let age := (now - inject_Z (ST_MTIME s) - skew)%Q in
      hd <~ get hijack_delay ;;
      vla <~ get valid_lock_age ;;
      if Qltb age (Qmax (2 * hd) vla) then m_ret false
      else
        c <~ check_lock ;;
        if truthy c then m_ret false else m_ret true
  end.

(** [DotLock._trylock].  The body of the [try] yields [Some v] for
    [return v] and [None] when it runs to its end. *)
Definition _trylock : meth pyval :=
  hostname <~ lift (call socket_gethostname) ;;
  pid <~ lift (call os_getpid) ;;
  t <~ lift (call thread_get_ident) ;;
  let tid := tid_of t in
  t0 <~ lift (call time_time) ;;
  let lockdata := fmt_lockdata hostname pid tid t0 in
  lp <~ get lockpath ;;
  let locktemp := fmt_locktemp lp hostname pid tid in
  exec lift (writefile locktemp lockdata) ;;
  r <~ m_finally
         (exec lift (link locktemp lp) ;;
          st <~ lift (stat locktemp) ;;
          match st with
          | None => m_ret (Some PyNone)
          | Some s =>
              exec (if ST_NLINK s =? 2
                    then put (set_lock (Some (ST_INO s, lockdata)))
                    else m_ret tt) ;;
              now <~ lift (call time_time) ;;
              let skew := (now - inject_Z (ST_MTIME s))%Q in
              exec (if Qltb 1 (Qabs skew)
                    then put (set_skew skew)
                    else m_ret tt) ;;
              m_ret None
          end)
         (lift (unlink locktemp)) ;;
  match r with
  | Some v => m_ret v
  | None =>
      l <~ get _lock ;;
      m_ret (PyBool (is_not_none l))
  end.

(** [DotLock._hijacklock] *)
Definition _hijacklock : meth bool :=
  hostname <~ lift (call socket_gethostname) ;;
  pid <~ lift (call os_getpid) ;;
  t <~ lift (call thread_get_ident) ;;
  let tid := tid_of t in
  t0 <~ lift (call time_time) ;;
  let lockdata := fmt_lockdata hostname pid tid t0 in
  lp <~ get lockpath ;;
  exec lift (writefile lp lockdata) ;;
  hd <~ get hijack_delay ;;
  exec lift (call (time_sleep hd)) ;;
  d <~ lift (readfile lp) ;;
  if negb (content_eq d lockdata) then m_ret false
  else
    st <~ lift (stat lp) ;;
    match st with
    | None => m_ret false
    | Some s =>
        exec put (set_lock (Some (ST_INO s, lockdata))) ;;
        m_ret true
    end.

(** [if max_attempts:] is false for [None] and for [0]. *)
Definition attempts_given (max_attempts : option Z) : bool :=
  match max_attempts with
  | None => false
  | Some n => negb (n =? 0)
  end.

(** One turn of the [while True] loop of [acquire], started with the attempt
    counter [i]: [inr v] for [return v], [inl i'] when the turn ends with the
    sleep and the loop goes on with the counter [i']. *)
Definition acquire_turn (max_attempts : option Z) (i : Z) : meth (Z + pyval) :=
  t <~ _trylock ;;
  if truthy t then m_ret (inr (PyBool true))
  else
    s <~ is_stale ;;
    h <~ (if s : bool then _hijacklock else m_ret false) ;;
    if h : bool then m_ret (inr (PyBool true))
    else
      let i1 := if attempts_given max_attempts then i + 1 else i in
      if attempts_given max_attempts && (i1 >=? default 0 max_attempts)
      then m_ret (inr (PyBool false))
      else
        pi <~ get poll_interval ;;
        exec lift (call (time_sleep pi)) ;;
        m_ret (inl i1).

(** The loop, cut after [fuel] turns: [None] when the loop is still running
    then. *)
Fixpoint acquire_loop (fuel : nat) (max_attempts : option Z) (i : Z)
  : meth (option pyval) :=
  match fuel with
  | O => m_ret None
  | S n =>
      r <~ acquire_turn max_attempts i ;;
      match r with
      | inr v => m_ret (Some v)
      | inl i1 => acquire_loop n max_attempts i1
      end
  end.

(** [DotLock.acquire]; the bare [return] yields [None]. *)
Definition acquire (fuel : nat) (max_attempts : option Z)
  : meth (option pyval) :=
  b <~ is_locked ;;
  if b : bool then m_ret (Some PyNone)
  else acquire_loop fuel max_attempts 0.

(** [DotLock.release] *)
Definition release : meth unit :=
  l <~ get _lock ;;
  match l with
  | None => m_ret tt
  | Some _ =>
      b <~ is_locked ;;
      if negb b then m_ret tt
      else
        lp <~ get lockpath ;;
        exec lift (unlink lp) ;;
        put (set_lock None)
  end.

(** [DotLock.refresh] *)
Definition refresh : meth unit :=
  b <~ is_locked ;;
  if negb b then m_raise (DotLockError "Not locked")
  else
    now <~ lift (call time_time) ;;
    skew <~ get _skew ;;
    let time_t := (now - skew)%Q in
    lp <~ get lockpath ;;
    lift (utime lp (time_t, time_t)).

(** [DotLock.__del__] *)
Definition DotLock_del : meth unit :=
  l <~ get _lock ;;
  match l with
  | None => m_ret tt
  | Some _ => release
  end.

End Engine.

(** ** A scripted environment

    The state is the list of the answers still to give; a call takes the
    next one.  An answer of the wrong kind, or an empty list, counts as a
    failed call (or a zero answer). *)

Definition default_ans (c : syscall) : ans c :=
  match c with
  | os_open _ _ => Fail IOError
  | file_write _ _ => Fail IOError
  | file_read _ => Fail IOError
  | file_close _ => Fail IOError
  | os_utime _ _ _ => Fail OSError
  | os_link _ _ => Fail OSError
  | os_unlink _ => Fail OSError
  | os_stat _ => Fail OSError
  | time_time => 0%Q
  | time_sleep _ => tt
  | socket_gethostname => ""
  | os_getpid => 0
  | thread_get_ident => None
  | call_check_func _ _ => PyNone
  end.

Definition coerce (c : syscall) (a : answer) : ans c :=
  match c return ans c with
  | os_open p m => match a with AFd r => r | _ => default_ans (os_open p m) end
  | file_write f d => match a with AUnit r => r | _ => default_ans (file_write f d) end
  | file_read f => match a with AStr r => r | _ => default_ans (file_read f) end
  | file_close f => match a with AUnit r => r | _ => default_ans (file_close f) end
  | os_utime p x y => match a with AUnit r => r | _ => default_ans (os_utime p x y) end
  | os_link x y => match a with AUnit r => r | _ => default_ans (os_link x y) end
  | os_unlink p => match a with AUnit r => r | _ => default_ans (os_unlink p) end
  | os_stat p => match a with AStat r => r | _ => default_ans (os_stat p) end
  | time_time => match a with ATime t => t | _ => default_ans time_time end
  | time_sleep _ => tt
  | socket_gethostname => match a with AHost h => h | _ => default_ans socket_gethostname end
  | os_getpid => match a with APid p => p | _ => default_ans os_getpid end
  | thread_get_ident => match a with ATid t => t | _ => default_ans thread_get_ident end
  | call_check_func f s => match a with AVal v => v | _ => default_ans (call_check_func f s) end
  end.

Definition Scripted : Env :=
  mkEnv (list answer)
    (fun c w => match w with
                | a :: w' => (coerce c a, w')
                | [] => (default_ans c, [])
                end).

(** [str] of a float for the examples: the integer part only. *)
Definition str_floor (t : Q) : string := pretty (Qfloor t).

Definition demo : DotLock := DotLock_init "/srv/data" None.

(** An engine that has cached the lock [(11, "h 7 3 100")]. *)
Definition held : DotLock := set_lock (Some (11, "h 7 3 100")) demo.

(** The lock file is still the one cached in [held]. *)
Definition script_still_held : list answer :=
  [AStat (Ok (mkStat 11 1 100)); AFd (Ok 5); AStr (Ok "h 7 3 100");
   AUnit (Ok tt)].

(** A [_trylock] that wins: the stat after the link shows two links; the
    clock read after it is half a second past the modification time. *)
Definition script_trylock_wins : list answer :=
  [AHost "h"; APid 7; ATid (Some 3); ATime 100%Q;
   AFd (Ok 5); AUnit (Ok tt); AUnit (Ok tt);
   AUnit (Ok tt); AStat (Ok (mkStat 11 2 100)); ATime (201 # 2)%Q;
   AUnit (Ok tt)].

(** A hijack that is not contested: the lock file reads back as written and
    its stat succeeds. *)
Definition script_hijack_wins : list answer :=
  [AHost "h"; APid 7; ATid (Some 3); ATime 100%Q;
   AFd (Ok 5); AUnit (Ok tt); AUnit (Ok tt);
   ADone;
   AFd (Ok 6); AStr (Ok "h 7 3 100"); AUnit (Ok tt);
   AStat (Ok (mkStat 11 1 100))].

(** A hijack whose lock file reads back as written and is gone (or out of
    reach) at the stat that follows. *)
Definition script_hijack_stat_fails : list answer :=
  [AHost "h"; APid 7; ATid (Some 3); ATime 100%Q;
   AFd (Ok 5); AUnit (Ok tt); AUnit (Ok tt);
   ADone;
   AFd (Ok 6); AStr (Ok "h 7 3 100"); AUnit (Ok tt);
   AStat (Fail OSError)].

(** An environment with a lock that is held and kept fresh by someone else:
    files can be written, every [os.link] fails, every stat shows one link
    and a modification time equal to the (constant) time of the clock. *)
Definition Busy : Env :=
  mkEnv unit
    (fun c w =>
       (match c return ans c with
        | os_open _ _ => Ok 3
        | file_write _ _ => Ok tt
        | file_read _ => Ok "elsewhere 1 0 0"
        | file_close _ => Ok tt
        | os_utime _ _ _ => Ok tt
        | os_link _ _ => Fail OSError
        | os_unlink _ => Ok tt
        | os_stat _ => Ok (mkStat 1 1 0)
        | time_time => 0%Q
        | time_sleep _ => tt
        | socket_gethostname => "h"
        | os_getpid => 7
        | thread_get_ident => Some 3
        | call_check_func _ _ => PyNone
        end, w)).

Definition is_sleep (c : syscall) : bool :=
  match c with
  | time_sleep _ => true
  | _ => false
  end.

Definition is_unlink (c : syscall) : bool :=
  match c with
  | os_unlink _ => true
  | _ => false
  end.

(** Number of sleeps in a log. *)
Definition sleeps (l : list entry) : nat :=
  length (List.filter is_sleep (calls l)).

(** ** A shared filesystem

    The directory maps names to inode numbers; an inode carries its content,
    modification time and link count, and the name it was created under.
    Inode numbers are not reused.  Every I/O call takes the next entry of a
    list of faults: the call is served ([Clean]), served with its reply lost
    ([Lost]: the effect is there, the caller sees a failure), or not served
    ([Dropped]: no effect, the caller sees a failure). *)

Record inode : Type := mkInode {
  i_data : string;
  i_mtime : Q;
  i_nlink : Z;
  i_origin : string
}.

Inductive fault : Type :=
| Clean
| Lost
| Dropped.

Record fs : Type := mkFs {
  names : gmap string Z;
  inodes : gmap Z inode;
  next_ino : Z;
  clock : Q;
  faults : list fault
}.

(** Who is calling: host name, process id and thread id ([None] without the
    [thread] module). *)
Record ident : Type := mkIdent {
  id_host : string;
  id_pid : Z;
  id_tid : option Z
}.

Definition set_faults (l : list fault) (s : fs) : fs :=
  mkFs (names s) (inodes s) (next_ino s) (clock s) l.

Definition set_inode (i : Z) (n : inode) (s : fs) : fs :=
  mkFs (names s) (<[i := n]> (inodes s)) (next_ino s) (clock s) (faults s).

(** A call served without fault. *)
Definition posix_clean (who : ident) (c : syscall) (s : fs) : ans c * fs :=
  match c return ans c * fs with
  | os_open p ModeW =>
      match names s !! p with
      | Some i =>
          match inodes s !! i with
          | Some n =>
              (Ok i, set_inode i (mkInode "" (clock s) (i_nlink n) (i_origin n)) s)
          | None => (Fail IOError, s)
          end
      | None =>
          let i := next_ino s in
          (Ok i, mkFs (<[p := i]> (names s))
                      (<[i := mkInode "" (clock s) 1 p]> (inodes s))
                      (i + 1) (clock s) (faults s))
      end
  | os_open p ModeR =>
      match names s !! p with
      | Some i => (Ok i, s)
      | None => (Fail IOError, s)
      end
  | file_write f d =>
      match inodes s !! f with
      | Some n =>
          (Ok tt, set_inode f (mkInode (i_data n +:+ d) (clock s) (i_nlink n)
                                 (i_origin n)) s)
      | None => (Fail IOError, s)
      end
  | file_read f =>
      match inodes s !! f with
      | Some n => (Ok (i_data n), s)
      | None => (Fail IOError, s)
      end
  | file_close _ => (Ok tt, s)
  | os_utime p _ mtime =>
      match names s !! p with
      | Some i =>
          match inodes s !! i with
          | Some n =>
              (Ok tt, set_inode i (mkInode (i_data n) mtime (i_nlink n)
                                     (i_origin n)) s)
          | None => (Fail OSError, s)
          end
      | None => (Fail OSError, s)
      end
  | os_link src dst =>
      match names s !! src, names s !! dst with
      | Some i, None =>
          match inodes s !! i with
          | Some n =>
              (Ok tt, mkFs (<[dst := i]> (names s))
                           (<[i := mkInode (i_data n) (i_mtime n)
                                     (i_nlink n + 1) (i_origin n)]> (inodes s))
                           (next_ino s) (clock s) (faults s))
          | None => (Fail OSError, s)
          end
      | _, _ => (Fail OSError, s)
      end
  | os_unlink p =>
      match names s !! p with
      | Some i =>
          match inodes s !! i with
          | Some n =>
              (Ok tt, mkFs (delete p (names s))
                           (<[i := mkInode (i_data n) (i_mtime n)
                                     (i_nlink n - 1) (i_origin n)]> (inodes s))
                           (next_ino s) (clock s) (faults s))
          | None => (Fail OSError, s)
          end
      | None => (Fail OSError, s)
      end
  | os_stat p =>
      match names s !! p with
      | Some i =>
          match inodes s !! i with
          | Some n => (Ok (mkStat i (i_nlink n) (Qfloor (i_mtime n))), s)
          | None => (Fail OSError, s)
          end
      | None => (Fail OSError, s)
      end
  | time_time => (clock s, s)
  | time_sleep secs =>
      (tt, mkFs (names s) (inodes s) (next_ino s) (clock s + secs)%Q (faults s))
  | socket_gethostname => (id_host who, s)
  | os_getpid => (id_pid who, s)
  | thread_get_ident => (id_tid who, s)
  | call_check_func _ _ => (PyNone, s)
  end.

(** The failure an I/O call reports; [None] for the calls that cannot
    fail. *)
Definition failure (c : syscall) : option (ans c) :=
  match c return option (ans c) with
  | os_open _ _ => Some (Fail IOError)
  | file_write _ _ => Some (Fail IOError)
  | file_read _ => Some (Fail IOError)
  | file_close _ => Some (Fail IOError)
  | os_utime _ _ _ => Some (Fail OSError)
  | os_link _ _ => Some (Fail OSError)
  | os_unlink _ => Some (Fail OSError)
  | os_stat _ => Some (Fail OSError)
  | _ => None
  end.

Definition posix_handle (who : ident) (c : syscall) (s : fs) : ans c * fs :=
  match failure c with
  | None => posix_clean who c s
  | Some f =>
      match faults s with
      | [] => posix_clean who c s
      | Clean :: l => posix_clean who c (set_faults l s)
      | Lost :: l => (f, (posix_clean who c (set_faults l s)).2)
      | Dropped :: l => (f, set_faults l s)
      end
  end.

Definition Posix (who : ident) : Env := mkEnv fs (posix_handle who).

(** ** Two engines on one filesystem

    Each engine is between two calls ([Idle], with the outcome of its last
    call) or inside one ([Calling], with what is left of it to run).  A step of
    the system is a step of one engine: it starts a call, makes the next
    system call of the call it is in, or returns from it.  The calls are
    those of the protocol without takeover. *)

Inductive op : Type :=
| OpTrylock
| OpIsLocked
| OpIsStale
| OpRefresh
| OpRelease.

Definition map_result {A B : Type} (f : A -> B) (r : result A) : result B :=
  match r with
  | Normal a => Normal (f a)
  | Raised e => Raised e
  end.

(** The method [o] called on [self], with its value as a [pyval]. *)
Definition start (str_float : Q -> string) (o : op) (self : DotLock)
  : prog (result pyval * DotLock) :=
  match o with
  | OpTrylock => _trylock str_float self
  | OpIsLocked =>
      pbind (is_locked self) (fun rs => Ret (map_result PyBool rs.1, rs.2))
  | OpIsStale =>
      pbind (is_stale self) (fun rs => Ret (map_result PyBool rs.1, rs.2))
  | OpRefresh =>
      pbind (refresh self) (fun rs => Ret (map_result (fun _ => PyNone) rs.1, rs.2))
  | OpRelease =>
      pbind (release self) (fun rs => Ret (map_result (fun _ => PyNone) rs.1, rs.2))
  end.

Inductive thread : Type :=
| Idle (self : DotLock) (last : option (op * result pyval))
| Calling (o : op) (k : prog (result pyval * DotLock)).

Inductive thread_step (str_float : Q -> string) (who : ident)
  : thread * fs -> thread * fs -> Prop :=
| step_start self last o s :
    thread_step str_float who (Idle self last, s)
      (Calling o (start str_float o self), s)
| step_call o c k s :
    thread_step str_float who (Calling o (Vis c k), s)
      (Calling o (k (posix_handle who c s).1), (posix_handle who c s).2)
| step_return o r self s :
    thread_step str_float who (Calling o (Ret (r, self)), s)
      (Idle self (Some (o, r)), s).

Definition system : Type := (thread * thread * fs)%type.

Inductive system_step (str_float : Q -> string) (idA idB : ident)
  : system -> system -> Prop :=
| step_A tA tA' tB s s' :
    thread_step str_float idA (tA, s) (tA', s') ->
    system_step str_float idA idB (tA, tB, s) (tA', tB, s')
| step_B tA tB tB' s s' :
    thread_step str_float idB (tB, s) (tB', s') ->
    system_step str_float idA idB (tA, tB, s) (tA, tB', s').

(** The temporary file of a caller. *)
Definition tmp_of (who : ident) (lp : string) : string :=
  fmt_locktemp lp (id_host who) (id_pid who) (tid_of (id_tid who)).

(** A filesystem to start from: every name leads to an inode below
    [next_ino], and neither temporary file exists. *)
Definition fs_fresh (tmpA tmpB : string) (s : fs) : Prop :=
  (forall p i, names s !! p = Some i -> i < next_ino s) /\
  names s !! tmpA = None /\
  names s !! tmpB = None.

(** Two engines at rest on the lock file [lp], neither with a cached
    lock. *)
Definition initial (lp : string) (idA idB : ident) (st : system) : Prop :=
  exists selfA selfB s,
    st = (Idle selfA None, Idle selfB None, s) /\
    lockpath selfA = lp /\ lockpath selfB = lp /\
    _lock selfA = None /\ _lock selfB = None /\
    fs_fresh (tmp_of idA lp) (tmp_of idB lp) s.

(** The engine is at rest with a cached lock. *)
Definition holds (t : thread) : Prop :=
  match t with
  | Idle self _ => _lock self <> None
  | Calling _ _ => False
  end.

(** The engine is at rest and its last call was a [_trylock] that returned a
    true value. *)
Definition just_acquired (t : thread) : Prop :=
  match t with
  | Idle _ (Some (OpTrylock, Normal v)) => truthy v = true
  | _ => False
  end.

(** ** The discipline of an engine on the shared filesystem

    [g] is the inode of the lock the engine may hold: the one cached when
    the call started, or the one seen with two links by the stat of its
    temporary file; none once it has called [os.unlink] on the lock file. *)

Definition lock_ino (self : DotLock) : option Z :=
  match _lock self with
  | Some (i, _) => Some i
  | None => None
  end.

(** What an engine does to the directory: it creates only its temporary
    file, links only that file to the lock file, and removes only that file,
    or the lock file while it may hold the lock. *)
Definition allowed (tmp lp : string) (g : option Z) (c : syscall) : Prop :=
  match c with
  | os_open p ModeW => p = tmp
  | os_link src dst => src = tmp /\ dst = lp
  | os_unlink p => p = tmp \/ (p = lp /\ g <> None)
  | _ => True
  end.

Definition track (tmp lp : string) (g : option Z) (c : syscall)
  : ans c -> option Z :=
  match c return ans c -> option Z with
  | os_unlink p => fun _ => if String.eqb p lp then None else g
  | os_stat p =>
      fun a =>
        match a with
        | Ok st =>
            if String.eqb p tmp && (ST_NLINK st =? 2)
            then Some (ST_INO st) else g
        | Fail _ => g
        end
  | _ => fun _ => g
  end.

(** The answers [who] gets when asking who it is. *)
Definition answers_as (who : ident) (c : syscall) : ans c -> Prop :=
  match c return ans c -> Prop with
  | socket_gethostname => fun a => a = id_host who
  | os_getpid => fun a => a = id_pid who
  | thread_get_ident => fun a => a = id_tid who
  | _ => fun _ => True
  end.

(** The rest [p] of a call [o] keeps the discipline, whatever the answers,
    and ends with a cached lock only on the inode [g]; a [_trylock] that
    returns a true value ends with a cached lock. *)
Fixpoint disciplined (who : ident) (tmp lp : string) (o : op)
    (g : option Z) (p : prog (result pyval * DotLock)) : Prop :=
  match p with
  | Ret rs =>
      lockpath rs.2 = lp /\
      (forall i, lock_ino rs.2 = Some i -> g = Some i) /\
      (o = OpTrylock -> forall v, rs.1 = Normal v -> truthy v = true ->
       _lock rs.2 <> None)
  | Vis c k =>
      allowed tmp lp g c /\
      forall a, answers_as who c a ->
                disciplined who tmp lp o (track tmp lp g c a) (k a)
  end.

(** The temporary file [tmp], when it exists, is an inode created under
    that name, with one link, or two when the lock file is the same inode. *)
Definition tmp_ok (lp tmp : string) (s : fs) : Prop :=
  forall i, names s !! tmp = Some i ->
    exists n, inodes s !! i = Some n /\ i_origin n = tmp /\
              ((names s !! lp = Some i /\ i_nlink n = 2) \/
               (names s !! lp <> Some i /\ i_nlink n = 1)).

(** An engine may hold the lock on inode [g] only if the lock file is that
    inode and the inode was created as the engine's temporary file. *)
Definition may_hold (lp tmp : string) (g : option Z) (s : fs) : Prop :=
  forall i, g = Some i ->
    names s !! lp = Some i /\
    exists n, inodes s !! i = Some n /\ i_origin n = tmp.

Definition fs_inv (lp tmpX tmpY : string) (gX gY : option Z) (s : fs) : Prop :=
  (forall p i, names s !! p = Some i -> i < next_ino s) /\
  tmp_ok lp tmpX s /\ tmp_ok lp tmpY s /\
  may_hold lp tmpX gX s /\ may_hold lp tmpY gY s.

Definition thread_inv (who : ident) (lp tmp : string) (g : option Z)
    (t : thread) : Prop :=
  match t with
  | Idle self last =>
      lockpath self = lp /\
      (forall i, lock_ino self = Some i -> g = Some i) /\
      match last with
      | Some (OpTrylock, Normal v) => truthy v = true -> _lock self <> None
      | _ => True
      end
  | Calling o k => disciplined who tmp lp o g k
  end.

Definition system_inv (lp : string) (idA idB : ident) (st : system) : Prop :=
  exists gA gB,
    thread_inv idA lp (tmp_of idA lp) gA st.1.1 /\
    thread_inv idB lp (tmp_of idB lp) gB st.1.2 /\
    fs_inv lp (tmp_of idA lp) (tmp_of idB lp) gA gB st.2.

(** Two callers and an empty filesystem for the examples. *)
Definition alice : ident := mkIdent "h" 7 (Some 3).
Definition bob : ident := mkIdent "g" 8 (Some 4).
Definition empty_fs : fs := mkFs ∅ ∅ 1 100%Q [].

(** Calls that leave the directory as it is, and calls that change nothing
    at all. *)
Definition keeps_names (c : syscall) : bool :=
  match c with
  | os_open _ ModeW | os_link _ _ | os_unlink _ => false
  | _ => true
  end.

Definition readonly (c : syscall) : bool :=
  match c with
  | os_open _ ModeR | file_read _ | file_close _ | os_stat _
  | time_time | socket_gethostname | os_getpid | thread_get_ident
  | call_check_func _ _ => true
  | _ => false
  end.

(** ** Counting attempts, names of temporary files, settings *)

Definition is_link (c : syscall) : bool :=
  match c with
  | os_link _ _ => true
  | _ => false
  end.

(** Number of [os.link] calls in a log: one per attempt of [_trylock] whose
    temporary file could be written. *)
Definition links (l : list entry) : nat :=
  length (List.filter is_link (calls l)).

(** The string holds no ["-"]. *)
Fixpoint dashfree (s : string) : bool :=
  match s with
  | EmptyString => true
  | String c s' => negb (String.eqb (String c EmptyString) "-") && dashfree s'
  end.

(** The attributes of an engine that no method assigns. *)
Definition same_settings (a b : DotLock) : Prop :=
  path a = path b /\ lockpath a = lockpath b /\
  check_func a = check_func b /\
  valid_lock_age a = valid_lock_age b /\
  poll_interval a = poll_interval b /\
  hijack_delay a = hijack_delay b.

(** What [acquire] may do, call by call: it unlinks and links no file
    under the name of the lock file other than as the destination of a
    link, sets no file time, sleeps [poll_interval] or [hijack_delay], and
    calls the [check_func] of the engine. *)
Definition acquire_call_ok (self : DotLock) (c : syscall) : Prop :=
  match c with
  | os_unlink p => p <> lockpath self
  | os_link src dst => src <> lockpath self /\ dst = lockpath self
  | os_utime _ _ _ => False
  | time_sleep d => d = poll_interval self \/ d = hijack_delay self
  | call_check_func f s => check_func self = Some f
  | _ => True
  end.

(** A filesystem for the examples: Bob's lock file, written at time 100 and
    not touched since; the clock shows 200. *)
Definition stale_fs : fs :=
  mkFs {[ "/srv/data.lock" := 1 ]}
       {[ 1 := mkInode "g 8 4 100" 100%Q 1 "/srv/data.locktmp-g-8-4" ]}
       2 200%Q [].

(** Bob's engine, with that lock cached. *)
Definition bob_held : DotLock := set_lock (Some (1, "g 8 4 100")) demo.

(** * Properties *)

(** ** Tactics and basic facts *)

Lemma Qltb_lt (a b : Q) : Qltb a b = true <-> (a < b)%Q.
Proof.
  unfold Qltb. rewrite negb_true_iff, <- not_true_iff_false, Qle_bool_iff.
  split; [apply Qnot_le_lt | apply Qlt_not_le].
Qed.

Lemma Qltb_ge (a b : Q) : Qltb a b = false <-> ~ (a < b)%Q.
Proof. rewrite <- Qltb_lt. destruct (Qltb a b); intuition congruence. Qed.

(** The run of a sequence is the run of its first part followed by the run
    of the rest. *)
Lemma run_pbind {E : Env} {A B : Type} (m : prog A) (f : A -> prog B)
    (w : world E) :
  run (pbind m f) w =
    let '(a, w1, l1) := run m w in
    let '(b, w2, l2) := run (f a) w1 in
    (b, w2, (l1 ++ l2)%list).
Proof.
  revert w. induction m as [a|c k IH]; intros w; cbn [pbind run].
  - destruct (run (f a) w) as [[b w2] l2]. reflexivity.
  - destruct (handle E c w) as [a w1]. rewrite IH.
    destruct (run (k a) w1) as [[x w2] l1].
    destruct (run (f x) w2) as [[b w3] l2]. reflexivity.
Qed.

Lemma run_m_bind {E : Env} {A B : Type} (m : meth A) (f : A -> meth B)
    (self : DotLock) (w : world E) :
  run (m_bind m f self) w =
    let '(rs, w1, l1) := run (m self) w in
    match rs.1 with
    | Normal a =>
        let '(b, w2, l2) := run (f a rs.2) w1 in (b, w2, (l1 ++ l2)%list)
    | Raised e => ((Raised e, rs.2), w1, l1)
    end.
Proof.
  unfold m_bind. rewrite run_pbind.
  destruct (run (m self) w) as [[[r s1] w1] l1]. cbn [fst snd].
  destruct r; [reflexivity|]. cbn [run]. rewrite app_nil_r. reflexivity.
Qed.

(** Simplify the parts of a run that make no call. *)
Ltac msimpl :=
  unfold m_bind, m_ret, m_raise, get, put, lift, m_finally, call,
    py_ret, py_raise;
  cbn [run pbind fst snd app negb].

(** Unfold a method down to the calls it makes. *)
Ltac unfold_prog :=
  cbv beta iota zeta delta
    [run pbind py_ret py_raise py_bind py_finally py_except_io call of_io
     raw_open raw_write raw_read raw_close raw_utime raw_link raw_unlink
     raw_stat writefile readfile utime link unlink stat
     m_ret m_raise m_bind lift get put m_finally fst snd id
     is_locked check_lock is_stale _trylock _hijacklock acquire_turn
     release refresh DotLock_del].

(** Case analysis on the answer to the next call. *)
Ltac next_answer :=
  match goal with
  | |- context [handle ?E ?c ?w] =>
      is_var w;
      let a := fresh "a" in
      let w' := fresh "w" in
      destruct (handle E c w) as [a w'] eqn:?;
      cbn [ans] in a;
      lazymatch type of a with
      | io _ => destruct a
      | _ => idtac
      end;
      cbv beta iota zeta
  end.

Ltac run_all := unfold_prog; repeat next_answer.

(** Follow a run to its end, through every branch. *)
Ltac crunch :=
  repeat (unfold_prog;
          match goal with
          | |- context [handle ?E ?c ?w] =>
              is_var w;
              let a := fresh "a" in
              let w' := fresh "w" in
              destruct (handle E c w) as [a w'] eqn:?;
              cbn [ans] in a;
              lazymatch type of a with
              | io _ => destruct a
              | _ => idtac
              end
          | |- context [if ?b then _ else _] => destruct b eqn:?
          | |- context [match check_func ?s with _ => _ end] =>
              destruct (check_func s) eqn:?
          | |- context [match _lock ?s with _ => _ end] =>
              destruct (_lock s) as [[? ?]|] eqn:?
          end).

Lemma set_lock_same (self : DotLock) (l : option (Z * string)) :
  _lock self = l -> set_lock l self = self.
Proof. intros <-. destruct self; reflexivity. Qed.

(** Turn the boolean tests met on the way into equations. *)
Ltac tidy :=
  cbn [content_eq negb] in *;
  repeat match goal with
         | H : (_ =? _)%Z = true |- _ => apply Z.eqb_eq in H
         | H : (_ =? _)%Z = false |- _ => apply Z.eqb_neq in H
         | H : String.eqb _ _ = true |- _ => apply String.eqb_eq in H
         | H : String.eqb _ _ = false |- _ => apply String.eqb_neq in H
         | H : Qltb _ _ = true |- _ => apply Qltb_lt in H
         | H : Qltb _ _ = false |- _ => apply Qltb_ge in H
         | x : unit |- _ => destruct x
         | H : (_, _) = (_, _) |- _ => injection H; clear H; intros; subst
         | H1 : handle ?E ?c ?w = _, H2 : handle ?E ?c ?w = _ |- _ =>
             rewrite H1 in H2
         | H : Some _ = Some _ |- _ => injection H; clear H; intros; subst
         | H : true = false |- _ => discriminate H
         | H : false = true |- _ => discriminate H
         | H : Some _ = None |- _ => discriminate H
         | H : None = Some _ |- _ => discriminate H
         | H : Ok _ = Ok _ |- _ => injection H; clear H; intros; subst
         | H : @Ok _ _ = Fail _ |- _ => discriminate H
         | H : @Fail _ _ = Ok _ |- _ => discriminate H
         | H : @Fail _ _ = Fail _ |- _ => injection H; clear H; intros; subst
         end;
  subst.

(** A fact [In x l] about an explicit log [l], as hypothesis and as goal. *)
Ltac in_log H :=
  cbn [In] in H;
  repeat (destruct H as [H|H]; [try discriminate H|]);
  try contradiction;
  try (injection H; clear H; intros; subst).

Ltac find_in_log :=
  cbn [In]; repeat first [left; reflexivity | right].

Section Adapter.

Context {E : Env}.

Lemma readfile_returns (p : string) (w : world E) :
  exists v, (run (readfile p) w).1.1 = Normal v.
Proof. run_all; eauto. Qed.

Lemma utime_returns (p : string) (t : Q * Q) (w : world E) :
  (run (utime p t) w).1.1 = Normal tt.
Proof. run_all; try destruct a; reflexivity. Qed.

Lemma link_returns (src dst : string) (w : world E) :
  (run (link src dst) w).1.1 = Normal tt.
Proof. run_all; try destruct a; reflexivity. Qed.

Lemma unlink_returns (p : string) (w : world E) :
  (run (unlink p) w).1.1 = Normal tt.
Proof. run_all; try destruct a; reflexivity. Qed.

Lemma stat_returns (p : string) (w : world E) :
  exists v, (run (stat p) w).1.1 = Normal v.
Proof. run_all; eauto. Qed.

(** [writefile] lets the failure of [open] through, whatever it is. *)
Lemma writefile_open_fails (p data : string) (w : world E) (e : ioerr) :
  (handle E (os_open p ModeW) w).1 = Fail e ->
  (run (writefile p data) w).1.1 = Raised (IOFailure e).
Proof. run_all; cbn; congruence. Qed.

(** [writefile] lets a failure of [close] through too. *)
Lemma writefile_close_fails (p : string) (w : world E) (f : fd) (e : ioerr) :
  (handle E (os_open p ModeW) w).1 = Ok f ->
  (handle E (file_close f) (handle E (os_open p ModeW) w).2).1 = Fail e ->
  (run (writefile p "") w).1.1 = Raised (IOFailure e).
Proof.
  unfold_prog. cbn [nonempty]. cbv beta iota zeta delta [run].
  destruct (handle E (os_open p ModeW) w) as [[f'|e'] w1]; cbn; [|discriminate].
  intros [= ->]. destruct (handle E (file_close f) w1) as [[[]|e'] w2]; cbn; congruence.
Qed.

(** [check_lock] never raises and leaves [self] alone: it is [None] without
    a [check_func], and the answer of [check_func(self)] otherwise. *)
Lemma check_lock_spec (self : DotLock) (w : world E) :
  (run (check_lock self) w).1.1 =
    (Normal match check_func self with
            | None => PyNone
            | Some f => (handle E (call_check_func f self) w).1
            end, self).
Proof. unfold_prog. destruct (check_func self); run_all; reflexivity. Qed.

End Adapter.

(** ** The adapter boundary *)

(** C2.  Five of the six adapter functions ([readfile], [utime], [link],
    [unlink], [stat]) return normally in every environment, whatever call
    fails.  [writefile] does not: when [open] fails, the [IOError] leaves
    [writefile] (here on a script whose first answer is the failed [open]),
    and from there [_trylock] and [acquire]. *)
Theorem writefile_propagates_io_failure :
  (forall (E : Env) (w : world E) p, exists v, (run (readfile p) w).1.1 = Normal v) /\
  (forall (E : Env) (w : world E) p t, (run (utime p t) w).1.1 = Normal tt) /\
  (forall (E : Env) (w : world E) src dst, (run (link src dst) w).1.1 = Normal tt) /\
  (forall (E : Env) (w : world E) p, (run (unlink p) w).1.1 = Normal tt) /\
  (forall (E : Env) (w : world E) p, exists v, (run (stat p) w).1.1 = Normal v) /\
  @run Scripted _ (writefile "/srv/data.lock" "h 7 3 100") [AFd (Fail IOError)]
    = (Raised (IOFailure IOError), [],
       [(os_open "/srv/data.lock" ModeW, AFd (Fail IOError))]) /\
  (@run Scripted _ (acquire str_floor 1 None demo)
     [AHost "h"; APid 7; ATid (Some 3); ATime 100%Q; AFd (Fail IOError)]).1.1.1
    = Raised (IOFailure IOError).
Proof.
  repeat split; intros.
  - apply readfile_returns.
  - apply utime_returns.
  - apply link_returns.
  - apply unlink_returns.
  - apply stat_returns.
Qed.

(** ** Staleness *)

Section Staleness.

Context {E : Env}.

(** C3.  [is_stale] never raises and leaves [self] alone.  It stats the lock
    file; when that fails (no lock file) the result is [False].  Otherwise,
    with [age = now - mtime - skew]: [False] when
    [age < max(2 * hijack_delay, valid_lock_age)]; otherwise [False] when
    [check_lock()] is true and [True] when it is not. *)
Theorem is_stale_spec (self : DotLock) (w : world E) :
  let st := handle E (os_stat (lockpath self)) w in
  let now := handle E time_time st.2 in
  exists b : bool,
    (run (is_stale self) w).1.1 = (Normal b, self) /\
    match st.1 with
    | Fail _ => b = false
    | Ok s =>
        let age := (now.1 - inject_Z (ST_MTIME s) - _skew self)%Q in
        let limit := Qmax (2 * hijack_delay self) (valid_lock_age self) in
        ((age < limit)%Q -> b = false) /\
        (~ (age < limit)%Q ->
         exists c, (run (check_lock self) now.2).1.1 = (Normal c, self) /\
                   b = negb (truthy c))
    end.
Proof.
  cbv zeta. crunch.
  all: try (exfalso; cbn in *; discriminate).
  all: eexists; split; [reflexivity|]; try reflexivity.
  all: repeat match goal with
       | H : Qltb _ _ = true |- _ => apply Qltb_lt in H
       | H : Qltb _ _ = false |- _ => apply Qltb_ge in H
       end.
  all: split; [intros; try contradiction; reflexivity|].
  all: intros; try contradiction.
  all: eexists; split; [reflexivity|]; cbn;
    repeat match goal with H : truthy _ = _ |- _ => rewrite H end;
    reflexivity.
Qed.

End Staleness.

(** ** Ownership: [is_locked], [acquire] on a held lock, [refresh], [release] *)

Section Ownership.

Context {E : Env}.

(** [is_locked] never raises.  It answers [True] only for a cached lock
    [(ino, data)] when the stat of the lock file gives the inode [ino] and
    the file reads back as [data]; it then made exactly these calls and left
    [self] alone.  When it answers [False], [_lock] is [None] afterwards. *)
Lemma is_locked_spec (self : DotLock) (w : world E) :
  exists b : bool,
    (run (is_locked self) w).1.1.1 = Normal b /\
    if b then
      (run (is_locked self) w).1.1.2 = self /\
      exists s f data,
        _lock self = Some (ST_INO s, data) /\
        (run (is_locked self) w).2 =
          [(os_stat (lockpath self), AStat (Ok s));
           (os_open (lockpath self) ModeR, AFd (Ok f));
           (file_read f, AStr (Ok data));
           (file_close f, AUnit (Ok tt))]
    else
      (run (is_locked self) w).1.1.2 = set_lock None self /\
      (_lock self = None -> (run (is_locked self) w).2 = []).
Proof.
  crunch.
  all: eexists; split; [reflexivity|]; cbn [fst snd].
  all: try (split; [reflexivity|]; intros; try discriminate; reflexivity).
  all: try (split; [symmetry; apply set_lock_same; assumption|];
            intros; reflexivity).
  tidy. split; [reflexivity|]. eauto 10.
Qed.

(** C1 (amended).  When [is_locked()] answers [True], [acquire] returns at
    once and leaves [self] alone: it does not try the lock and does not
    sleep, and the calls it makes are those of [is_locked()] itself, namely a
    stat, an open, a read and a close of the lock file. *)
Theorem acquire_on_held_lock (str_float : Q -> string) (fuel : nat)
    (max_attempts : option Z) (self : DotLock) (w : world E) :
  (run (is_locked self) w).1.1.1 = Normal true ->
  (exists v, (run (acquire str_float fuel max_attempts self) w).1.1.1
             = Normal (Some v)) /\
  (run (acquire str_float fuel max_attempts self) w).1.1.2 = self /\
  (run (acquire str_float fuel max_attempts self) w).1.2
    = (run (is_locked self) w).1.2 /\
  exists s f data,
    _lock self = Some (ST_INO s, data) /\
    (run (acquire str_float fuel max_attempts self) w).2 =
      [(os_stat (lockpath self), AStat (Ok s));
       (os_open (lockpath self) ModeR, AFd (Ok f));
       (file_read f, AStr (Ok data));
       (file_close f, AUnit (Ok tt))].
Proof.
  unfold acquire. crunch.
  all: cbn [fst snd]; try discriminate.
  intros _. tidy. eauto 10.
Qed.

(** The three ways a [release] can go. *)
Lemma release_cases (self : DotLock) (w : world E) :
  (_lock self = None /\ run (release self) w = ((Normal tt, self), w, [])) \/
  (exists s f data w1,
     _lock self = Some (ST_INO s, data) /\
     run (is_locked self) w =
       ((Normal true, self), w1,
        [(os_stat (lockpath self), AStat (Ok s));
         (os_open (lockpath self) ModeR, AFd (Ok f));
         (file_read f, AStr (Ok data));
         (file_close f, AUnit (Ok tt))]) /\
     run (release self) w =
       ((Normal tt, set_lock None self),
        (handle E (os_unlink (lockpath self)) w1).2,
        [(os_stat (lockpath self), AStat (Ok s));
         (os_open (lockpath self) ModeR, AFd (Ok f));
         (file_read f, AStr (Ok data));
         (file_close f, AUnit (Ok tt));
         (os_unlink (lockpath self),
          AUnit (handle E (os_unlink (lockpath self)) w1).1)])) \/
  (exists w1 l,
     _lock self <> None /\
     run (is_locked self) w = ((Normal false, set_lock None self), w1, l) /\
     run (release self) w = ((Normal tt, set_lock None self), w1, l)).
Proof.
  destruct (_lock self) as [[ino data]|] eqn:Hl.
  2: { left. split; [reflexivity|]. unfold release. msimpl. rewrite Hl.
       reflexivity. }
  right.
  unfold release. msimpl. rewrite Hl.
  change (pbind (is_locked self) ?k) with (m_bind is_locked
    (fun b => if negb b then m_ret tt
              else lp <~ get lockpath ;; exec lift (unlink lp) ;;
                   put (set_lock None)) self).
  rewrite run_m_bind.
  destruct (is_locked_spec self w) as [b [Hb Hrest]].
  destruct (run (is_locked self) w) as [[[r s1] w1] l1].
  cbn [fst snd] in *. subst r. destruct b; msimpl.
  - destruct Hrest as [-> (s & f & d & Hs & ->)].
    unfold unlink, py_except_io, raw_unlink. msimpl.
    left. exists s, f, d, w1.
    split; [congruence|]. split; [reflexivity|].
    destruct (handle E (os_unlink (lockpath self)) w1) as [a w2].
    destruct a as [[]|e]; reflexivity.
  - destruct Hrest as [-> _]. right. exists w1, l1.
    rewrite app_nil_r. repeat split. discriminate.
Qed.

(** [is_locked] never unlinks. *)
Lemma is_locked_no_unlink (self : DotLock) (w : world E) :
  List.filter is_unlink (calls (run (is_locked self) w).2) = [].
Proof. crunch; reflexivity. Qed.

End Ownership.

(** *** Effects on the shared filesystem *)

Lemma run_invariant {E : Env} {R : Type} (P : world E -> Prop)
    (ok : syscall -> bool) :
  (forall c w, ok c = true -> P w -> P (handle E c w).2) ->
  forall (p : prog R) (w : world E),
    P w -> forallb ok (calls (run p w).2) = true -> P (run p w).1.2.
Proof.
  intros Hstep p. induction p as [r|c k IH]; intros w Hw Hok; cbn [run] in *.
  - exact Hw.
  - specialize (Hstep c w). destruct (handle E c w) as [a w1].
    specialize (IH a w1). destruct (run (k a) w1) as [[r w2] l].
    cbn [fst snd calls map forallb] in *.
    apply andb_true_iff in Hok as [Hc Hl]. auto.
Qed.

Lemma posix_keeps_names (who : ident) (c : syscall) (s : fs) :
  keeps_names c = true -> names (posix_handle who c s).2 = names s.
Proof.
  intros Hc. unfold posix_handle.
  destruct c; try destruct m; try discriminate Hc; cbn [failure posix_clean];
    repeat case_match; reflexivity.
Qed.

Lemma posix_readonly (who : ident) (c : syscall) (s : fs) :
  readonly c = true -> faults s = [] -> (posix_handle who c s).2 = s.
Proof.
  intros Hc Hf. unfold posix_handle. rewrite Hf.
  destruct c; try destruct m; try discriminate Hc; cbn [failure posix_clean];
    repeat case_match; reflexivity.
Qed.

Lemma is_locked_true_stat {E : Env} (self : DotLock) (w : world E) :
  (run (is_locked self) w).1.1.1 = Normal true ->
  exists s, (handle E (os_stat (lockpath self)) w).1 = Ok s.
Proof. crunch; cbn [fst snd]; try discriminate; eauto. Qed.

Lemma is_locked_readonly {E : Env} (self : DotLock) (w : world E) :
  forallb readonly (calls (run (is_locked self) w).2) = true.
Proof. crunch; reflexivity. Qed.

Lemma is_locked_keeps_names {E : Env} (self : DotLock) (w : world E) :
  forallb keeps_names (calls (run (is_locked self) w).2) = true.
Proof. crunch; reflexivity. Qed.

Lemma posix_stat_ok (who : ident) (p : string) (s : fs) (st : stat_result) :
  (posix_handle who (os_stat p) s).1 = Ok st ->
  exists n, names s !! p = Some (ST_INO st) /\
            inodes s !! ST_INO st = Some n.
Proof.
  unfold posix_handle. cbn [failure posix_clean].
  destruct (faults s) as [|[| |] l]; cbn [names inodes set_faults fst snd];
    try discriminate.
  all: destruct (names s !! p) as [i|] eqn:Hn; [|discriminate].
  all: destruct (inodes s !! i) as [n|] eqn:Hi; [|discriminate].
  all: intros [= <-]; cbn; eauto.
Qed.

Lemma is_locked_posix_same (who : ident) (self : DotLock) (s : fs) :
  faults s = [] -> (@run (Posix who) _ (is_locked self) s).1.2 = s.
Proof.
  intros Hf.
  apply (run_invariant (E := Posix who) (fun w => w = s) readonly).
  - intros c w Hc ->. apply posix_readonly; assumption.
  - reflexivity.
  - apply is_locked_readonly.
Qed.

Lemma is_locked_posix_names (who : ident) (self : DotLock) (s : fs) :
  names (@run (Posix who) _ (is_locked self) s).1.2 = names s.
Proof.
  apply (run_invariant (E := Posix who) (fun w => names w = names s)
           keeps_names).
  - intros c w Hc <-. apply posix_keeps_names; assumption.
  - reflexivity.
  - apply is_locked_keeps_names.
Qed.

(** The effect of [release] on the shared filesystem. *)
Lemma release_posix (who : ident) (self : DotLock) (s : fs) :
  let chk := @run (Posix who) _ (is_locked self) s in
  let s' := (@run (Posix who) _ (release self) s).1.2 in
  (chk.1.1.1 <> Normal true -> names s' = names s) /\
  (faults s = [] -> chk.1.1.1 = Normal true ->
   names s' = delete (lockpath self) (names s)).
Proof.
  cbv zeta.
  pose proof (is_locked_posix_names who self s) as Hnames.
  destruct (@release_cases (Posix who) self s) as [[Hl H]|[H|H]].
  - rewrite H. cbn [fst snd]. split; [reflexivity|].
    intros _ Ht. destruct (@is_locked_spec (Posix who) self s) as [b [Hb Hr]].
    rewrite Hb in Ht. injection Ht as ->.
    destruct Hr as [_ (st & f & d & Hs & _)]. congruence.
  - destruct H as (st & f & d & w1 & Hl & Hchk & Hrel).
    split; [rewrite Hchk; cbn [fst snd]; congruence|].
    intros Hf _.
    pose proof (is_locked_posix_same who self s Hf) as Hsame.
    destruct (@is_locked_true_stat (Posix who) self s) as [st' Hst].
    { rewrite Hchk. reflexivity. }
    destruct (posix_stat_ok who _ s st' Hst) as (n & Hn & Hi).
    rewrite Hrel. rewrite Hchk in Hsame. cbn [fst snd] in *. subst w1.
    change (handle (Posix who)) with (posix_handle who).
    unfold posix_handle. cbn [failure posix_clean]. rewrite Hf, Hn, Hi.
    reflexivity.
  - destruct H as (w1 & l & Hl & Hchk & Hrel).
    rewrite Hrel. rewrite Hchk in Hnames. cbn [fst snd] in *.
    split; [intros _; exact Hnames|].
    intros _ Ht. rewrite Hchk in Ht. discriminate Ht.
Qed.

(** The effect of [refresh] on the shared filesystem. *)
Lemma refresh_posix (who : ident) (self : DotLock) (s : fs) :
  let s' := (@run (Posix who) _ (refresh self) s).1.2 in
  faults s = [] ->
  (@run (Posix who) _ (is_locked self) s).1.1.1 = Normal true ->
  exists i n,
    names s' !! lockpath self = Some i /\
    inodes s' !! i = Some n /\
    i_mtime n = (clock s - _skew self)%Q.
Proof.
  cbv zeta. intros Hf Ht.
  pose proof (is_locked_posix_same who self s Hf) as Hsame.
  destruct (@is_locked_true_stat (Posix who) self s Ht) as [st Hst].
  destruct (posix_stat_ok who _ s st Hst) as (n & Hn & Hi).
  destruct (@is_locked_spec (Posix who) self s) as [b [Hb Hr]].
  rewrite Hb in Ht. injection Ht as ->. destruct Hr as [Hself _].
  unfold refresh. rewrite run_m_bind.
  destruct (@run (Posix who) _ (is_locked self) s) as [[[r s1] w1] l1].
  cbn [fst snd] in *. subst r s1 w1. msimpl.
  unfold utime, py_except_io, raw_utime. msimpl.
  change (handle (Posix who)) with (posix_handle who).
  unfold posix_handle. cbn [failure posix_clean]. rewrite Hf.
  rewrite Hn, Hi. cbn [of_io run pbind fst snd names inodes set_inode].
  exists (ST_INO st). eexists. split; [exact Hn|].
  rewrite lookup_insert_eq. split; reflexivity.
Qed.

Section Held.

Context {E : Env}.

(** C4.  [refresh] raises [DotLockError("Not locked")] exactly when
    [is_locked()] answers [False], and raises nothing else.  When
    [is_locked()] answers [True], [refresh] returns, [self] is unchanged, and
    after the check it reads the clock and calls
    [os.utime(lockpath, (now - skew, now - skew))], whose failure is
    swallowed.  On the shared filesystem, when no call fails, the
    modification time of the lock file is [now - skew] afterwards. *)
Theorem refresh_spec (self : DotLock) (w : world E) :
  let chk := run (is_locked self) w in
  let now := handle E time_time chk.1.2 in
  let time_t := (now.1 - _skew self)%Q in
  let ut := handle E (os_utime (lockpath self) time_t time_t) now.2 in
  ((run (refresh self) w).1.1.1 = Raised (DotLockError "Not locked")
   <-> chk.1.1.1 = Normal false) /\
  (forall e, (run (refresh self) w).1.1.1 = Raised e ->
             e = DotLockError "Not locked") /\
  ((exists e, (run (refresh self) w).1.1.1 = Raised e)
   <-> chk.1.1.1 = Normal false) /\
  (chk.1.1.1 = Normal true ->
   run (refresh self) w =
     ((Normal tt, self), ut.2,
      (chk.2 ++ [(time_time, ATime now.1);
                 (os_utime (lockpath self) time_t time_t, AUnit ut.1)])%list)) /\
  (forall (who : ident) (s : fs),
     faults s = [] ->
     (@run (Posix who) _ (is_locked self) s).1.1.1 = Normal true ->
     exists i n,
       names (@run (Posix who) _ (refresh self) s).1.2 !! lockpath self
         = Some i /\
       inodes (@run (Posix who) _ (refresh self) s).1.2 !! i = Some n /\
       i_mtime n = (clock s - _skew self)%Q).
Proof.
  cbv zeta.
  refine (conj _ (conj _ (conj _ (conj _ _)))).
  5: { intros who s. apply refresh_posix. }
  all: crunch.
  all: cbn [fst snd app reply_of]; tidy.
  all: repeat split; intros; try discriminate; try congruence; eauto.
  all: try match goal with H : exists _, _ |- _ => destruct H; discriminate end.
Qed.

(** C5.  [release] never raises, and afterwards [_lock] is [None] and
    nothing else of [self] has changed.  On an engine without a cached lock
    it makes no call at all; so does a second [release] right after a first.
    Over two calls in a row, [os.unlink] is called once, on the lock file,
    when the [is_locked()] check of the first call answers [True], and is
    not called otherwise; a [release] that calls [os.unlink] has just seen
    the cached inode in the stat of the lock file and read the cached
    content back from it.  On the shared filesystem, a [release] whose check
    does not answer [True] leaves the directory as it is, and one whose
    check answers [True] removes the lock file when no call fails. *)
Theorem release_spec (self : DotLock) (w : world E) :
  let r1 := run (release self) w in
  let self1 := r1.1.1.2 in
  let r2 := run (release self1) r1.1.2 in
  r1.1.1.1 = Normal tt /\
  self1 = set_lock None self /\
  r2 = ((Normal tt, self1), r1.1.2, []) /\
  (_lock self = None -> r1 = ((Normal tt, self), w, [])) /\
  List.filter is_unlink (calls (r1.2 ++ r2.2)%list) =
    match (run (is_locked self) w).1.1.1 with
    | Normal true => [os_unlink (lockpath self)]
    | _ => []
    end /\
  (forall p, In (os_unlink p) (calls r1.2) ->
     p = lockpath self /\
     exists s f data a,
       _lock self = Some (ST_INO s, data) /\
       r1.2 = [(os_stat (lockpath self), AStat (Ok s));
               (os_open (lockpath self) ModeR, AFd (Ok f));
               (file_read f, AStr (Ok data));
               (file_close f, AUnit (Ok tt));
               (os_unlink (lockpath self), AUnit a)]) /\
  (forall (who : ident) (s : fs),
     let chk := @run (Posix who) _ (is_locked self) s in
     let s' := (@run (Posix who) _ (release self) s).1.2 in
     (chk.1.1.1 <> Normal true -> names s' = names s) /\
     (faults s = [] -> chk.1.1.1 = Normal true ->
      names s' = delete (lockpath self) (names s))).
Proof.
  cbv zeta.
  match goal with
  | |- ?A /\ ?B /\ ?C /\ ?D /\ ?F /\ ?G /\ ?P =>
      assert (HP : P) by (intros who s; apply release_posix);
      enough (Hmain : A /\ B /\ C /\ D /\ F /\ G)
        by (destruct Hmain as (? & ? & ? & ? & ? & ?);
            repeat (split; [assumption|]); exact HP);
      clear HP
  end.
  assert (Hsecond : forall s0 (w0 : world E),
            _lock s0 = None ->
            run (release s0) w0 = ((Normal tt, s0), w0, [])).
  { intros s0 w0 H0. destruct (release_cases s0 w0) as [[_ H]|[H|H]]; [exact H| |].
    - destruct H as (s & f & data & w1 & Hl & _). congruence.
    - destruct H as (w1 & l & Hl & _). congruence. }
  destruct (release_cases self w) as [[Hl H]|[H|H]].
  - rewrite H. cbn [fst snd]. rewrite (Hsecond self w Hl).
    cbn [fst snd app calls map List.filter is_unlink In].
    repeat split; try tauto.
    + symmetry. apply set_lock_same. assumption.
    + destruct (is_locked_spec self w) as [b [Hb Hrest]]. rewrite Hb.
      destruct b; [|reflexivity].
      destruct Hrest as [_ (s & f & data & Hs & _)]. congruence.
  - destruct H as (s & f & data & w1 & Hl & Hchk & Hrel).
    rewrite Hrel, Hchk. cbn [fst snd].
    rewrite (Hsecond (set_lock None self) _ eq_refl).
    cbn [fst snd app calls map List.filter is_unlink In].
    repeat split; try congruence.
    + destruct H as [?|[?|[?|[?|[?|[]]]]]]; congruence.
    + eauto 10.
  - destruct H as (w1 & l & Hl & Hchk & Hrel).
    pose proof (is_locked_no_unlink self w) as Hnone.
    rewrite Hrel, Hchk in *. cbn [fst snd] in *.
    rewrite (Hsecond (set_lock None self) w1 eq_refl). cbn [fst snd].
    rewrite app_nil_r, Hnone.
    repeat split.
    + intros; contradiction.
    + exfalso. assert (Hin : In (os_unlink p) (List.filter is_unlink (calls l))).
      { apply filter_In. split; [assumption|reflexivity]. }
      rewrite Hnone in Hin. destruct Hin.
    + exfalso. assert (Hin : In (os_unlink p) (List.filter is_unlink (calls l))).
      { apply filter_In. split; [assumption|reflexivity]. }
      rewrite Hnone in Hin. destruct Hin.
Qed.

End Held.

(** ** Atomic creation: [_trylock] *)

Lemma fmt_lockdata_nonempty (str_float : Q -> string) (h : string)
    (pid tid : Z) (t : Q) :
  nonempty (fmt_lockdata str_float h pid tid t) = true.
Proof. unfold fmt_lockdata. destruct h; reflexivity. Qed.

Section Trylock.

Context {E : Env}.
Variable str_float : Q -> string.

Lemma trylock_lock_aux (self : DotLock) (w : world E)
    (out : result pyval) (self' : DotLock) (w' : world E) (log : list entry) :
  run (_trylock str_float self) w = ((out, self'), w', log) ->
  _lock self = None ->
  (forall ino data,
     _lock self' = Some (ino, data) <->
     exists tmp s f,
       In (os_stat tmp, AStat (Ok s)) log /\
       ST_NLINK s = 2 /\ ST_INO s = ino /\
       In (file_write f data, AUnit (Ok tt)) log) /\
  (forall v, out = Normal v -> truthy v = is_not_none (_lock self')) /\
  (forall tmp r, In (os_stat tmp, AStat r) log ->
     exists pre post la,
       log = (pre ++ (os_link tmp (lockpath self), AUnit la)
                  :: (os_stat tmp, AStat r) :: post)%list).
Proof.
  crunch.
  all: intros [= <- <- <- <-] Hnone.
  all: cbn [_lock set_lock set_skew reply_of]; tidy.
  all: try match goal with
       | H : nonempty (fmt_lockdata _ _ _ _ _) = false |- _ =>
           rewrite fmt_lockdata_nonempty in H; discriminate H
       end.
  all: try rewrite Hnone.
  all: split; [intros ino data; split|split].
  all: try (intros [= <- <-]; do 3 eexists; split; [find_in_log|];
            repeat split; try assumption; find_in_log).
  all: try (intros (tmp & s & f & Hs & Hn & Hi & Hw); in_log Hs; in_log Hw;
            congruence).
  all: try (intros v [= <-]; reflexivity).
  all: try discriminate.
  all: try (intros tmp r Hs; in_log Hs;
            eexists (_ :: _ :: _ :: _ :: _ :: _ :: _ :: []), _, _;
            reflexivity).
Qed.

(** C6.  Started without a cached lock, [_trylock] ends with
    [_lock = (ino, data)] exactly when the stat of the temporary file
    succeeded with a link count of 2, [ino] being the inode of that stat and
    [data] the string written to the temporary file; otherwise [_lock] is
    still [None].  The value returned is true exactly when [_lock] is set
    ([None], returned when the stat fails, counts as false).  The stat comes
    right after the link attempt.  ([acquire] calls [_trylock] only without
    a cached lock, see [acquire_turn_keeps_unlocked].) *)
Theorem trylock_sets_lock_iff_two_links (self : DotLock) (w : world E) :
  _lock self = None ->
  let r := run (_trylock str_float self) w in
  (forall ino data,
     _lock r.1.1.2 = Some (ino, data) <->
     exists tmp s f,
       In (os_stat tmp, AStat (Ok s)) r.2 /\
       ST_NLINK s = 2 /\ ST_INO s = ino /\
       In (file_write f data, AUnit (Ok tt)) r.2) /\
  ((~ exists tmp s, In (os_stat tmp, AStat (Ok s)) r.2 /\ ST_NLINK s = 2) ->
   _lock r.1.1.2 = None) /\
  (forall v, r.1.1.1 = Normal v -> truthy v = is_not_none (_lock r.1.1.2)) /\
  (forall tmp a, In (os_stat tmp, AStat a) r.2 ->
     exists pre post la,
       r.2 = (pre ++ (os_link tmp (lockpath self), AUnit la)
                  :: (os_stat tmp, AStat a) :: post)%list).
Proof.
  intros Hnone. cbv zeta.
  destruct (run (_trylock str_float self) w) as [[[out self'] w'] log] eqn:Hrun.
  cbn [fst snd].
  destruct (trylock_lock_aux _ _ _ _ _ _ Hrun Hnone) as (Hset & Hret & Hord).
  repeat split; try assumption; try apply Hset.
  intros Hno. destruct (_lock self') as [[ino data]|] eqn:Hl; [|reflexivity].
  exfalso. apply Hno.
  destruct (proj1 (Hset ino data) eq_refl) as (tmp & s & f & Hs & Hn & _).
  eauto.
Qed.

Lemma trylock_skew_aux (self : DotLock) (w : world E)
    (out : result pyval) (self' : DotLock) (w' : world E) (log : list entry) :
  run (_trylock str_float self) w = ((out, self'), w', log) ->
  out = Normal (PyBool true) ->
  exists tmp s now pre post,
    log = (pre ++ (os_stat tmp, AStat (Ok s))
               :: (time_time, ATime now) :: post)%list /\
    let skew := (now - inject_Z (ST_MTIME s))%Q in
    ((1 < Qabs skew)%Q -> _skew self' = skew) /\
    (~ (1 < Qabs skew)%Q -> _skew self' = _skew self).
Proof.
  crunch.
  all: intros [= <- <- <- <-] Hout; try discriminate Hout.
  all: cbn [_skew set_lock set_skew reply_of]; tidy.
  all: try match goal with
       | H : nonempty (fmt_lockdata _ _ _ _ _) = false |- _ =>
           rewrite fmt_lockdata_nonempty in H; discriminate H
       end.
  all: do 3 eexists; eexists (_ :: _ :: _ :: _ :: _ :: _ :: _ :: _ :: []), _.
  all: (split; [reflexivity|]); cbv zeta; split; intros; try reflexivity;
    contradiction.
Qed.

(** C7 (amended).  When [_trylock] succeeds, the time read right after the
    stat of the temporary file gives [skew = now - mtime]; the stored skew
    afterwards is [skew] when [abs(skew) > 1], and is what it was before
    otherwise. *)
Theorem trylock_skew_spec (self : DotLock) (w : world E) :
  let r := run (_trylock str_float self) w in
  r.1.1.1 = Normal (PyBool true) ->
  exists tmp s now pre post,
    r.2 = (pre ++ (os_stat tmp, AStat (Ok s))
               :: (time_time, ATime now) :: post)%list /\
    let skew := (now - inject_Z (ST_MTIME s))%Q in
    ((1 < Qabs skew)%Q -> _skew r.1.1.2 = skew) /\
    (~ (1 < Qabs skew)%Q -> _skew r.1.1.2 = _skew self).
Proof.
  cbv zeta.
  destruct (run (_trylock str_float self) w) as [[[out self'] w'] log] eqn:Hrun.
  cbn [fst snd]. intros Hout.
  exact (trylock_skew_aux _ _ _ _ _ _ Hrun Hout).
Qed.

End Trylock.

(** ** Takeover: [_hijacklock] *)

Section Hijack.

Context {E : Env}.
Variable str_float : Q -> string.

(** C8 (amended).  [_hijacklock] asks who it is and what time it is, writes
    the new lock data over the lock file, sleeps [hijack_delay], reads the
    lock file back and, when the content is the one written, stats it.  When
    [writefile] returns: if the content read back is the data written and
    the stat succeeds, the result is [True] and [_lock] is the inode of that
    stat with the data written; if the content is the data written and the
    stat fails, the result is [False] and [self] is unchanged; if the content
    differs or cannot be read, the result is [False], [self] is unchanged and
    no stat is made. *)
Theorem hijack_spec (self : DotLock) (w : world E) :
  let a1 := handle E socket_gethostname w in
  let a2 := handle E os_getpid a1.2 in
  let a3 := handle E thread_get_ident a2.2 in
  let a4 := handle E time_time a3.2 in
  let lockdata := fmt_lockdata str_float a1.1 a2.1 (tid_of a3.1) a4.1 in
  let wr := run (writefile (lockpath self) lockdata) a4.2 in
  let sl := handle E (time_sleep (hijack_delay self)) wr.1.2 in
  let rd := run (readfile (lockpath self)) sl.2 in
  let st := run (stat (lockpath self)) rd.1.2 in
  let pre := [(socket_gethostname, AHost a1.1); (os_getpid, APid a2.1);
              (thread_get_ident, ATid a3.1); (time_time, ATime a4.1)] in
  let slept := (time_sleep (hijack_delay self), ADone) in
  let r := run (_hijacklock str_float self) w in
  wr.1.1 = Normal tt ->
  (rd.1.1 = Normal (Some lockdata) ->
   forall s, st.1.1 = Normal (Some s) ->
   r = ((Normal true, set_lock (Some (ST_INO s, lockdata)) self), st.1.2,
        (pre ++ wr.2 ++ slept :: rd.2 ++ st.2)%list)) /\
  (rd.1.1 = Normal (Some lockdata) ->
   st.1.1 = Normal None ->
   r = ((Normal false, self), st.1.2,
        (pre ++ wr.2 ++ slept :: rd.2 ++ st.2)%list)) /\
  (rd.1.1 <> Normal (Some lockdata) ->
   r = ((Normal false, self), rd.1.2,
        (pre ++ wr.2 ++ slept :: rd.2)%list)).
Proof.
  cbv zeta. unfold _hijacklock. msimpl.
  destruct (handle E socket_gethostname w) as [h w1]. msimpl.
  destruct (handle E os_getpid w1) as [pid w2]. msimpl.
  destruct (handle E thread_get_ident w2) as [t w3]. msimpl.
  destruct (handle E time_time w3) as [t0 w4]. msimpl.
  rewrite !run_pbind.
  destruct (run (writefile _ _) w4) as [[wr w5] lw]. msimpl.
  intros ->. msimpl.
  destruct (handle E (time_sleep (hijack_delay self)) w5) as [[] w6]. msimpl.
  rewrite !run_pbind.
  destruct (readfile_returns (lockpath self) w6) as [d Hd].
  destruct (run (readfile _) w6) as [[rd w7] lr].
  cbn [fst snd] in Hd. subst rd. msimpl.
  destruct (content_eq d _) eqn:Hc; msimpl.
  - destruct d as [d|]; [|discriminate Hc].
    apply String.eqb_eq in Hc. subst d.
    rewrite !run_pbind.
    destruct (stat_returns (lockpath self) w7) as [s Hs].
    destruct (run (stat _) w7) as [[st w8] ls].
    cbn [fst snd] in Hs. subst st. msimpl.
    rewrite !app_nil_r.
    destruct s as [s|]; msimpl; rewrite ?app_nil_r.
    + repeat split; intros; try congruence.
      match goal with H : Normal (Some _) = Normal (Some _) |- _ =>
        injection H as <- end.
      reflexivity.
    + repeat split; intros; try congruence.
  - rewrite !app_nil_r. repeat split; intros; try reflexivity.
    all: exfalso;
      match goal with H : Normal _ = Normal (Some _) |- _ =>
        injection H as -> end;
      cbn in Hc; rewrite String.eqb_refl in Hc; discriminate.
Qed.

End Hijack.

(** ** The polling loop of [acquire] *)

Lemma sleeps_app (l1 l2 : list entry) :
  sleeps (l1 ++ l2) = (sleeps l1 + sleeps l2)%nat.
Proof.
  unfold sleeps, calls. rewrite map_app, List.filter_app, length_app.
  reflexivity.
Qed.

Section Acquire.

Context {E : Env}.
Variable str_float : Q -> string.

(** How one turn of the loop can end. *)
Lemma acquire_turn_cases (max_attempts : option Z) (i : Z) (self : DotLock)
    (w : world E) :
  let r := run (acquire_turn str_float max_attempts i self) w in
  match r.1.1.1 with
  | Normal (inr (PyBool true)) => True
  | Normal (inr (PyBool false)) =>
      attempts_given max_attempts = true /\
      i + 1 >= default 0 max_attempts
  | Normal (inr PyNone) => False
  | Normal (inl i') =>
      i' = (if attempts_given max_attempts then i + 1 else i) /\
      (attempts_given max_attempts = true -> i + 1 < default 0 max_attempts) /\
      exists l, r.2 = (l ++ [(time_sleep (poll_interval r.1.1.2), ADone)])%list
  | Raised _ => True
  end.
Proof.
  cbv zeta. unfold acquire_turn.
  rewrite run_m_bind.
  destruct (run (_trylock str_float self) w) as [[[r1 s1] w1] l1].
  cbn [fst snd]. destruct r1 as [v|e]; [|exact I].
  destruct (truthy v).
  { msimpl. exact I. }
  rewrite run_m_bind.
  destruct (run (is_stale s1) w1) as [[[r2 s2] w2] l2].
  cbn [fst snd]. destruct r2 as [stale|e]; [|exact I].
  rewrite run_m_bind.
  destruct (run ((if stale then _hijacklock str_float else m_ret false) s2) w2)
    as [[[r3 s3] w3] l3].
  cbn [fst snd]. destruct r3 as [h|e]; [|exact I].
  destruct h.
  { msimpl. exact I. }
  destruct (attempts_given max_attempts) eqn:Hg; cbn [andb].
  - destruct (i + 1 >=? default 0 max_attempts) eqn:Hi; msimpl.
    + split; [reflexivity|]. apply Z.geb_le in Hi. lia.
    + destruct (handle E (time_sleep (poll_interval s3)) w3) as [[] w4].
      cbn [fst snd]. split; [reflexivity|]. split.
      * intros _. rewrite Z.geb_leb in Hi. apply Z.leb_gt in Hi. exact Hi.
      * exists (l1 ++ l2 ++ l3)%list. rewrite <- !app_assoc. reflexivity.
  - msimpl.
    destruct (handle E (time_sleep (poll_interval s3)) w3) as [[] w4].
    cbn [fst snd]. split; [reflexivity|]. split; [discriminate|].
    exists (l1 ++ l2 ++ l3)%list. rewrite <- !app_assoc. reflexivity.
Qed.

(** [is_stale] returns a truth value and leaves [self] alone. *)
Lemma is_stale_keeps_self (self : DotLock) (w : world E) :
  exists b : bool, (run (is_stale self) w).1.1 = (Normal b, self).
Proof. crunch; eauto. Qed.

(** A hijack that returns [False] leaves [self] alone. *)
Lemma hijack_false_keeps_self (self : DotLock) (w : world E) :
  (run (_hijacklock str_float self) w).1.1.1 = Normal false ->
  (run (_hijacklock str_float self) w).1.1.2 = self.
Proof. crunch; cbn [fst snd]; try discriminate; reflexivity. Qed.

(** [acquire] calls [_trylock] only without a cached lock: this is so for
    the first turn, after [is_locked()] answered [False], and a turn that
    starts without a cached lock and goes on to the next turn ends without
    one. *)
Lemma acquire_turn_keeps_unlocked (max_attempts : option Z) (i i' : Z)
    (self : DotLock) (w : world E) :
  _lock self = None ->
  (run (acquire_turn str_float max_attempts i self) w).1.1.1 = Normal (inl i') ->
  _lock (run (acquire_turn str_float max_attempts i self) w).1.1.2 = None.
Proof.
  intros Hnone. unfold acquire_turn.
  rewrite run_m_bind.
  destruct (run (_trylock str_float self) w) as [[[r1 s1] w1] l1] eqn:Hrun.
  destruct (trylock_lock_aux str_float _ _ _ _ _ _ Hrun Hnone) as (_ & Hret & _).
  cbn [fst snd] in *. destruct r1 as [v|e]; [|discriminate].
  specialize (Hret v eq_refl).
  destruct (truthy v); [msimpl; discriminate|].
  assert (Hs1 : _lock s1 = None) by (destruct (_lock s1); [discriminate Hret|reflexivity]).
  rewrite run_m_bind.
  destruct (is_stale_keeps_self s1 w1) as (b & Hb).
  destruct (run (is_stale s1) w1) as [[[r2 s2] w2] l2].
  cbn [fst snd] in *. injection Hb as -> ->.
  rewrite run_m_bind.
  pose proof (hijack_false_keeps_self s1 w2) as Hh.
  destruct b.
  - destruct (run (_hijacklock str_float s1) w2) as [[[r3 s3] w3] l3].
    cbn [fst snd] in *. destruct r3 as [[|]|e]; try (msimpl; discriminate).
    rewrite (Hh eq_refl).
    destruct (attempts_given max_attempts && _); msimpl; [discriminate|].
    destruct (handle E (time_sleep (poll_interval s1)) w3) as [[] w4].
    cbn [fst snd]. intros _. exact Hs1.
  - msimpl.
    destruct (attempts_given max_attempts && _); msimpl; [discriminate|].
    destruct (handle E (time_sleep (poll_interval s1)) w2) as [[] w4].
    cbn [fst snd]. intros _. exact Hs1.
Qed.

Lemma acquire_turn_zero (i : Z) :
  acquire_turn str_float (Some 0) i = acquire_turn str_float None i.
Proof. reflexivity. Qed.

Lemma acquire_loop_zero (fuel : nat) (i : Z) (self : DotLock) (w : world E) :
  run (acquire_loop str_float fuel (Some 0) i self) w
  = run (acquire_loop str_float fuel None i self) w.
Proof.
  revert i self w. induction fuel as [|n IH]; intros i self w;
    cbn [acquire_loop]; [reflexivity|].
  rewrite !run_m_bind, acquire_turn_zero.
  destruct (run (acquire_turn str_float None i self) w) as [[[r s1] w1] l1].
  cbn [fst snd]. destruct r as [[i1|v]|e]; try reflexivity.
  rewrite IH. reflexivity.
Qed.

(** How the loop can end within [fuel] turns. *)
Lemma acquire_loop_cases (fuel : nat) (max_attempts : option Z) (i : Z)
    (self : DotLock) (w : world E) :
  let r := run (acquire_loop str_float fuel max_attempts i self) w in
  match r.1.1.1 with
  | Normal (Some (PyBool true)) => True
  | Normal (Some (PyBool false)) => attempts_given max_attempts = true
  | Normal (Some PyNone) => False
  | Normal None =>
      (fuel <= sleeps r.2)%nat /\
      (attempts_given max_attempts = true -> (0 < fuel)%nat ->
       i + Z.of_nat fuel < default 0 max_attempts)
  | Raised _ => True
  end.
Proof.
  cbv zeta. revert i self w. induction fuel as [|n IH]; intros i self w;
    cbn [acquire_loop].
  { msimpl. split; [apply Nat.le_0_l|]. intros _ H. inversion H. }
  rewrite run_m_bind.
  pose proof (acquire_turn_cases max_attempts i self w) as Hturn.
  cbv zeta in Hturn.
  destruct (run (acquire_turn str_float max_attempts i self) w)
    as [[[r s1] w1] l1].
  cbn [fst snd] in *. destruct r as [[i1|v]|e]; [| |exact I].
  - destruct Hturn as (-> & Hlt & l & ->).
    specialize (IH (if attempts_given max_attempts then i + 1 else i) s1 w1).
    destruct (run (acquire_loop str_float n max_attempts _ s1) w1)
      as [[[r2 s2] w2] l2].
    cbn [fst snd] in *. destruct r2 as [[[|[|]]|]|e]; try exact IH; try exact I.
    destruct IH as [Hs Hb]. split.
    + rewrite !sleeps_app. cbn. lia.
    + intros Hg _. specialize (Hlt Hg). rewrite Hg in Hb.
      destruct n as [|n']; [lia|]. specialize (Hb eq_refl ltac:(lia)). lia.
  - msimpl. destruct v as [|[|]]; tauto.
Qed.

End Acquire.

(** On a lock that someone else keeps fresh, a turn of the loop with
    [max_attempts = 0] fails, sleeps once, and leaves the counter alone. *)
Lemma busy_turn (str_float : Q -> string) (i : Z) :
  exists l,
    @run Busy _ (acquire_turn str_float (Some 0) i demo) tt
    = ((Normal (inl i), demo), tt, l) /\
    sleeps l = 1%nat.
Proof. eexists. split; reflexivity. Qed.

Lemma busy_loop (str_float : Q -> string) (fuel : nat) (i : Z) :
  exists l,
    @run Busy _ (acquire_loop str_float fuel (Some 0) i demo) tt
    = ((Normal None, demo), tt, l) /\
    sleeps l = fuel.
Proof.
  induction fuel as [|n IH]; cbn [acquire_loop].
  { exists []. split; reflexivity. }
  rewrite run_m_bind.
  destruct (busy_turn str_float i) as (l1 & -> & Hl1).
  destruct IH as (l2 & IH & Hl2).
  cbn [fst snd]. rewrite IH.
  exists (l1 ++ l2)%list. split; [reflexivity|].
  rewrite sleeps_app. lia.
Qed.

(** C10.  [acquire(max_attempts=0)] runs as [acquire()] does: same result,
    same calls, in every environment.  It never returns [False]; a turn of
    its loop that fails hands the attempt counter on unchanged; and when the
    loop is still running after [fuel] turns it has slept at least [fuel]
    times.  On a lock that is kept fresh by another holder it is still
    running after any number of turns.  Whatever [max_attempts] is,
    [acquire] returns [False] only when [max_attempts] is a nonzero count. *)
Theorem acquire_zero_attempts_unbounded (E : Env) (str_float : Q -> string)
    (fuel : nat) (self : DotLock) (w : world E) :
  let r := run (acquire str_float fuel (Some 0) self) w in
  r = run (acquire str_float fuel None self) w /\
  r.1.1.1 <> Normal (Some (PyBool false)) /\
  (r.1.1.1 = Normal None -> (fuel <= sleeps r.2)%nat) /\
  (forall i i' s0 (w0 : world E),
     (run (acquire_turn str_float (Some 0) i s0) w0).1.1.1 = Normal (inl i') ->
     i' = i) /\
  (exists l,
     @run Busy _ (acquire str_float fuel (Some 0) demo) tt
     = ((Normal None, demo), tt, l) /\ sleeps l = fuel) /\
  (forall max_attempts,
     (run (acquire str_float fuel max_attempts self) w).1.1.1
       = Normal (Some (PyBool false)) ->
     exists n, max_attempts = Some n /\ n <> 0).
Proof.
  cbv zeta.
  assert (Hgen : forall max_attempts,
            match (run (acquire str_float fuel max_attempts self) w).1.1.1 with
            | Normal (Some (PyBool false)) => attempts_given max_attempts = true
            | Normal None =>
                (fuel <= sleeps (run (acquire str_float fuel max_attempts self) w).2)%nat
            | _ => True
            end).
  { intros ma. unfold acquire. rewrite run_m_bind.
    destruct (run (is_locked self) w) as [[[b s1] w1] l1]. cbn [fst snd].
    destruct b as [[|]|e]; try exact I.
    pose proof (acquire_loop_cases str_float fuel ma 0 s1 w1) as H.
    cbv zeta in H.
    destruct (run (acquire_loop str_float fuel ma 0 s1) w1) as [[[r s2] w2] l2].
    cbn [fst snd] in *. destruct r as [[[|[|]]|]|e]; try exact I; try tauto.
    rewrite sleeps_app. lia. }
  repeat split.
  - unfold acquire. rewrite !run_m_bind.
    destruct (run (is_locked self) w) as [[[b s1] w1] l1]. cbn [fst snd].
    destruct b as [[|]|e]; try reflexivity.
    rewrite acquire_loop_zero. reflexivity.
  - intros H. specialize (Hgen (Some 0)). rewrite H in Hgen. discriminate Hgen.
  - intros H. specialize (Hgen (Some 0)). rewrite H in Hgen. exact Hgen.
  - intros i i' s0 w0 H.
    pose proof (acquire_turn_cases str_float (Some 0) i s0 w0) as Hc.
    cbv zeta in Hc. rewrite H in Hc. destruct Hc as [-> _]. reflexivity.
  - destruct (busy_loop str_float fuel 0) as (l & Hl & Hs).
    exists l. split; [|exact Hs].
    unfold acquire. rewrite run_m_bind. cbn [fst snd run is_locked].
    change (@run Busy _ (is_locked demo) tt) with
      (@pair _ (list entry) (@pair _ (world Busy) (Normal false, demo) tt) []).
    cbn [fst snd]. rewrite Hl. reflexivity.
  - intros ma H. specialize (Hgen ma). rewrite H in Hgen.
    destruct ma as [n|]; [|discriminate Hgen].
    exists n. split; [reflexivity|].
    cbn in Hgen. apply negb_true_iff, Z.eqb_neq in Hgen. exact Hgen.
Qed.

(** ** Examples on scripted runs *)

(** C1, as stated, fails: with the lock still held, [acquire] stats and
    reads the lock file, and returns [None], not [True]. *)
Lemma acquire_on_held_lock_reads_lock_file :
  let r := @run Scripted _ (acquire str_floor 1 None held) script_still_held in
  (@run Scripted _ (is_locked held) script_still_held).1.1.1 = Normal true /\
  r.1.1.1 = Normal (Some PyNone) /\
  List.filter is_fs_call (calls r.2) =
    [os_stat "/srv/data.lock"; os_open "/srv/data.lock" ModeR;
     file_read 5; file_close 5] /\
  ~ (r.1.1.1 = Normal (Some (PyBool true)) /\
     List.filter is_fs_call (calls r.2) = []).
Proof.
  cbv zeta. repeat split. intros [H _]. discriminate H.
Qed.

Lemma acquire_on_held_lock_witness :
  (@run Scripted _ (is_locked held) script_still_held).1.1.1 = Normal true /\
  (@run Scripted _ (acquire str_floor 1 None held) script_still_held).1.1.2
    = held.
Proof.
  split; [reflexivity|].
  apply (@acquire_on_held_lock Scripted str_floor 1%nat None held
           script_still_held).
  reflexivity.
Defined.

Lemma trylock_sets_lock_iff_two_links_witness :
  _lock demo = None /\
  forall v,
    (@run Scripted _ (_trylock str_floor demo) script_trylock_wins).1.1.1
      = Normal v ->
    truthy v =
      is_not_none
        (_lock (@run Scripted _ (_trylock str_floor demo)
                  script_trylock_wins).1.1.2).
Proof.
  split; [reflexivity|].
  apply (@trylock_sets_lock_iff_two_links Scripted str_floor demo
           script_trylock_wins).
  reflexivity.
Defined.

(** C7, as stated, fails: [_trylock] succeeds, the clock is half a second
    past the modification time of the temporary file, and the stored skew is
    still 0. *)
Lemma trylock_keeps_skew_within_one_second :
  let r := @run Scripted _ (_trylock str_floor demo) script_trylock_wins in
  r.1.1.1 = Normal (PyBool true) /\
  In (os_stat "/srv/data.locktmp-h-7-3", AStat (Ok (mkStat 11 2 100))) r.2 /\
  In (time_time, ATime (201 # 2)%Q) r.2 /\
  _skew r.1.1.2 = 0%Q /\
  ~ (_skew r.1.1.2 == (201 # 2) - inject_Z 100)%Q.
Proof.
  cbv zeta. repeat split.
  - find_in_log.
  - find_in_log.
  - intros H. vm_compute in H. discriminate H.
Qed.

Lemma trylock_skew_spec_witness :
  (@run Scripted _ (_trylock str_floor demo) script_trylock_wins).1.1.1
    = Normal (PyBool true) /\
  exists tmp s now pre post,
    (@run Scripted _ (_trylock str_floor demo) script_trylock_wins).2 =
      (pre ++ (os_stat tmp, AStat (Ok s))
           :: (time_time, ATime now) :: post)%list /\
    let skew := (now - inject_Z (ST_MTIME s))%Q in
    ((1 < Qabs skew)%Q ->
     _skew (@run Scripted _ (_trylock str_floor demo)
              script_trylock_wins).1.1.2 = skew) /\
    (~ (1 < Qabs skew)%Q ->
     _skew (@run Scripted _ (_trylock str_floor demo)
              script_trylock_wins).1.1.2 = _skew demo).
Proof.
  split; [reflexivity|].
  apply (@trylock_skew_spec Scripted str_floor demo script_trylock_wins).
  reflexivity.
Defined.

(** C8, as stated, fails: the lock file reads back exactly as written, the
    stat that follows fails, and the hijack returns [False] without a
    cached lock. *)
Lemma hijack_fails_when_stat_fails :
  let r := @run Scripted _ (_hijacklock str_floor demo)
             script_hijack_stat_fails in
  In (file_write 5 "h 7 3 100", AUnit (Ok tt)) r.2 /\
  (@run Scripted _ (readfile "/srv/data.lock")
     [AFd (Ok 6); AStr (Ok "h 7 3 100"); AUnit (Ok tt); AStat (Fail OSError)]).1.1
    = Normal (Some "h 7 3 100") /\
  In (file_read 6, AStr (Ok "h 7 3 100")) r.2 /\
  r.1.1 = (Normal false, demo) /\
  ~ (r.1.1.1 = Normal true /\ is_not_none (_lock r.1.1.2) = true).
Proof.
  cbv zeta. repeat split.
  - find_in_log.
  - find_in_log.
  - intros [H _]. discriminate H.
Qed.

Lemma hijack_spec_witness :
  (@run Scripted _ (writefile "/srv/data.lock" "h 7 3 100")
     (skipn 4 script_hijack_wins)).1.1 = Normal tt /\
  (@run Scripted _ (_hijacklock str_floor demo) script_hijack_wins).1.1
    = (Normal true, set_lock (Some (11, "h 7 3 100")) demo).
Proof.
  split; [reflexivity|].
  destruct (@hijack_spec Scripted str_floor demo script_hijack_wins eq_refl)
    as [H _].
  rewrite (H eq_refl (mkStat 11 1 100) eq_refl). reflexivity.
Defined.

(** ** Mutual exclusion of two engines *)

Lemma string_length_app (a b : string) :
  String.length (a +:+ b) = (String.length a + String.length b)%nat.
Proof.
  induction a as [|c a IH]; [reflexivity|].
  change (S (String.length (a +:+ b))
          = S (String.length a + String.length b)).
  rewrite IH. reflexivity.
Qed.

Lemma tmp_of_neq_lockpath (who : ident) (lp : string) : tmp_of who lp <> lp.
Proof.
  unfold tmp_of, fmt_locktemp. intros H.
  apply (f_equal String.length) in H.
  rewrite !string_length_app in H. cbn in H. lia.
Qed.

Section Discipline.

Variable str_float : Q -> string.
Variable who : ident.

(** Go through a call, checking the discipline at every system call. *)
Ltac walk He1 He2 He3 He4 :=
  repeat (unfold_prog; cbn [disciplined];
          rewrite ?He1, ?He2, ?He3, ?He4; cbn [andb];
          first
            [ match goal with
              | |- allowed _ _ _ _ /\ _ =>
                  split;
                  [ cbn [allowed]; try exact I; try reflexivity;
                    try (split; reflexivity); try (left; reflexivity);
                    try (right; split; [reflexivity|discriminate])
                  | let a := fresh "a" in
                    let Ha := fresh "Ha" in
                    intros a Ha; cbn [ans] in a; cbn [answers_as] in Ha;
                    cbn [track];
                    lazymatch type of a with
                    | io _ => destruct a; clear Ha
                    | _ => try subst a; try clear Ha
                    end ]
              end
            | match goal with
              | |- context [if ?b then _ else _] => destruct b eqn:?
              end
            | match goal with
              | |- context [match check_func ?s with _ => _ end] =>
                  destruct (check_func s) eqn:?
              end
            | match goal with
              | |- context [match _lock ?s with _ => _ end] =>
                  destruct (_lock s) as [[? ?]|] eqn:?
              end ]).

Lemma start_disciplined (o : op) (self : DotLock) :
  disciplined who (tmp_of who (lockpath self)) (lockpath self) o
    (lock_ino self) (start str_float o self).
Proof.
  pose proof (tmp_of_neq_lockpath who (lockpath self)) as Hne.
  unfold tmp_of in *.
  assert (He1 : String.eqb (lockpath self)
                  (fmt_locktemp (lockpath self) (id_host who) (id_pid who)
                     (tid_of (id_tid who))) = false).
  { apply String.eqb_neq. congruence. }
  assert (He2 : String.eqb (fmt_locktemp (lockpath self) (id_host who)
                              (id_pid who) (tid_of (id_tid who)))
                  (lockpath self) = false).
  { apply String.eqb_neq. congruence. }
  pose proof (String.eqb_refl (lockpath self)) as He3.
  pose proof (String.eqb_refl (fmt_locktemp (lockpath self) (id_host who)
                                 (id_pid who) (tid_of (id_tid who)))) as He4.
  destruct o; unfold start, map_result; walk He1 He2 He3 He4.
  all: cbn [disciplined fst snd]; rewrite ?He1, ?He2, ?He3, ?He4.
  all: try (split; [reflexivity|split]).
  all: try (intros [=]).
  all: try (unfold lock_ino; cbn [_lock set_lock set_skew];
            intros i Hi; first [exact Hi | discriminate Hi | congruence]).
  all: try (intros v [= <-] Ht; cbn [truthy _lock set_lock set_skew] in *;
    first [discriminate Ht | discriminate
          | destruct (_lock self); [discriminate|discriminate Ht]]).
  right. split; [reflexivity|].
  unfold lock_ino.
  match goal with H : _lock self = Some _ |- _ => rewrite H end.
  discriminate.
Qed.

End Discipline.

(** *** The filesystem invariant is kept by every disciplined call *)

Section Shared.

Variables lp tmpX tmpY : string.
Hypothesis HXY : tmpX <> tmpY.
Hypothesis HXL : tmpX <> lp.
Hypothesis HYL : tmpY <> lp.

Lemma fs_inv_sym (gX gY : option Z) (s : fs) :
  fs_inv lp tmpX tmpY gX gY s -> fs_inv lp tmpY tmpX gY gX s.
Proof. unfold fs_inv. tauto. Qed.

(** A change that keeps the directory and, inode by inode, the link count
    and the origin. *)
Lemma fs_inv_ext (gX gY : option Z) (s s' : fs) :
  names s' = names s ->
  next_ino s' = next_ino s ->
  (forall i n, inodes s !! i = Some n ->
     exists n', inodes s' !! i = Some n' /\
                i_nlink n' = i_nlink n /\ i_origin n' = i_origin n) ->
  fs_inv lp tmpX tmpY gX gY s -> fs_inv lp tmpX tmpY gX gY s'.
Proof.
  intros Hn Hx Hi (Hb & HtX & HtY & HmX & HmY).
  unfold fs_inv, tmp_ok, may_hold in *. rewrite Hn, Hx.
  repeat split.
  - exact Hb.
  - intros i H. destruct (HtX i H) as (n & Hin & Ho & Hl).
    destruct (Hi i n Hin) as (n' & Hin' & Hl' & Ho').
    exists n'. rewrite Hl', Ho'. auto.
  - intros i H. destruct (HtY i H) as (n & Hin & Ho & Hl).
    destruct (Hi i n Hin) as (n' & Hin' & Hl' & Ho').
    exists n'. rewrite Hl', Ho'. auto.
  - apply (HmX i H).
  - destruct (HmX i H) as (_ & n & Hin & Ho).
    destruct (Hi i n Hin) as (n' & Hin' & _ & Ho').
    exists n'. rewrite Ho'. auto.
  - apply (HmY i H).
  - destruct (HmY i H) as (_ & n & Hin & Ho).
    destruct (Hi i n Hin) as (n' & Hin' & _ & Ho').
    exists n'. rewrite Ho'. auto.
Qed.

Lemma fs_inv_set_inode (gX gY : option Z) (s : fs) (i : Z) (n n' : inode) :
  inodes s !! i = Some n ->
  i_nlink n' = i_nlink n -> i_origin n' = i_origin n ->
  fs_inv lp tmpX tmpY gX gY s ->
  fs_inv lp tmpX tmpY gX gY (set_inode i n' s).
Proof.
  intros Hi Hl Ho. apply fs_inv_ext; try reflexivity.
  intros j m Hj. cbn. destruct (decide (i = j)) as [->|Hne].
  - rewrite lookup_insert_eq. exists n'. split; [reflexivity|].
    split; congruence.
  - rewrite lookup_insert_ne by exact Hne. eauto.
Qed.

Lemma fs_inv_forget (gX gY : option Z) (s : fs) :
  fs_inv lp tmpX tmpY gX gY s -> fs_inv lp tmpX tmpY None gY s.
Proof.
  intros (Hb & HtX & HtY & HmX & HmY). repeat split; try assumption;
    try apply (HmY i H); discriminate.
Qed.

(** Two links on the temporary file: the lock file is the other one. *)
Lemma fs_inv_two_links (gX gY : option Z) (s : fs) (i : Z) (n : inode) :
  names s !! tmpX = Some i -> inodes s !! i = Some n -> i_nlink n = 2 ->
  fs_inv lp tmpX tmpY gX gY s -> fs_inv lp tmpX tmpY (Some i) gY s.
Proof.
  intros Hn Hi Hl (Hb & HtX & HtY & HmX & HmY).
  repeat split; try assumption; try apply (HmY i0 H).
  - destruct (HtX i Hn) as (n' & Hi' & Ho & [[Hlp _]|[_ Hone]]).
    + congruence.
    + rewrite Hi in Hi'. injection Hi' as <-. lia.
  - destruct (HtX i Hn) as (n' & Hi' & Ho & _). injection H as <-. eauto.
Qed.

(** [open(tmpX, 'w')] on a name that does not exist. *)
Lemma fs_inv_create (gX gY : option Z) (s : fs) (t : Q) :
  names s !! tmpX = None ->
  fs_inv lp tmpX tmpY gX gY s ->
  fs_inv lp tmpX tmpY gX gY
    (mkFs (<[tmpX := next_ino s]> (names s))
          (<[next_ino s := mkInode "" t 1 tmpX]> (inodes s))
          (next_ino s + 1) (clock s) (faults s)).
Proof.
  intros Hno (Hb & HtX & HtY & HmX & HmY).
  assert (Hlp : forall i, names s !! lp = Some i -> i <> next_ino s).
  { intros i H. specialize (Hb _ _ H). lia. }
  unfold fs_inv, tmp_ok, may_hold. cbn [names inodes next_ino].
  repeat split.
  - intros p i. destruct (decide (tmpX = p)) as [<-|Hne].
    + rewrite lookup_insert_eq. intros [= <-]. lia.
    + rewrite lookup_insert_ne by exact Hne. intros H.
      specialize (Hb _ _ H). lia.
  - intros i. rewrite lookup_insert_eq. intros [= <-].
    rewrite lookup_insert_eq. eexists. split; [reflexivity|].
    split; [reflexivity|]. right. split; [|reflexivity].
    rewrite lookup_insert_ne by exact HXL. intros H. exact (Hlp _ H eq_refl).
  - intros i. rewrite lookup_insert_ne by exact HXY. intros H.
    destruct (HtY i H) as (n & Hi & Ho & Hl).
    specialize (Hb _ _ H).
    exists n. rewrite lookup_insert_ne by lia.
    rewrite lookup_insert_ne by exact HXL. auto.
  - rewrite lookup_insert_ne by exact HXL. apply (HmX i H).
  - destruct (HmX i H) as (Hl & n & Hi & Ho).
    exists n. rewrite lookup_insert_ne by (apply not_eq_sym, Hlp, Hl). auto.
  - rewrite lookup_insert_ne by exact HXL. apply (HmY i H).
  - destruct (HmY i H) as (Hl & n & Hi & Ho).
    exists n. rewrite lookup_insert_ne by (apply not_eq_sym, Hlp, Hl). auto.
Qed.

(** [os.link(tmpX, lp)] that takes effect. *)
Lemma fs_inv_link (gX gY : option Z) (s : fs) (i : Z) (n : inode) :
  names s !! tmpX = Some i -> names s !! lp = None ->
  inodes s !! i = Some n ->
  fs_inv lp tmpX tmpY gX gY s ->
  fs_inv lp tmpX tmpY gX gY
    (mkFs (<[lp := i]> (names s))
          (<[i := mkInode (i_data n) (i_mtime n) (i_nlink n + 1) (i_origin n)]>
             (inodes s))
          (next_ino s) (clock s) (faults s)).
Proof.
  intros Hn Hno Hi (Hb & HtX & HtY & HmX & HmY).
  unfold fs_inv, tmp_ok, may_hold. cbn [names inodes next_ino].
  destruct (HtX i Hn) as (n0 & Hi0 & Ho & Hl).
  rewrite Hi in Hi0. injection Hi0 as <-.
  destruct Hl as [[Hl _]|[_ Hone]]; [congruence|].
  repeat split.
  - intros p j. destruct (decide (lp = p)) as [<-|Hne].
    + rewrite lookup_insert_eq. intros [= <-]. exact (Hb _ _ Hn).
    + rewrite lookup_insert_ne by exact Hne. apply Hb.
  - intros j. rewrite lookup_insert_ne by (apply not_eq_sym, HXL).
    rewrite Hn. intros [= <-]. rewrite !lookup_insert_eq.
    eexists. split; [reflexivity|]. cbn. split; [exact Ho|].
    left. split; [reflexivity|lia].
  - intros j. rewrite lookup_insert_ne by (apply not_eq_sym, HYL). intros H.
    destruct (HtY j H) as (m & Hj & Hoj & Hlj).
    assert (Hij : i <> j) by (intros <-; congruence).
    exists m. rewrite lookup_insert_ne by exact Hij.
    split; [exact Hj|]. split; [exact Hoj|].
    right. rewrite lookup_insert_eq. split; [congruence|].
    destruct Hlj as [[Hlj _]|[_ Hlj]]; [congruence|exact Hlj].
  - destruct (HmX i0 H) as [Hl _]. congruence.
  - destruct (HmX i0 H) as [Hl _]. congruence.
  - destruct (HmY i0 H) as [Hl _]. congruence.
  - destruct (HmY i0 H) as [Hl _]. congruence.
Qed.

(** [os.unlink(tmpX)] that takes effect. *)
Lemma fs_inv_unlink_tmp (gX gY : option Z) (s : fs) (i : Z) (n : inode) :
  names s !! tmpX = Some i -> inodes s !! i = Some n ->
  fs_inv lp tmpX tmpY gX gY s ->
  fs_inv lp tmpX tmpY gX gY
    (mkFs (delete tmpX (names s))
          (<[i := mkInode (i_data n) (i_mtime n) (i_nlink n - 1) (i_origin n)]>
             (inodes s))
          (next_ino s) (clock s) (faults s)).
Proof.
  intros Hn Hi (Hb & HtX & HtY & HmX & HmY).
  unfold fs_inv, tmp_ok, may_hold. cbn [names inodes next_ino].
  destruct (HtX i Hn) as (n0 & Hi0 & Ho & _).
  rewrite Hi in Hi0. injection Hi0 as <-.
  assert (Hkeep : forall j m, inodes s !! j = Some m ->
            exists m', <[i := mkInode (i_data n) (i_mtime n) (i_nlink n - 1)
                              (i_origin n)]> (inodes s) !! j = Some m' /\
                       i_origin m' = i_origin m).
  { intros j m Hj. destruct (decide (i = j)) as [<-|Hne].
    - rewrite lookup_insert_eq. eexists. split; [reflexivity|]. cbn. congruence.
    - rewrite lookup_insert_ne by exact Hne. eauto. }
  repeat split.
  - intros p j H. apply lookup_delete_Some in H as [_ H]. exact (Hb _ _ H).
  - intros j. rewrite lookup_delete_eq. discriminate.
  - intros j. rewrite lookup_delete_ne by exact HXY. intros H.
    destruct (HtY j H) as (m & Hj & Hoj & Hlj).
    assert (Hij : i <> j) by (intros <-; congruence).
    exists m. rewrite lookup_insert_ne by exact Hij.
    rewrite lookup_delete_ne by exact HXL. auto.
  - rewrite lookup_delete_ne by exact HXL. apply (HmX i0 H).
  - destruct (HmX i0 H) as (_ & m & Hj & Hoj).
    destruct (Hkeep _ _ Hj) as (m' & Hm' & Hom'). exists m'. split; congruence.
  - rewrite lookup_delete_ne by exact HXL. apply (HmY i0 H).
  - destruct (HmY i0 H) as (_ & m & Hj & Hoj).
    destruct (Hkeep _ _ Hj) as (m' & Hm' & Hom'). exists m'. split; congruence.
Qed.

(** [os.unlink(lp)] by the engine that may hold the lock, taking effect. *)
Lemma fs_inv_unlink_lock (gX gY : option Z) (s : fs) (i : Z) (n : inode) :
  gX <> None ->
  names s !! lp = Some i -> inodes s !! i = Some n ->
  fs_inv lp tmpX tmpY gX gY s ->
  fs_inv lp tmpX tmpY None gY
    (mkFs (delete lp (names s))
          (<[i := mkInode (i_data n) (i_mtime n) (i_nlink n - 1) (i_origin n)]>
             (inodes s))
          (next_ino s) (clock s) (faults s)).
Proof.
  intros Hg Hn Hi (Hb & HtX & HtY & HmX & HmY).
  destruct gX as [i'|]; [|contradiction].
  destruct (HmX i' eq_refl) as (Hl & n0 & Hi0 & Ho).
  rewrite Hn in Hl. injection Hl as <-.
  rewrite Hi in Hi0. injection Hi0 as <-.
  unfold fs_inv, tmp_ok, may_hold. cbn [names inodes next_ino].
  repeat split.
  - intros p j H. apply lookup_delete_Some in H as [_ H]. exact (Hb _ _ H).
  - intros j. rewrite lookup_delete_ne by (apply not_eq_sym, HXL). intros H.
    destruct (HtX j H) as (m & Hj & Hoj & Hlj).
    rewrite lookup_delete_eq.
    destruct (decide (i = j)) as [<-|Hne].
    + rewrite lookup_insert_eq. eexists. split; [reflexivity|]. cbn.
      rewrite Hi in Hj. injection Hj as <-.
      split; [exact Hoj|]. right. split; [discriminate|].
      destruct Hlj as [[_ Hlj]|[Hlj _]]; [lia|congruence].
    + rewrite lookup_insert_ne by exact Hne. exists m.
      split; [exact Hj|]. split; [exact Hoj|]. right. split; [discriminate|].
      destruct Hlj as [[Hlj _]|[_ Hlj]]; [congruence|exact Hlj].
  - intros j. rewrite lookup_delete_ne by (apply not_eq_sym, HYL). intros H.
    destruct (HtY j H) as (m & Hj & Hoj & Hlj).
    assert (Hij : i <> j) by (intros <-; congruence).
    rewrite lookup_delete_eq, lookup_insert_ne by exact Hij.
    exists m. split; [exact Hj|]. split; [exact Hoj|]. right.
    split; [discriminate|].
    destruct Hlj as [[Hlj _]|[_ Hlj]]; [congruence|exact Hlj].
  - discriminate.
  - discriminate.
  - exfalso. destruct (HmY i0 H) as (Hl & m & Hj & Hoj). congruence.
  - exfalso. destruct (HmY i0 H) as (Hl & m & Hj & Hoj). congruence.
Qed.

Lemma eqb_tmp_lp : String.eqb tmpX lp = false.
Proof. apply String.eqb_neq. exact HXL. Qed.

(** A call of engine X that is served keeps the invariant, whether or not
    its reply gets through. *)
Lemma clean_preserves (who : ident) (gX gY : option Z) (c : syscall) (s : fs)
    (a' : ans c) :
  fs_inv lp tmpX tmpY gX gY s ->
  allowed tmpX lp gX c ->
  a' = (posix_clean who c s).1 \/ failure c = Some a' ->
  fs_inv lp tmpX tmpY (track tmpX lp gX c a') gY (posix_clean who c s).2.
Proof.
  intros Hinv Hal Ha.
  destruct c; cbn [posix_clean track allowed failure] in *;
    try exact Hinv.
  - (* open *)
    destruct m; [destruct (names s !! p); exact Hinv|].
    subst p. destruct (names s !! tmpX) as [i|] eqn:Hn.
    + destruct (inodes s !! i) as [n|] eqn:Hi; [|exact Hinv].
      cbn [snd]. apply (fs_inv_set_inode _ _ _ _ n); auto.
    + cbn [snd]. apply fs_inv_create; assumption.
  - (* write *)
    destruct (inodes s !! f) as [n|] eqn:Hi; [|exact Hinv].
    cbn [snd]. apply (fs_inv_set_inode _ _ _ _ n); auto.
  - (* read *)
    destruct (inodes s !! f); exact Hinv.
  - (* utime *)
    destruct (names s !! p) as [i|]; [|exact Hinv].
    destruct (inodes s !! i) as [n|] eqn:Hi; [|exact Hinv].
    cbn [snd]. apply (fs_inv_set_inode _ _ _ _ n); auto.
  - (* link *)
    destruct Hal as [-> ->].
    destruct (names s !! tmpX) as [i|] eqn:Hn; [|exact Hinv].
    destruct (names s !! lp) as [j|] eqn:Hl; [exact Hinv|].
    destruct (inodes s !! i) as [n|] eqn:Hi; [|exact Hinv].
    cbn [snd]. apply fs_inv_link; assumption.
  - (* unlink *)
    destruct Hal as [->|[-> Hg]].
    + rewrite eqb_tmp_lp.
      destruct (names s !! tmpX) as [i|] eqn:Hn; [|exact Hinv].
      destruct (inodes s !! i) as [n|] eqn:Hi; [|exact Hinv].
      cbn [snd]. apply fs_inv_unlink_tmp; assumption.
    + rewrite String.eqb_refl.
      destruct (names s !! lp) as [i|] eqn:Hn;
        [|exact (fs_inv_forget _ _ _ Hinv)].
      destruct (inodes s !! i) as [n|] eqn:Hi;
        [|exact (fs_inv_forget _ _ _ Hinv)].
      cbn [snd]. apply (fs_inv_unlink_lock gX); assumption.
  - (* stat *)
    assert (Hgen : forall s0 : fs,
              fs_inv lp tmpX tmpY gX gY s0 ->
              (forall st, a' = Ok st -> String.eqb p tmpX = true ->
                 ST_NLINK st = 2 ->
                 fs_inv lp tmpX tmpY (Some (ST_INO st)) gY s0) ->
              fs_inv lp tmpX tmpY
                match a' with
                | Ok st =>
                    if String.eqb p tmpX && (ST_NLINK st =? 2)
                    then Some (ST_INO st) else gX
                | Fail _ => gX
                end gY s0).
    { intros s0 H0 H1. destruct a' as [st|e]; [|exact H0].
      destruct (String.eqb p tmpX) eqn:Hp; [|exact H0].
      destruct (ST_NLINK st =? 2) eqn:Hk; [|exact H0].
      apply Z.eqb_eq in Hk. cbn [andb]. auto. }
    destruct (names s !! p) as [i|] eqn:Hn.
    + destruct (inodes s !! i) as [n|] eqn:Hi; cbn [fst snd] in *.
      * apply Hgen; [exact Hinv|]. intros st -> Hp Hk.
        apply String.eqb_eq in Hp. subst p.
        destruct Ha as [Ha|Ha]; [|discriminate Ha].
        injection Ha as ->. cbn [ST_INO ST_NLINK] in *.
        apply (fs_inv_two_links gX gY s i n); assumption.
      * apply Hgen; [exact Hinv|]. intros st -> _ _.
        destruct Ha as [Ha|Ha]; discriminate Ha.
    + cbn [fst snd] in *. apply Hgen; [exact Hinv|]. intros st -> _ _.
      destruct Ha as [Ha|Ha]; discriminate Ha.
Qed.

(** A call of engine X that is not served. *)
Lemma dropped_preserves (gX gY : option Z) (c : syscall) (s : fs)
    (a' : ans c) :
  fs_inv lp tmpX tmpY gX gY s ->
  failure c = Some a' ->
  fs_inv lp tmpX tmpY (track tmpX lp gX c a') gY s.
Proof.
  intros Hinv Ha.
  destruct c; cbn [track failure] in *; try exact Hinv; try discriminate Ha.
  - destruct (String.eqb p lp); [exact (fs_inv_forget _ _ _ Hinv)|exact Hinv].
  - injection Ha as <-. exact Hinv.
Qed.

Lemma handle_preserves (who : ident) (gX gY : option Z) (c : syscall)
    (s : fs) :
  fs_inv lp tmpX tmpY gX gY s ->
  allowed tmpX lp gX c ->
  fs_inv lp tmpX tmpY (track tmpX lp gX c (posix_handle who c s).1) gY
    (posix_handle who c s).2.
Proof.
  intros Hinv Hal. unfold posix_handle.
  destruct (failure c) as [f|] eqn:Hf.
  2: { apply clean_preserves; auto. }
  destruct (faults s) as [|[| |] l] eqn:Hfl.
  - apply clean_preserves; auto.
  - apply clean_preserves; auto.
  - cbn [fst snd]. apply clean_preserves; auto.
  - cbn [fst snd]. apply dropped_preserves; auto.
Qed.

(** Less to hold is easier to justify. *)
Lemma fs_inv_mono (gX gX' gY : option Z) (s : fs) :
  (forall i, gX' = Some i -> gX = Some i) ->
  fs_inv lp tmpX tmpY gX gY s -> fs_inv lp tmpX tmpY gX' gY s.
Proof.
  intros Hsub (Hb & HtX & HtY & HmX & HmY).
  repeat split; try assumption; try apply (HmY i H);
    apply (HmX i (Hsub i H)).
Qed.

End Shared.

Lemma posix_answers_as (who : ident) (c : syscall) (s : fs) :
  answers_as who c (posix_handle who c s).1.
Proof. destruct c; try exact I; reflexivity. Qed.

Section Mutex.

Variable str_float : Q -> string.
Variable lp : string.

(** A step of one engine keeps its own invariant and the invariant of the
    filesystem. *)
Lemma thread_step_preserves (who : ident) (tmpY : string)
    (gX gY : option Z) (t t' : thread) (s s' : fs) :
  tmp_of who lp <> tmpY -> tmpY <> lp ->
  thread_inv who lp (tmp_of who lp) gX t ->
  fs_inv lp (tmp_of who lp) tmpY gX gY s ->
  thread_step str_float who (t, s) (t', s') ->
  exists gX',
    thread_inv who lp (tmp_of who lp) gX' t' /\
    fs_inv lp (tmp_of who lp) tmpY gX' gY s'.
Proof.
  intros HXY HYL Ht Hfs Hstep.
  inversion Hstep as [self last o s0|o c k s0|o r self s0]; subst.
  - destruct Ht as (Hlp & Hg & _). exists (lock_ino self). split.
    + cbn [thread_inv]. rewrite <- Hlp. apply start_disciplined.
    + revert Hfs. apply fs_inv_mono. exact Hg.
  - destruct Ht as (Hal & Hk).
    exists (track (tmp_of who lp) lp gX c (posix_handle who c s).1). split.
    + apply Hk, posix_answers_as.
    + apply handle_preserves; try assumption.
      apply tmp_of_neq_lockpath.
  - destruct Ht as (Hlp & Hg & Hv). exists gX. split; [|exact Hfs].
    cbn [thread_inv fst snd] in *. split; [exact Hlp|]. split; [exact Hg|].
    destruct o; try exact I. destruct r as [v|e]; [|exact I].
    apply Hv; reflexivity.
Qed.

Variables idA idB : ident.
Hypothesis Hdiff : tmp_of idA lp <> tmp_of idB lp.

Lemma initial_inv (st : system) :
  initial lp idA idB st -> system_inv lp idA idB st.
Proof.
  intros (selfA & selfB & s & -> & HA & HB & HlA & HlB & Hb & HnA & HnB).
  exists None, None. cbn [fst snd thread_inv].
  repeat split; try assumption; try exact I.
  - unfold lock_ino. rewrite HlA. discriminate.
  - unfold lock_ino. rewrite HlB. discriminate.
  - intros i H. congruence.
  - intros i H. congruence.
  - discriminate.
  - discriminate.
  - discriminate.
  - discriminate.
Qed.

Lemma system_step_inv (st st' : system) :
  system_inv lp idA idB st ->
  system_step str_float idA idB st st' ->
  system_inv lp idA idB st'.
Proof.
  intros (gA & gB & HA & HB & Hfs) Hstep.
  inversion Hstep as [tA tA' tB s s' H|tA tB tB' s s' H]; subst;
    cbn [fst snd] in *.
  - destruct (thread_step_preserves idA (tmp_of idB lp) gA gB tA tA' s s')
      as (gA' & HA' & Hfs'); try assumption.
    { apply tmp_of_neq_lockpath. }
    exists gA', gB. auto.
  - destruct (thread_step_preserves idB (tmp_of idA lp) gB gA tB tB' s s')
      as (gB' & HB' & Hfs'); try assumption.
    { apply not_eq_sym, Hdiff. }
    { apply tmp_of_neq_lockpath. }
    { apply fs_inv_sym. exact Hfs. }
    exists gA, gB'. split; [exact HA|]. split; [exact HB'|].
    apply fs_inv_sym. exact Hfs'.
Qed.

Lemma reachable_inv (st0 st : system) :
  initial lp idA idB st0 ->
  rtc (system_step str_float idA idB) st0 st ->
  system_inv lp idA idB st.
Proof.
  intros Hinit Hrtc. revert st Hrtc. apply rtc_ind_r.
  - apply initial_inv, Hinit.
  - intros st1 st2 _ Hstep IH. exact (system_step_inv st1 st2 IH Hstep).
Qed.

End Mutex.

(** C9.  Two engines with different temporary files work on the same lock
    file; each is in a process of its own and does, in any order and any
    number of times, the calls of the protocol other than the takeover
    ([_trylock], [is_locked], [is_stale], [refresh], [release]); their system
    calls interleave in any way, and any I/O call may fail, with or without
    effect.  Started with no cached lock and no temporary file, they never
    both have a cached lock; and while one has, the other cannot have just
    returned a true value from [_trylock]. *)
Theorem mutual_exclusion (str_float : Q -> string) (lp : string)
    (idA idB : ident) (st0 st : system) :
  tmp_of idA lp <> tmp_of idB lp ->
  initial lp idA idB st0 ->
  rtc (system_step str_float idA idB) st0 st ->
  ~ (holds st.1.1 /\ holds st.1.2) /\
  (holds st.1.1 -> ~ just_acquired st.1.2) /\
  (holds st.1.2 -> ~ just_acquired st.1.1).
Proof.
  intros Hdiff Hinit Hrtc.
  destruct (reachable_inv str_float lp idA idB Hdiff st0 st Hinit Hrtc)
    as (gA & gB & HA & HB & (_ & _ & _ & HmA & HmB)).
  destruct st as [[tA tB] s]. cbn [fst snd] in *.
  assert (Hboth : ~ (holds tA /\ holds tB)).
  { intros [HhA HhB].
    destruct tA as [selfA lastA|]; [|exact HhA].
    destruct tB as [selfB lastB|]; [|exact HhB].
    cbn [holds thread_inv] in *.
    destruct HA as (_ & HgA & _). destruct HB as (_ & HgB & _).
    unfold lock_ino in *.
    destruct (_lock selfA) as [[i d]|]; [|contradiction].
    destruct (_lock selfB) as [[j e]|]; [|contradiction].
    destruct (HmA i (HgA i eq_refl)) as (HlA & nA & HiA & HoA).
    destruct (HmB j (HgB j eq_refl)) as (HlB & nB & HiB & HoB).
    apply Hdiff. congruence. }
  assert (Hacq : forall who g t, thread_inv who lp (tmp_of who lp) g t ->
                                 just_acquired t -> holds t).
  { intros who g t Ht Hj. destruct t as [self [[[] [v|e]]|]|]; try contradiction.
    cbn [just_acquired holds thread_inv] in *.
    destruct Ht as (_ & _ & Hv). exact (Hv Hj). }
  split; [exact Hboth|]. split.
  - intros Hh Hj. apply Hboth. split; [exact Hh|]. exact (Hacq _ _ _ HB Hj).
  - intros Hh Hj. apply Hboth. split; [|exact Hh]. exact (Hacq _ _ _ HA Hj).
Qed.

(** *** A run of the two engines *)

Section Runs.

Variable str_float : Q -> string.

(** A call run in one go is a sequence of steps of the engine. *)
Lemma run_thread_steps (who : ident) (o : op)
    (p : prog (result pyval * DotLock)) (s : fs) :
  rtc (thread_step str_float who) (Calling o p, s)
    (Calling o (Ret (@run (Posix who) _ p s).1.1), (@run (Posix who) _ p s).1.2).
Proof.
  revert s. induction p as [r|c k IH]; intros s.
  - apply rtc_refl.
  - eapply rtc_l; [apply step_call|].
    specialize (IH (posix_handle who c s).1 (posix_handle who c s).2).
    cbn [run handle Posix].
    destruct (posix_handle who c s) as [a s1]. cbn [fst snd] in *.
    destruct (@run (Posix who) _ (k a) s1) as [[r s2] l]. exact IH.
Qed.

Lemma call_thread_steps (who : ident) (o : op) (self : DotLock)
    (last : option (op * result pyval)) (s : fs) :
  let r := @run (Posix who) _ (start str_float o self) s in
  rtc (thread_step str_float who) (Idle self last, s)
    (Idle r.1.1.2 (Some (o, r.1.1.1)), r.1.2).
Proof.
  cbv zeta.
  pose proof (run_thread_steps who o (start str_float o self) s) as H.
  destruct (@run (Posix who) _ (start str_float o self) s)
    as [[[r self'] s'] l].
  cbn [fst snd] in *.
  eapply rtc_l; [apply step_start|].
  eapply rtc_r; [exact H|]. apply step_return.
Qed.

Lemma steps_A (idA idB : ident) (tA tA' tB : thread) (s s' : fs) :
  rtc (thread_step str_float idA) (tA, s) (tA', s') ->
  rtc (system_step str_float idA idB) (tA, tB, s) (tA', tB, s').
Proof.
  intros H. remember (tA, s) as x eqn:Hx. remember (tA', s') as y eqn:Hy.
  revert tA s Hx. induction H as [x|x [t1 s1] y Hstep _ IH]; intros tA s ->.
  - injection Hy as -> ->. apply rtc_refl.
  - eapply rtc_l; [apply step_A; exact Hstep|]. apply IH; auto.
Qed.

Lemma steps_B (idA idB : ident) (tA tB tB' : thread) (s s' : fs) :
  rtc (thread_step str_float idB) (tB, s) (tB', s') ->
  rtc (system_step str_float idA idB) (tA, tB, s) (tA, tB', s').
Proof.
  intros H. remember (tB, s) as x eqn:Hx. remember (tB', s') as y eqn:Hy.
  revert tB s Hx. induction H as [x|x [t1 s1] y Hstep _ IH]; intros tB s ->.
  - injection Hy as -> ->. apply rtc_refl.
  - eapply rtc_l; [apply step_B; exact Hstep|]. apply IH; auto.
Qed.

End Runs.

(** Alice takes the lock on an empty filesystem; Bob then tries and fails. *)
Lemma mutual_exclusion_witness :
  let a1 := @run (Posix alice) _ (start str_floor OpTrylock demo) empty_fs in
  let b1 := @run (Posix bob) _ (start str_floor OpTrylock demo) a1.1.2 in
  let st : system :=
    (Idle a1.1.1.2 (Some (OpTrylock, a1.1.1.1)),
     Idle b1.1.1.2 (Some (OpTrylock, b1.1.1.1)), b1.1.2) in
  tmp_of alice (lockpath demo) <> tmp_of bob (lockpath demo) /\
  initial (lockpath demo) alice bob (Idle demo None, Idle demo None, empty_fs) /\
  rtc (system_step str_floor alice bob)
    (Idle demo None, Idle demo None, empty_fs) st /\
  holds st.1.1 /\
  ~ just_acquired st.1.2.
Proof.
  intros a1 b1 st.
  assert (Hdiff : tmp_of alice (lockpath demo) <> tmp_of bob (lockpath demo)).
  { vm_compute. discriminate. }
  assert (Hinit : initial (lockpath demo) alice bob
                    (Idle demo None, Idle demo None, empty_fs)).
  { exists demo, demo, empty_fs. repeat split.
    intros p i H. change (names empty_fs) with (∅ : gmap string Z) in H.
    rewrite lookup_empty in H. discriminate H. }
  assert (Hrtc : rtc (system_step str_floor alice bob)
                   (Idle demo None, Idle demo None, empty_fs) st).
  { eapply rtc_trans.
    - apply steps_A. apply call_thread_steps.
    - apply steps_B. apply call_thread_steps. }
  assert (Hholds : holds st.1.1).
  { vm_compute. discriminate. }
  split; [exact Hdiff|]. split; [exact Hinit|]. split; [exact Hrtc|].
  split; [exact Hholds|].
  exact (proj1 (proj2 (mutual_exclusion str_floor (lockpath demo) alice bob
                         _ st Hdiff Hinit Hrtc)) Hholds).
Defined.

(** The lock goes from one engine to the other: Alice takes it, Bob fails to
    take it, Alice releases it, Bob takes it. *)
Example handover_between_two_engines :
  let a1 := @run (Posix alice) _ (_trylock str_floor demo) empty_fs in
  let b1 := @run (Posix bob) _ (_trylock str_floor demo) a1.1.2 in
  let a2 := @run (Posix alice) _ (release a1.1.1.2) b1.1.2 in
  let b2 := @run (Posix bob) _ (_trylock str_floor b1.1.1.2) a2.1.2 in
  a1.1.1.1 = Normal (PyBool true) /\
  b1.1.1.1 = Normal (PyBool false) /\
  a2.1.1 = (Normal tt, demo) /\
  b2.1.1.1 = Normal (PyBool true) /\
  names b2.1.2 !! tmp_of alice (lockpath demo) = None /\
  names b2.1.2 !! tmp_of bob (lockpath demo) = None.
Proof. vm_compute. repeat split. Qed.

(** ** Further properties of the module *)

(** *** The adapter functions, call by call *)

Section AdapterCalls.

Context {E : Env}.

(** X1.  [writefile] opens the file for writing first.  When [open] fails,
    nothing else is called and the error leaves [writefile].  When [open]
    succeeds the file is always closed, also after a failed write; the data
    are written in one call, and not at all when they are empty (the file is
    still created or truncated).  A failure of [close] leaves [writefile]
    and hides a failure of the write; otherwise a failure of the write
    does. *)
Theorem writefile_closes_what_it_opens (p data : string) (w : world E) :
  let r := run (writefile p data) w in
  exists o,
    match o with
    | Fail e =>
        r.2 = [(os_open p ModeW, AFd (Fail e))] /\
        r.1.1 = Raised (IOFailure e)
    | Ok f =>
        exists c,
          if nonempty data
          then exists x,
                 r.2 = [(os_open p ModeW, AFd (Ok f));
                        (file_write f data, AUnit x);
                        (file_close f, AUnit c)] /\
                 r.1.1 = match c with
                         | Fail e => Raised (IOFailure e)
                         | Ok _ => of_io x
                         end
          else r.2 = [(os_open p ModeW, AFd (Ok f)); (file_close f, AUnit c)] /\
               r.1.1 = of_io c
    end.
Proof.
  cbv zeta. unfold writefile. destruct (nonempty data) eqn:Hd; run_all.
  all: cbn [fst snd reply_of]; tidy.
  all: first [ eexists (Ok _); eexists; try eexists; split; reflexivity
             | eexists (Fail _); split; reflexivity ].
Qed.

(** X2.  [readfile] returns the content exactly when the open, the read and
    the close all succeed, and [None] in every other case: also when the
    data were read and only the close failed.  A file that was opened is
    closed as the last call, and [readfile] makes no call that changes
    anything. *)
Theorem readfile_spec (p : string) (w : world E) :
  let r := run (readfile p) w in
  (forall d, r.1.1 = Normal (Some d) <->
     exists f, r.2 = [(os_open p ModeR, AFd (Ok f));
                      (file_read f, AStr (Ok d));
                      (file_close f, AUnit (Ok tt))]) /\
  (r.1.1 = Normal None \/ exists d, r.1.1 = Normal (Some d)) /\
  (forall f, In (os_open p ModeR, AFd (Ok f)) r.2 ->
     exists pre a, r.2 = (pre ++ [(file_close f, AUnit a)])%list) /\
  forallb readonly (calls r.2) = true.
Proof.
  cbv zeta. run_all; cbn [fst snd reply_of]; tidy.
  all: repeat split; intros; eauto.
  all: try match goal with H : exists _, _ |- _ => destruct H end.
  all: try discriminate; try congruence.
  all: try (in_log H).
  all: try (eexists [_; _], _; reflexivity).
  all: try (eexists; reflexivity).
Qed.

End AdapterCalls.

(** *** The cached lock *)

Lemma DotLock_del_unfold (self : DotLock) : DotLock_del self = release self.
Proof.
  unfold DotLock_del, m_bind, get. cbn [pbind fst snd].
  destruct (_lock self) eqn:Hl; [reflexivity|].
  unfold release, m_bind, get. cbn [pbind fst snd]. rewrite Hl. reflexivity.
Qed.

Section Cache.

Context {E : Env}.

(** X3.  [is_locked] never raises.  It answers [True] exactly when there is
    a cached lock, the stat of the lock file succeeds with the cached inode
    number, and [readfile] of the lock file gives the cached data.  A [True]
    answer leaves [self] as it is; a [False] answer sets [_lock] to
    [None]. *)
Theorem is_locked_iff (self : DotLock) (w : world E) :
  let r := run (is_locked self) w in
  let st := handle E (os_stat (lockpath self)) w in
  exists b : bool,
    r.1.1.1 = Normal b /\
    (b = true <->
     exists ino data s,
       _lock self = Some (ino, data) /\ st.1 = Ok s /\ ST_INO s = ino /\
       (run (readfile (lockpath self)) st.2).1.1 = Normal (Some data)) /\
    r.1.1.2 = (if b then self else set_lock None self).
Proof.
  cbv zeta. crunch.
  all: cbn [fst snd]; tidy.
  all: eexists; split; [reflexivity|]; split; [split|].
  all: try reflexivity.
  all: try (symmetry; apply set_lock_same; assumption).
  all: try (intros H; discriminate H).
  all: try (intros _; do 3 eexists; repeat split; reflexivity).
  all: intros (ino' & data' & s' & Hl' & Hs' & Hi' & Hr'); exfalso.
  all: try discriminate.
  all: tidy; try congruence.

Qed.

(** X4.  Without a cached lock [is_locked] answers [False] without a call.
    With one, when the stat of the lock file fails or shows another inode,
    it answers [False] after that one stat: the lock file is not opened.
    After a [False] answer the cached lock is gone, so every later
    [is_locked] answers [False] without a call, whatever has become of the
    lock file. *)
Theorem is_locked_forgets_a_lost_lock (self : DotLock) (w : world E) :
  let r := run (is_locked self) w in
  let st := handle E (os_stat (lockpath self)) w in
  (_lock self = None -> r = ((Normal false, self), w, [])) /\
  (forall ino data,
     _lock self = Some (ino, data) ->
     match st.1 with
     | Ok s => ST_INO s <> ino
     | Fail _ => True
     end ->
     r = ((Normal false, set_lock None self), st.2,
          [(os_stat (lockpath self), AStat st.1)])) /\
  (r.1.1.1 = Normal false ->
   _lock r.1.1.2 = None /\
   forall w' : world E,
     run (is_locked r.1.1.2) w' = ((Normal false, r.1.1.2), w', [])).
Proof.
  cbv zeta.
  assert (Hnone : forall s0 (w0 : world E), _lock s0 = None ->
            run (is_locked s0) w0 = ((Normal false, s0), w0, [])).
  { intros s0 w0 H0. unfold is_locked, m_bind, get. cbn [pbind fst snd].
    rewrite H0. reflexivity. }
  split; [apply Hnone|].
  destruct (is_locked_spec self w) as (b & Hb & Hrest).
  split.
  - intros ino data Hl. clear Hb Hrest. crunch.
    all: cbn [fst snd reply_of]; tidy; intros; try reflexivity.
    all: exfalso; congruence.
  - rewrite Hb. intros [= ->]. destruct Hrest as [-> _].
    split; [reflexivity|]. intros w'. apply Hnone. reflexivity.
Qed.

(** X5.  An engine fresh from [DotLock(path, check_func)] holds nothing:
    [is_locked] is [False], [release] and [__del__] do nothing, [refresh]
    raises [DotLockError], all without a call, and [acquire] goes straight
    to its polling loop. *)
Theorem fresh_engine_is_unlocked (p : string) (cf : option check_id)
    (w : world E) :
  let self := DotLock_init p cf in
  run (is_locked self) w = ((Normal false, self), w, []) /\
  run (release self) w = ((Normal tt, self), w, []) /\
  run (DotLock_del self) w = ((Normal tt, self), w, []) /\
  run (refresh self) w = ((Raised (DotLockError "Not locked"), self), w, []) /\
  forall str_float fuel max_attempts,
    run (acquire str_float fuel max_attempts self) w =
    run (acquire_loop str_float fuel max_attempts 0 self) w.
Proof. cbv zeta. repeat split. Qed.

(** X6.  [__del__] is [release]: the two make the same calls with the same
    outcome in every environment (the test [_lock is not None] of [__del__]
    is made again by [release]).  So [__del__] never raises, leaves [_lock]
    at [None], and does nothing for an engine without a cached lock. *)
Theorem del_releases (self : DotLock) (w : world E) :
  let r := run (DotLock_del self) w in
  r = run (release self) w /\
  r.1.1.1 = Normal tt /\
  r.1.1.2 = set_lock None self /\
  (_lock self = None -> r.2 = []).
Proof.
  cbv zeta. rewrite DotLock_del_unfold.
  destruct (release_cases self w) as [[Hl ->]|[(s & f & d & w1 & Hl & _ & ->)|
                                             (w1 & l & Hl & _ & ->)]];
    cbn [fst snd]; repeat split; try congruence.
  symmetry. apply set_lock_same. exact Hl.
Qed.

End Cache.

(** *** What [_trylock] and [_hijacklock] call *)

Lemma fmt_locktemp_neq_lockpath (lp h : string) (pid tid : Z) :
  fmt_locktemp lp h pid tid <> lp.
Proof.
  unfold fmt_locktemp. intros H.
  apply (f_equal String.length) in H.
  rewrite !string_length_app in H. cbn in H. lia.
Qed.

Section TrylockCalls.

Context {E : Env}.
Variable str_float : Q -> string.

(** X7.  A [_trylock] that returns has called [os.unlink] on its temporary
    file as its last call, whatever the link and the stat gave.  A
    [_trylock] that raises has failed in [writefile]: the exception is an
    I/O error, [self] is unchanged, and no link, stat or unlink was made, so
    a temporary file that could be created and not written stays behind. *)
Theorem trylock_removes_its_temp_file (self : DotLock) (w : world E) :
  let a1 := handle E socket_gethostname w in
  let a2 := handle E os_getpid a1.2 in
  let a3 := handle E thread_get_ident a2.2 in
  let tmp := fmt_locktemp (lockpath self) a1.1 a2.1 (tid_of a3.1) in
  let r := run (_trylock str_float self) w in
  (forall v, r.1.1.1 = Normal v ->
     exists pre a, r.2 = (pre ++ [(os_unlink tmp, AUnit a)])%list) /\
  (forall e, r.1.1.1 = Raised e ->
     r.1.1.2 = self /\
     (exists err, e = IOFailure err) /\
     forall c, In c (calls r.2) ->
       match c with
       | os_link _ _ | os_stat _ | os_unlink _ => False
       | _ => True
       end).
Proof.
  cbv zeta. crunch.
  all: cbn [fst snd reply_of calls map]; tidy.
  all: split; [intros v Hv; try discriminate Hv|intros e' He; try discriminate He].
  all: try (eexists (_ :: _ :: _ :: _ :: _ :: _ :: _ :: _ :: _ :: _ :: []), _;
            reflexivity).
  all: try (eexists (_ :: _ :: _ :: _ :: _ :: _ :: _ :: _ :: _ :: []), _;
            reflexivity).
  all: try (eexists (_ :: _ :: _ :: _ :: _ :: _ :: _ :: _ :: []), _;
            reflexivity).
  all: try (eexists (_ :: _ :: _ :: _ :: _ :: _ :: _ :: []), _;
            reflexivity).
  all: try (injection He as <-; split; [reflexivity|];
            split; [eexists; reflexivity|];
            intros c Hc; cbn [In] in Hc;
            repeat (destruct Hc as [<-|Hc]; [exact I|]); destruct Hc).
Qed.

(** X8.  [_trylock] works on its temporary file only: it is the one file it
    opens (for writing), stats and unlinks, and the source of its one link,
    whose destination is the lock file.  The temporary file is never the
    lock file.  [_trylock] reads no file, sets no time, does not sleep and
    does not call [check_func]. *)
Theorem trylock_touches_only_its_temp_file (self : DotLock) (w : world E) :
  let a1 := handle E socket_gethostname w in
  let a2 := handle E os_getpid a1.2 in
  let a3 := handle E thread_get_ident a2.2 in
  let tmp := fmt_locktemp (lockpath self) a1.1 a2.1 (tid_of a3.1) in
  let r := run (_trylock str_float self) w in
  tmp <> lockpath self /\
  forall c, In c (calls r.2) ->
    match c with
    | os_open p m => p = tmp /\ m = ModeW
    | os_link src dst => src = tmp /\ dst = lockpath self
    | os_unlink p => p = tmp
    | os_stat p => p = tmp
    | os_utime _ _ _ | file_read _ | time_sleep _ | call_check_func _ _ => False
    | _ => True
    end.
Proof.
  cbv zeta. split; [apply fmt_locktemp_neq_lockpath|].
  crunch.
  all: cbn [fst snd reply_of calls map]; tidy.
  all: intros c Hc; cbn [In] in Hc;
    repeat (destruct Hc as [<-|Hc]; [first [exact I | split; reflexivity | reflexivity]|]);
    destruct Hc.
Qed.

(** X9.  Whenever the stat of the temporary file succeeds, won or lost,
    [_trylock] reads the clock right after it and, with
    [skew = now - mtime], stores [skew] when [abs(skew) > 1] and keeps the
    old value otherwise; it returns the boolean [_lock is not None], and
    with a link count other than 2 it leaves [_lock] as it was.  When the
    stat fails it returns [None] and leaves [self] as it was. *)
Theorem trylock_skew_from_any_attempt (self : DotLock) (w : world E) :
  let r := run (_trylock str_float self) w in
  (forall tmp s, In (os_stat tmp, AStat (Ok s)) r.2 ->
     exists now pre post,
       r.2 = (pre ++ (os_stat tmp, AStat (Ok s))
                  :: (time_time, ATime now) :: post)%list /\
       let skew := (now - inject_Z (ST_MTIME s))%Q in
       ((1 < Qabs skew)%Q -> _skew r.1.1.2 = skew) /\
       (~ (1 < Qabs skew)%Q -> _skew r.1.1.2 = _skew self) /\
       r.1.1.1 = Normal (PyBool (is_not_none (_lock r.1.1.2))) /\
       (ST_NLINK s <> 2 -> _lock r.1.1.2 = _lock self)) /\
  (forall tmp e, In (os_stat tmp, AStat (Fail e)) r.2 ->
     r.1.1 = (Normal PyNone, self)).
Proof.
  cbv zeta. crunch.
  all: cbn [fst snd reply_of _skew _lock set_lock set_skew]; tidy.
  all: try match goal with
       | H : nonempty (fmt_lockdata _ _ _ _ _) = false |- _ =>
           rewrite fmt_lockdata_nonempty in H; discriminate H
       end.
  all: split; [intros tmp s Hs|intros tmp e' Hs]; in_log Hs.
  all: try reflexivity.
  all: eexists _, (_ :: _ :: _ :: _ :: _ :: _ :: _ :: _ :: []), _.
  all: (split; [reflexivity|]); cbv zeta.
  all: repeat split; intros; try reflexivity; try contradiction;
    try congruence.
Qed.

End TrylockCalls.

Section HijackCalls.

Context {E : Env}.
Variable str_float : Q -> string.

(** X10.  [_hijacklock] never unlinks, links or sets times: it only opens,
    writes, reads and stats the lock file, and sleeps [hijack_delay].  When
    it returns it has slept exactly once.  When it raises, the failure was
    an I/O error of [writefile], before the sleep, and [self] is
    unchanged. *)
Theorem hijack_only_overwrites (self : DotLock) (w : world E) :
  let r := run (_hijacklock str_float self) w in
  (forall c, In c (calls r.2) ->
     match c with
     | os_open p _ => p = lockpath self
     | os_stat p => p = lockpath self
     | time_sleep d => d = hijack_delay self
     | os_unlink _ | os_link _ _ | os_utime _ _ _ | call_check_func _ _ => False
     | _ => True
     end) /\
  (forall v, r.1.1.1 = Normal v -> sleeps r.2 = 1%nat) /\
  (forall e, r.1.1.1 = Raised e ->
     r.1.1.2 = self /\ sleeps r.2 = 0%nat /\ exists err, e = IOFailure err).
Proof.
  cbv zeta. crunch.
  all: cbn [fst snd reply_of calls map]; tidy.
  all: try match goal with
       | H : nonempty (fmt_lockdata _ _ _ _ _) = false |- _ =>
           rewrite fmt_lockdata_nonempty in H; discriminate H
       end.
  all: split; [intros c Hc; cbn [In] in Hc;
    repeat (destruct Hc as [<-|Hc]; [first [exact I | reflexivity]|]);
    destruct Hc|].
  all: split; [intros v Hv; try discriminate Hv; reflexivity|].
  all: intros e' He; try discriminate He.
  all: injection He as <-; split; [reflexivity|]; split;
    [reflexivity|eexists; reflexivity].
Qed.

End HijackCalls.

(** *** The outcome and the bounds of [acquire] *)

Section AcquireOutcome.

Context {E : Env}.
Variable str_float : Q -> string.

Lemma trylock_raise_keeps_self (self : DotLock) (w : world E) (e : exn) :
  (run (_trylock str_float self) w).1.1.1 = Raised e ->
  (run (_trylock str_float self) w).1.1.2 = self.
Proof. crunch; cbn [fst snd]; try discriminate; reflexivity. Qed.

Lemma hijack_outcome (self : DotLock) (w : world E) :
  match (run (_hijacklock str_float self) w).1.1.1 with
  | Normal true => _lock (run (_hijacklock str_float self) w).1.1.2 <> None
  | _ => (run (_hijacklock str_float self) w).1.1.2 = self
  end.
Proof. crunch; cbn [fst snd _lock set_lock]; try discriminate; reflexivity. Qed.

Lemma acquire_turn_lock (max_attempts : option Z) (i : Z)
    (self : DotLock) (w : world E) :
  _lock self = None ->
  let r := run (acquire_turn str_float max_attempts i self) w in
  match r.1.1.1 with
  | Normal (inr (PyBool true)) => _lock r.1.1.2 <> None
  | _ => _lock r.1.1.2 = None
  end.
Proof.
  intros Hnone. cbv zeta. unfold acquire_turn.
  rewrite run_m_bind.
  pose proof (trylock_raise_keeps_self self w) as Hraise.
  destruct (run (_trylock str_float self) w) as [[[r1 s1] w1] l1] eqn:Hrun.
  destruct (trylock_lock_aux str_float _ _ _ _ _ _ Hrun Hnone) as (_ & Hret & _).
  cbn [fst snd] in *. destruct r1 as [v|e].
  2: { rewrite (Hraise e eq_refl). exact Hnone. }
  specialize (Hret v eq_refl).
  destruct (truthy v).
  { msimpl. destruct (_lock s1); [discriminate|discriminate Hret]. }
  assert (Hs1 : _lock s1 = None)
    by (destruct (_lock s1); [discriminate Hret|reflexivity]).
  rewrite run_m_bind.
  destruct (is_stale_keeps_self s1 w1) as (b & Hb).
  destruct (run (is_stale s1) w1) as [[[r2 s2] w2] l2].
  cbn [fst snd] in *. injection Hb as -> ->.
  rewrite run_m_bind.
  pose proof (hijack_outcome s1 w2) as Hh.
  destruct b.
  - destruct (run (_hijacklock str_float s1) w2) as [[[r3 s3] w3] l3].
    cbn [fst snd] in *. destruct r3 as [[|]|e].
    + msimpl. exact Hh.
    + subst s3.
      destruct (attempts_given max_attempts && _); msimpl; [exact Hs1|].
      destruct (handle E (time_sleep (poll_interval s1)) w3) as [[] w4].
      cbn [fst snd]. exact Hs1.
    + subst s3. exact Hs1.
  - msimpl.
    destruct (attempts_given max_attempts && _); msimpl; [exact Hs1|].
    destruct (handle E (time_sleep (poll_interval s1)) w2) as [[] w4].
    cbn [fst snd]. exact Hs1.
Qed.

Lemma acquire_loop_lock (fuel : nat) (max_attempts : option Z) (i : Z)
    (self : DotLock) (w : world E) :
  _lock self = None ->
  let r := run (acquire_loop str_float fuel max_attempts i self) w in
  match r.1.1.1 with
  | Normal (Some (PyBool true)) => _lock r.1.1.2 <> None
  | _ => _lock r.1.1.2 = None
  end.
Proof.
  cbv zeta. revert i self w. induction fuel as [|n IH]; intros i self w Hnone;
    cbn [acquire_loop].
  { msimpl. exact Hnone. }
  rewrite run_m_bind.
  pose proof (acquire_turn_lock max_attempts i self w Hnone) as Hturn.
  cbv zeta in Hturn.
  destruct (run (acquire_turn str_float max_attempts i self) w)
    as [[[r s1] w1] l1].
  cbn [fst snd] in *. destruct r as [[i1|v]|e]; [| |exact Hturn].
  - specialize (IH i1 s1 w1 Hturn).
    destruct (run (acquire_loop str_float n max_attempts i1 s1) w1)
      as [[[r2 s2] w2] l2].
    cbn [fst snd] in *. exact IH.
  - msimpl. destruct v as [|[|]]; exact Hturn.
Qed.

(** X11.  The result of [acquire] tells whether the engine has a cached
    lock afterwards: [True] only with [_lock] set; [False], an exception,
    or a loop that is still running, only with [_lock] at [None]; and the
    bare [return] ([None]) only for a lock that was held and verified, with
    [self] unchanged. *)
Theorem acquire_result_matches_lock (fuel : nat) (max_attempts : option Z)
    (self : DotLock) (w : world E) :
  let r := run (acquire str_float fuel max_attempts self) w in
  match r.1.1.1 with
  | Normal (Some (PyBool true)) => _lock r.1.1.2 <> None
  | Normal (Some PyNone) => r.1.1.2 = self /\ _lock self <> None
  | _ => _lock r.1.1.2 = None
  end.
Proof.
  cbv zeta. unfold acquire. rewrite run_m_bind.
  destruct (is_locked_spec self w) as (b & Hb & Hrest).
  destruct (run (is_locked self) w) as [[[r1 s1] w1] l1].
  cbn [fst snd] in *. subst r1. destruct b.
  - msimpl. destruct Hrest as [-> (s & f & d & Hl & _)].
    split; [reflexivity|congruence].
  - destruct Hrest as [-> _].
    pose proof (acquire_loop_lock fuel max_attempts 0 (set_lock None self) w1
                  eq_refl) as Hloop.
    pose proof (acquire_loop_cases str_float fuel max_attempts 0
                  (set_lock None self) w1) as Hcases.
    cbv zeta in Hloop, Hcases.
    destruct (run (acquire_loop str_float fuel max_attempts 0
                     (set_lock None self)) w1) as [[[r2 s2] w2] l2].
    cbn [fst snd] in *. destruct r2 as [[[|[|]]|]|e]; try exact Hloop.
    contradiction.
Qed.

Lemma acquire_loop_more_fuel (fuel k : nat) (max_attempts : option Z) (i : Z)
    (self : DotLock) (w : world E) :
  (run (acquire_loop str_float fuel max_attempts i self) w).1.1.1
    <> Normal None ->
  run (acquire_loop str_float (fuel + k) max_attempts i self) w
  = run (acquire_loop str_float fuel max_attempts i self) w.
Proof.
  revert i self w. induction fuel as [|n IH]; intros i self w;
    cbn [acquire_loop Nat.add].
  { msimpl. intros H. contradiction H. reflexivity. }
  rewrite !run_m_bind.
  destruct (run (acquire_turn str_float max_attempts i self) w)
    as [[[r s1] w1] l1].
  cbn [fst snd]. destruct r as [[i1|v]|e]; try reflexivity.
  intros H. rewrite IH; [reflexivity|].
  destruct (run (acquire_loop str_float n max_attempts i1 s1) w1)
    as [[[r2 s2] w2] l2].
  exact H.
Qed.

(** X12.  With [max_attempts = n > 0], [acquire] returns or raises within
    [n] turns of its loop, in every environment: more turns than [n] are
    never used. *)
Theorem acquire_bounded_returns (fuel : nat) (n : Z)
    (self : DotLock) (w : world E) :
  0 < n -> (Z.to_nat n <= fuel)%nat ->
  let r := run (acquire str_float fuel (Some n) self) w in
  r.1.1.1 <> Normal None /\
  r = run (acquire str_float (Z.to_nat n) (Some n) self) w.
Proof.
  intros Hn Hfuel. cbv zeta.
  assert (Hg : attempts_given (Some n) = true).
  { cbn. apply negb_true_iff, Z.eqb_neq. lia. }
  assert (Hmin : forall s1 (w1 : world E),
            (run (acquire_loop str_float (Z.to_nat n) (Some n) 0 s1) w1).1.1.1
              <> Normal None).
  { intros s0 w0 H.
    pose proof (acquire_loop_cases str_float (Z.to_nat n) (Some n) 0 s0 w0)
      as Hc.
    cbv zeta in Hc. rewrite H in Hc. destruct Hc as [_ Hc].
    assert (Hpos : (0 < Z.to_nat n)%nat) by lia.
    specialize (Hc Hg Hpos). cbn in Hc. lia. }
  assert (Heq : run (acquire str_float fuel (Some n) self) w
                = run (acquire str_float (Z.to_nat n) (Some n) self) w).
  { unfold acquire. rewrite !run_m_bind.
    destruct (run (is_locked self) w) as [[[r1 s1] w1] l1].
    cbn [fst snd]. destruct r1 as [[|]|e]; try reflexivity.
    replace fuel with (Z.to_nat n + (fuel - Z.to_nat n))%nat by lia.
    rewrite acquire_loop_more_fuel; [reflexivity|apply Hmin]. }
  split; [|exact Heq].
  rewrite Heq. unfold acquire. rewrite run_m_bind.
  destruct (run (is_locked self) w) as [[[r1 s1] w1] l1].
  cbn [fst snd]. destruct r1 as [[|]|e]; try (msimpl; discriminate).
  specialize (Hmin s1 w1).
  destruct (run (acquire_loop str_float (Z.to_nat n) (Some n) 0 s1) w1)
    as [[[r2 s2] w2] l2].
  exact Hmin.
Qed.

End AcquireOutcome.

Section AcquireBounds.

Context {E : Env}.
Variable str_float : Q -> string.

Lemma acquire_turn_last (n : Z) (i : Z) (self : DotLock) (w : world E) :
  n <> 0 -> n <= i + 1 -> 0 <= i ->
  run (acquire_turn str_float (Some n) i self) w
  = run (acquire_turn str_float (Some (i + 1)) i self) w /\
  forall i', (run (acquire_turn str_float (Some n) i self) w).1.1.1
             <> Normal (inl i').
Proof.
  intros Hn Hle Hi.
  assert (Hg : attempts_given (Some n) = true).
  { cbn. apply negb_true_iff, Z.eqb_neq. exact Hn. }
  assert (Hg' : attempts_given (Some (i + 1)) = true).
  { cbn. apply negb_true_iff, Z.eqb_neq. lia. }
  assert (Hc : (i + 1 >=? n) = true) by (apply Z.geb_le; lia).
  assert (Hc' : (i + 1 >=? i + 1) = true) by (apply Z.geb_le; lia).
  unfold acquire_turn. rewrite !run_m_bind.
  destruct (run (_trylock str_float self) w) as [[[r1 s1] w1] l1].
  cbn [fst snd]. destruct r1 as [v|e]; [|split; [reflexivity|discriminate]].
  destruct (truthy v); [split; [reflexivity|msimpl; discriminate]|].
  rewrite !run_m_bind.
  destruct (run (is_stale s1) w1) as [[[r2 s2] w2] l2].
  cbn [fst snd]. destruct r2 as [b|e]; [|split; [reflexivity|discriminate]].
  rewrite !run_m_bind.
  destruct (run ((if b then _hijacklock str_float else m_ret false) s2) w2)
    as [[[r3 s3] w3] l3].
  cbn [fst snd]. destruct r3 as [h|e]; [|split; [reflexivity|discriminate]].
  destruct h; [split; [reflexivity|msimpl; discriminate]|].
  rewrite Hg, Hg'. cbn [default from_option id andb].
  rewrite Hc, Hc'. split; [reflexivity|]. msimpl. discriminate.
Qed.

(** X13.  A negative [max_attempts] is a true value and is reached by the
    counter at once: [acquire] behaves as with [max_attempts = 1], in every
    environment. *)
Theorem acquire_negative_attempts_is_one (fuel : nat) (n : Z)
    (self : DotLock) (w : world E) :
  n < 0 ->
  run (acquire str_float fuel (Some n) self) w
  = run (acquire str_float fuel (Some 1) self) w.
Proof.
  intros Hn. unfold acquire. rewrite !run_m_bind.
  destruct (run (is_locked self) w) as [[[r1 s1] w1] l1].
  cbn [fst snd]. destruct r1 as [[|]|e]; try reflexivity.
  destruct fuel as [|f]; [reflexivity|]. cbn [acquire_loop].
  rewrite !run_m_bind.
  destruct (acquire_turn_last n 0 s1 w1 ltac:(lia) ltac:(lia) ltac:(lia)) as [Heq Hno].
  change (0 + 1) with 1 in Heq. rewrite <- Heq.
  destruct (run (acquire_turn str_float (Some n) 0 s1) w1)
    as [[[r2 s2] w2] l2].
  cbn [fst snd] in *. destruct r2 as [[i1|v]|e]; try reflexivity.
  exfalso. exact (Hno i1 eq_refl).
Qed.

End AcquireBounds.

Lemma links_app (l1 l2 : list entry) :
  links (l1 ++ l2) = (links l1 + links l2)%nat.
Proof.
  unfold links, calls. rewrite map_app, List.filter_app, length_app.
  reflexivity.
Qed.

Lemma busy_turn_bounded (str_float : Q -> string) (n i : Z) :
  n <> 0 ->
  exists l,
    @run Busy _ (acquire_turn str_float (Some n) i demo) tt
    = ((Normal (if i + 1 >=? n then inr (PyBool false) else inl (i + 1)), demo),
       tt, l) /\
    sleeps l = (if i + 1 >=? n then 0 else 1)%nat /\
    links l = 1%nat.
Proof.
  intros Hn.
  assert (Hg : attempts_given (Some n) = true).
  { cbn. apply negb_true_iff, Z.eqb_neq. exact Hn. }
  unfold acquire_turn. rewrite run_m_bind.
  change (@run Busy _ (_trylock str_float demo) tt) with
    (@pair _ (list entry) (@pair _ (world Busy) (Normal (PyBool false), demo) tt)
       (@run Busy _ (_trylock str_float demo) tt).2).
  cbn [fst snd truthy].
  rewrite run_m_bind.
  change (@run Busy _ (is_stale demo) tt) with
    (@pair _ (list entry) (@pair _ (world Busy) (Normal false, demo) tt)
       (@run Busy _ (is_stale demo) tt).2).
  cbn [fst snd]. msimpl. rewrite Hg. cbn [andb default from_option id].
  destruct (i + 1 >=? n); msimpl; cbn [fst snd].
  - eexists. split; [reflexivity|]. split; reflexivity.
  - eexists. split; [reflexivity|]. split; reflexivity.
Qed.

Lemma busy_loop_bounded (str_float : Q -> string) (k fuel : nat) (i : Z) :
  0 <= i -> (S k <= fuel)%nat ->
  exists l,
    @run Busy _ (acquire_loop str_float fuel (Some (i + Z.of_nat (S k))) i demo) tt
    = ((Normal (Some (PyBool false)), demo), tt, l) /\
    sleeps l = k /\ links l = S k.
Proof.
  revert fuel i. induction k as [|k IH]; intros fuel i Hi Hfuel.
  - destruct fuel as [|f]; [lia|]. cbn [acquire_loop]. rewrite run_m_bind.
    destruct (busy_turn_bounded str_float (i + Z.of_nat 1) i ltac:(lia))
      as (l & -> & Hs & Hl).
    replace (i + 1 >=? i + Z.of_nat 1) with true in *
      by (symmetry; apply Z.geb_le; lia).
    cbn [fst snd]. msimpl. eexists. split; [reflexivity|].
    rewrite app_nil_r. split; assumption.
  - destruct fuel as [|f]; [lia|]. cbn [acquire_loop]. rewrite run_m_bind.
    destruct (busy_turn_bounded str_float (i + Z.of_nat (S (S k))) i ltac:(lia))
      as (l & -> & Hs & Hl).
    replace (i + 1 >=? i + Z.of_nat (S (S k))) with false in *
      by (symmetry; rewrite Z.geb_leb; apply Z.leb_gt; lia).
    cbn [fst snd].
    destruct (IH f (i + 1) ltac:(lia) ltac:(lia)) as (l2 & Hrun & Hs2 & Hl2).
    replace (i + 1 + Z.of_nat (S k)) with (i + Z.of_nat (S (S k))) in Hrun
      by lia.
    rewrite Hrun. eexists. split; [reflexivity|].
    rewrite sleeps_app, links_app. lia.
Qed.

(** X14.  On a lock that another holder keeps fresh, a fresh engine's
    [acquire(max_attempts = n)] with [n > 0] returns [False] after exactly
    [n] link attempts and [n - 1] sleeps, and leaves the engine as it
    was. *)
Theorem acquire_gives_up_on_a_busy_lock (str_float : Q -> string)
    (n : Z) (fuel : nat) :
  0 < n -> (Z.to_nat n <= fuel)%nat ->
  exists l,
    @run Busy _ (acquire str_float fuel (Some n) demo) tt
    = ((Normal (Some (PyBool false)), demo), tt, l) /\
    links l = Z.to_nat n /\
    sleeps l = (Z.to_nat n - 1)%nat.
Proof.
  intros Hn Hfuel.
  destruct (Z.to_nat n) as [|k] eqn:Hk; [lia|].
  destruct (busy_loop_bounded str_float k fuel 0 ltac:(lia) Hfuel)
    as (l & Hrun & Hs & Hl).
  replace (0 + Z.of_nat (S k)) with n in Hrun by lia.
  exists l. split; [|split; [exact Hl|lia]].
  unfold acquire. rewrite run_m_bind.
  change (@run Busy _ (is_locked demo) tt) with
    (@pair _ (list entry) (@pair _ (world Busy) (Normal false, demo) tt) []).
  cbn [fst snd]. rewrite Hrun. reflexivity.
Qed.


(** *** What the methods leave alone *)

Lemma same_settings_refl (a : DotLock) : same_settings a a.
Proof. repeat split. Qed.

Lemma same_settings_trans (a b c : DotLock) :
  same_settings a b -> same_settings b c -> same_settings a c.
Proof.
  unfold same_settings. intros (?&?&?&?&?&?) (?&?&?&?&?&?).
  repeat split; congruence.
Qed.

Section Frame.

Context {E : Env}.
Variable str_float : Q -> string.

(** X15.  [is_stale] only looks: it stats the lock file, reads the clock
    and may call [check_func]; without a [check_func] it changes nothing on
    the shared filesystem.
    [check_func] is called only when there is one, with the engine itself,
    as the last call, and its answer decides the result.  Without a
    [check_func], a lock file whose stat succeeds is stale exactly when its
    age is not below [max(2 * hijack_delay, valid_lock_age)]. *)
Theorem is_stale_only_reads (self : DotLock) (w : world E) :
  let r := run (is_stale self) w in
  forallb readonly (calls r.2) = true /\
  (forall p, In (os_stat p) (calls r.2) -> p = lockpath self) /\
  (forall f s', In (call_check_func f s') (calls r.2) ->
     check_func self = Some f /\ s' = self /\
     exists pre a,
       r.2 = (pre ++ [(call_check_func f self, AVal a)])%list /\
       r.1.1.1 = Normal (negb (truthy a))) /\
  (check_func self = None ->
   forall s now,
     r.2 = [(os_stat (lockpath self), AStat (Ok s)); (time_time, ATime now)] ->
     r.1.1.1 = Normal (negb (Qltb (now - inject_Z (ST_MTIME s) - _skew self)
                               (Qmax (2 * hijack_delay self)
                                     (valid_lock_age self))))) /\
  (check_func self = None ->
   forall who s, faults s = [] ->
     (@run (Posix who) _ (is_stale self) s).1.2 = s).
Proof.
  cbv zeta. refine (conj _ (conj _ (conj _ (conj _ _)))).
  5: { intros _ who s Hf.
       apply (run_invariant (E := Posix who) (fun w => w = s) readonly).
       - intros c w0 Hc ->. apply posix_readonly; assumption.
       - reflexivity.
       - clear. crunch; reflexivity. }
  all: crunch.
  all: cbn [fst snd reply_of calls map]; try reflexivity.
  all: try (intros p Hp; cbn [In] in Hp;
            repeat (destruct Hp as [Hp|Hp]; [try discriminate Hp|]);
            first [contradiction | injection Hp as <-; reflexivity]).
  all: try (intros f s' Hp; cbn [In] in Hp;
            repeat (destruct Hp as [Hp|Hp]; [try discriminate Hp|]);
            first [ contradiction
                  | injection Hp as <- <-;
                    split; [congruence|]; split; [reflexivity|];
                    eexists [_; _], _; split; [reflexivity|];
                    match goal with H : truthy _ = _ |- _ => rewrite H end;
                    reflexivity ]).
  all: intros Hcf; try discriminate Hcf; intros s now Hlog;
    try discriminate Hlog.
  all: try match goal with
           | H : truthy PyNone = true |- _ => discriminate H
           end.
  all: inversion Hlog; subst;
    match goal with H : Qltb _ _ = _ |- _ => rewrite H end; reflexivity.
Qed.

Lemma is_locked_keeps_settings (self : DotLock) (w : world E) :
  same_settings self (run (is_locked self) w).1.1.2.
Proof. crunch; repeat split. Qed.

Lemma trylock_keeps_settings (self : DotLock) (w : world E) :
  same_settings self (run (_trylock str_float self) w).1.1.2.
Proof. crunch; repeat split. Qed.

Lemma hijack_keeps_settings (self : DotLock) (w : world E) :
  same_settings self (run (_hijacklock str_float self) w).1.1.2.
Proof. crunch; repeat split. Qed.

Lemma release_keeps_settings (self : DotLock) (w : world E) :
  same_settings self (run (release self) w).1.1.2.
Proof.
  destruct (release_cases self w) as [[_ ->]|[(s & f & d & w1 & _ & _ & ->)|
                                            (w1 & l & _ & _ & ->)]];
    repeat split.
Qed.

Lemma refresh_keeps_settings (self : DotLock) (w : world E) :
  same_settings self (run (refresh self) w).1.1.2.
Proof. crunch; repeat split. Qed.

Lemma turn_keeps_settings (max_attempts : option Z) (i : Z)
    (self : DotLock) (w : world E) :
  same_settings self
    (run (acquire_turn str_float max_attempts i self) w).1.1.2.
Proof.
  unfold acquire_turn. rewrite run_m_bind.
  pose proof (trylock_keeps_settings self w) as H1.
  destruct (run (_trylock str_float self) w) as [[[r1 s1] w1] l1].
  cbn [fst snd] in *. destruct r1 as [v|e]; [|exact H1].
  destruct (truthy v); [msimpl; exact H1|].
  rewrite run_m_bind.
  destruct (is_stale_keeps_self s1 w1) as (b & Hb).
  destruct (run (is_stale s1) w1) as [[[r2 s2] w2] l2].
  cbn [fst snd] in *. injection Hb as -> ->.
  rewrite run_m_bind.
  assert (H3 : same_settings s1
            (run ((if b then _hijacklock str_float else m_ret false) s1) w2).1.1.2).
  { destruct b; [apply hijack_keeps_settings|apply same_settings_refl]. }
  destruct (run ((if b then _hijacklock str_float else m_ret false) s1) w2)
    as [[[r3 s3] w3] l3].
  cbn [fst snd] in *.
  pose proof (same_settings_trans _ _ _ H1 H3) as H13.
  destruct r3 as [h|e]; [|exact H13].
  destruct h; [msimpl; exact H13|].
  destruct (attempts_given max_attempts && _); msimpl; [exact H13|].
  destruct (handle E (time_sleep (poll_interval s3)) w3) as [[] w4].
  cbn [fst snd]. exact H13.
Qed.

Lemma loop_keeps_settings (fuel : nat) (max_attempts : option Z) (i : Z)
    (self : DotLock) (w : world E) :
  same_settings self
    (run (acquire_loop str_float fuel max_attempts i self) w).1.1.2.
Proof.
  revert i self w. induction fuel as [|n IH]; intros i self w;
    cbn [acquire_loop].
  { apply same_settings_refl. }
  rewrite run_m_bind.
  pose proof (turn_keeps_settings max_attempts i self w) as H1.
  destruct (run (acquire_turn str_float max_attempts i self) w)
    as [[[r s1] w1] l1].
  cbn [fst snd] in *. destruct r as [[i1|v]|e]; [| |exact H1].
  - specialize (IH i1 s1 w1).
    destruct (run (acquire_loop str_float n max_attempts i1 s1) w1)
      as [[[r2 s2] w2] l2].
    cbn [fst snd] in *. exact (same_settings_trans _ _ _ H1 IH).
  - msimpl. exact H1.
Qed.

(** X16.  No method changes [path], [lockpath], [check_func],
    [valid_lock_age], [poll_interval] or [hijack_delay]; and [release],
    [refresh] and [is_locked] leave the clock skew alone. *)
Theorem methods_keep_settings (fuel : nat) (max_attempts : option Z)
    (self : DotLock) (w : world E) :
  same_settings self (run (acquire str_float fuel max_attempts self) w).1.1.2 /\
  same_settings self (run (release self) w).1.1.2 /\
  same_settings self (run (refresh self) w).1.1.2 /\
  same_settings self (run (is_locked self) w).1.1.2 /\
  same_settings self (run (is_stale self) w).1.1.2 /\
  same_settings self (run (DotLock_del self) w).1.1.2 /\
  _skew (run (release self) w).1.1.2 = _skew self /\
  _skew (run (refresh self) w).1.1.2 = _skew self /\
  _skew (run (is_locked self) w).1.1.2 = _skew self.
Proof.
  refine (conj _ (conj _ (conj _ (conj _ (conj _ (conj _ (conj _ (conj _ _)))))))).
  - unfold acquire. rewrite run_m_bind.
    pose proof (is_locked_keeps_settings self w) as H1.
    destruct (run (is_locked self) w) as [[[r1 s1] w1] l1].
    cbn [fst snd] in *. destruct r1 as [[|]|e]; try exact H1.
    pose proof (loop_keeps_settings fuel max_attempts 0 s1 w1) as H2.
    destruct (run (acquire_loop str_float fuel max_attempts 0 s1) w1)
      as [[[r2 s2] w2] l2].
    cbn [fst snd] in *. exact (same_settings_trans _ _ _ H1 H2).
  - apply release_keeps_settings.
  - apply refresh_keeps_settings.
  - apply is_locked_keeps_settings.
  - destruct (is_stale_keeps_self self w) as (b & ->). apply same_settings_refl.
  - rewrite DotLock_del_unfold. apply release_keeps_settings.
  - destruct (release_cases self w) as [[_ ->]|[(s & f & d & w1 & _ & _ & ->)|
                                              (w1 & l & _ & _ & ->)]];
      reflexivity.
  - crunch; reflexivity.
  - crunch; reflexivity.
Qed.

End Frame.


(** *** Runs on the shared filesystem *)

Lemma floor_skew_small (c : Q) :
  Qltb 1 (Qabs (c - inject_Z (Qfloor c))) = false.
Proof.
  apply Qltb_ge. intros H.
  pose proof (Qfloor_le c) as H1. pose proof (Qlt_floor c) as H2.
  rewrite inject_Z_plus in H2. change (inject_Z 1) with 1%Q in H2.
  generalize dependent (inject_Z (Qfloor c)). intros x H H1 H2.
  assert (H3 : (0 <= c - x)%Q) by lra.
  rewrite Qabs_pos in H by exact H3. lra.
Qed.

(** Serve the next call of a run on the shared filesystem. *)
Ltac posix_next :=
  match goal with
  | |- context [handle (Posix ?who) ?c ?w] =>
      change (handle (Posix who) c w) with (posix_handle who c w);
      unfold posix_handle;
      cbn [failure faults set_faults posix_clean names inodes next_ino clock
           set_inode i_data i_mtime i_nlink i_origin id_host id_pid id_tid
           fst snd];
      unfold fd
  end.

(** Settle the lookups and tests the call has met. *)
Ltac posix_lookups :=
  repeat first [ rewrite lookup_insert_eq
               | rewrite lookup_insert_ne by congruence
               | rewrite lookup_delete_eq
               | rewrite lookup_delete_ne by congruence
               | match goal with H : _ !! _ = _ |- _ => rewrite H end
               | rewrite fmt_lockdata_nonempty
               | rewrite floor_skew_small
               | rewrite String.eqb_refl
               | rewrite Z.eqb_refl
               | match goal with
                 | H : String.eqb _ _ = _ |- _ => rewrite H
                 | H : Qltb _ _ = _ |- _ => rewrite H
                 | H : check_func _ = _ |- _ => rewrite H
                 | H : _lock _ = _ |- _ => rewrite H
                 end ].

(** Follow a run on a filesystem that serves every call. *)
Ltac posix_run :=
  unfold_prog;
  repeat (posix_next; posix_lookups; unfold_prog;
          cbn [ST_INO ST_NLINK ST_MTIME i_nlink i_data i_mtime i_origin
               content_eq];
          try change (1 + 1 =? 2) with true;
          try change (1 =? 2) with false;
          posix_lookups; cbn [negb]; unfold_prog).

Section Uncontended.

Variable str_float : Q -> string.
Variable who : ident.

Lemma trylock_uncontended (self : DotLock) (s : fs) :
  faults s = [] ->
  names s !! lockpath self = None ->
  names s !! tmp_of who (lockpath self) = None ->
  let data := fmt_lockdata str_float (id_host who) (id_pid who)
                (tid_of (id_tid who)) (clock s) in
  exists l,
    @run (Posix who) _ (_trylock str_float self) s =
      ((Normal (PyBool true), set_lock (Some (next_ino s, data)) self),
       mkFs (<[lockpath self := next_ino s]> (names s))
            (<[next_ino s := mkInode data (clock s) 1
                               (tmp_of who (lockpath self))]> (inodes s))
            (next_ino s + 1) (clock s) [],
       l) /\
    sleeps l = 0%nat.
Proof.
  intros Hf Hlp Htmp. cbv zeta.
  pose proof (tmp_of_neq_lockpath who (lockpath self)) as Hne.
  unfold tmp_of in *.
  destruct s as [nm ino nx ck fl]. cbn [faults names inodes next_ino clock] in *.
  subst fl. posix_run.
  rewrite delete_insert_ne by congruence.
  rewrite delete_insert_eq, delete_id by exact Htmp.
  rewrite !insert_insert_eq.
  eexists. split; reflexivity.
Qed.

Lemma is_locked_without_lock_file (self : DotLock) (s : fs) :
  faults s = [] ->
  names s !! lockpath self = None ->
  exists l,
    @run (Posix who) _ (is_locked self) s
    = ((Normal false, set_lock None self), s, l) /\ sleeps l = 0%nat.
Proof.
  intros Hf Hlp.
  destruct s as [nm ino nx ck fl]. cbn [faults names inodes next_ino clock] in *.
  subst fl. destruct (_lock self) as [[i d]|] eqn:Hl.
  - unfold is_locked, m_bind, get. cbn [pbind fst snd]. rewrite Hl.
    posix_run. eexists. split; reflexivity.
  - unfold is_locked, m_bind, get. cbn [pbind fst snd]. rewrite Hl.
    exists []. split; [|reflexivity]. cbn.
    rewrite set_lock_same by exact Hl. reflexivity.
Qed.

Lemma is_locked_on_own_lock (self : DotLock) (s : fs) (i : Z) (n : inode) :
  faults s = [] ->
  names s !! lockpath self = Some i ->
  inodes s !! i = Some n ->
  _lock self = Some (i, i_data n) ->
  exists l,
    @run (Posix who) _ (is_locked self) s = ((Normal true, self), s, l).
Proof.
  intros Hf Hlp Hi Hl.
  destruct s as [nm ino nx ck fl]. cbn [faults names inodes next_ino clock] in *.
  subst fl.
  unfold is_locked, m_bind, get. cbn [pbind fst snd]. rewrite Hl.
  posix_run. eexists. reflexivity.
Qed.

Lemma acquire_uncontended (fuel : nat) (max_attempts : option Z)
    (self : DotLock) (s : fs) :
  faults s = [] ->
  names s !! lockpath self = None ->
  names s !! tmp_of who (lockpath self) = None ->
  let data := fmt_lockdata str_float (id_host who) (id_pid who)
                (tid_of (id_tid who)) (clock s) in
  exists l,
    @run (Posix who) _ (acquire str_float (S fuel) max_attempts self) s =
      ((Normal (Some (PyBool true)), set_lock (Some (next_ino s, data)) self),
       mkFs (<[lockpath self := next_ino s]> (names s))
            (<[next_ino s := mkInode data (clock s) 1
                               (tmp_of who (lockpath self))]> (inodes s))
            (next_ino s + 1) (clock s) [],
       l) /\
    sleeps l = 0%nat.
Proof.
  intros Hf Hlp Htmp. cbv zeta.
  unfold acquire. rewrite run_m_bind.
  destruct (is_locked_without_lock_file self s Hf Hlp) as (l0 & -> & Hs0).
  cbn [fst snd acquire_loop]. rewrite run_m_bind.
  unfold acquire_turn. rewrite run_m_bind.
  destruct (trylock_uncontended (set_lock None self) s Hf Hlp Htmp)
    as (l1 & -> & Hs1).
  cbn [fst snd truthy]. msimpl.
  eexists. split; [reflexivity|].
  rewrite !app_nil_r, sleeps_app, Hs0, Hs1. reflexivity.
Qed.

(** X17.  On a filesystem that serves every call, with no lock file and no
    left-over temporary file, [acquire] succeeds in its first turn without
    sleeping: it returns [True]; the lock file then exists, on a new inode
    with one link that holds the lock data written and is cached in
    [_lock]; the temporary file is gone; and [is_locked] answers
    [True]. *)
Theorem acquire_wins_uncontended (fuel : nat) (max_attempts : option Z)
    (self : DotLock) (s : fs) :
  faults s = [] ->
  names s !! lockpath self = None ->
  names s !! tmp_of who (lockpath self) = None ->
  let data := fmt_lockdata str_float (id_host who) (id_pid who)
                (tid_of (id_tid who)) (clock s) in
  let r := @run (Posix who) _ (acquire str_float (S fuel) max_attempts self) s in
  r.1.1 = (Normal (Some (PyBool true)),
           set_lock (Some (next_ino s, data)) self) /\
  names r.1.2 = <[lockpath self := next_ino s]> (names s) /\
  names r.1.2 !! tmp_of who (lockpath self) = None /\
  inodes r.1.2 !! next_ino s
    = Some (mkInode data (clock s) 1 (tmp_of who (lockpath self))) /\
  sleeps r.2 = 0%nat /\
  (@run (Posix who) _ (is_locked r.1.1.2) r.1.2).1.1.1 = Normal true.
Proof.
  intros Hf Hlp Htmp. cbv zeta.
  destruct (acquire_uncontended fuel max_attempts self s Hf Hlp Htmp)
    as (l & -> & Hs).
  cbn [fst snd names inodes].
  pose proof (tmp_of_neq_lockpath who (lockpath self)) as Hne.
  repeat split.
  - rewrite lookup_insert_ne by congruence. exact Htmp.
  - apply lookup_insert_eq.
  - exact Hs.
  - match goal with
    | |- (run (is_locked ?self1) ?s1).1.1.1 = _ =>
        destruct (is_locked_on_own_lock self1 s1 (next_ino s)
                    (mkInode
                       (fmt_lockdata str_float (id_host who) (id_pid who)
                          (tid_of (id_tid who)) (clock s))
                       (clock s) 1 (tmp_of who (lockpath self))))
          as (l2 & ->); [| | | |reflexivity]
    end.
    + reflexivity.
    + cbn [names lockpath set_lock]. apply lookup_insert_eq.
    + cbn [inodes]. apply lookup_insert_eq.
    + reflexivity.
Qed.

(** X18.  On such a filesystem [acquire] followed by [release] leaves the
    directory as it was, and the engine without a cached lock. *)
Theorem acquire_release_round_trip (fuel : nat) (max_attempts : option Z)
    (self : DotLock) (s : fs) :
  faults s = [] ->
  names s !! lockpath self = None ->
  names s !! tmp_of who (lockpath self) = None ->
  let a := @run (Posix who) _ (acquire str_float (S fuel) max_attempts self) s in
  let r := @run (Posix who) _ (release a.1.1.2) a.1.2 in
  a.1.1.1 = Normal (Some (PyBool true)) /\
  r.1.1 = (Normal tt, set_lock None self) /\
  names r.1.2 = names s.
Proof.
  intros Hf Hlp Htmp. cbv zeta.
  destruct (acquire_uncontended fuel max_attempts self s Hf Hlp Htmp)
    as (l & -> & Hs).
  cbn [fst snd].
  split; [reflexivity|].
  match goal with
  | |- (run (release ?self1) ?s1).1.1 = _ /\ _ =>
      destruct (is_locked_on_own_lock self1 s1 (next_ino s)
                  (mkInode
                     (fmt_lockdata str_float (id_host who) (id_pid who)
                        (tid_of (id_tid who)) (clock s))
                     (clock s) 1 (tmp_of who (lockpath self))))
        as (l2 & Hchk);
        [reflexivity
        |cbn [names lockpath set_lock]; apply lookup_insert_eq
        |cbn [inodes]; apply lookup_insert_eq
        |reflexivity|];
      pose proof (release_posix who self1 s1) as Hrel;
      destruct (@release_cases (Posix who) self1 s1) as [[Hl H]|[H|H]]
  end.
  - discriminate Hl.
  - destruct H as (st & f & d & w1 & Hl & Hchk' & Hrun).
    cbv zeta in Hrel. destruct Hrel as [_ Hrel].
    rewrite Hchk in Hrel. specialize (Hrel eq_refl eq_refl).
    rewrite Hrun in *. cbn [fst snd] in *. split; [reflexivity|].
    rewrite Hrel. cbn [names lockpath set_lock].
    rewrite delete_insert_eq, delete_id by exact Hlp. reflexivity.
  - destruct H as (w1 & l' & _ & Hchk' & _).
    rewrite Hchk in Hchk'. discriminate Hchk'.
Qed.

End Uncontended.

Section Contended.

Variable str_float : Q -> string.
Variable who : ident.

Lemma trylock_contended (self : DotLock) (s : fs) (j : Z) :
  faults s = [] ->
  names s !! lockpath self = Some j ->
  names s !! tmp_of who (lockpath self) = None ->
  let data := fmt_lockdata str_float (id_host who) (id_pid who)
                (tid_of (id_tid who)) (clock s) in
  exists l,
    @run (Posix who) _ (_trylock str_float self) s =
      ((Normal (PyBool (is_not_none (_lock self))), self),
       mkFs (names s)
            (<[next_ino s := mkInode data (clock s) 0
                               (tmp_of who (lockpath self))]> (inodes s))
            (next_ino s + 1) (clock s) [],
       l) /\
    sleeps l = 0%nat.
Proof.
  intros Hf Hlp Htmp. cbv zeta.
  pose proof (tmp_of_neq_lockpath who (lockpath self)) as Hne.
  unfold tmp_of in *.
  destruct s as [nm ino nx ck fl]. cbn [faults names inodes next_ino clock] in *.
  subst fl. posix_run.
  rewrite delete_insert_eq, delete_id by exact Htmp.
  rewrite !insert_insert_eq.
  eexists. split; reflexivity.
Qed.

(** X19.  On a filesystem that serves every call, with a lock file present,
    [_trylock] does not get a lock: its result is the boolean
    [_lock is not None] of the engine as it was ([False] within
    [acquire]), the engine is unchanged, and the directory and every inode
    but the one made for the temporary file are as before (the temporary
    file has come and gone). *)
Theorem trylock_fails_on_existing_lock (self : DotLock) (s : fs) (j : Z) :
  faults s = [] ->
  names s !! lockpath self = Some j ->
  names s !! tmp_of who (lockpath self) = None ->
  let r := @run (Posix who) _ (_trylock str_float self) s in
  r.1.1 = (Normal (PyBool (is_not_none (_lock self))), self) /\
  names r.1.2 = names s /\
  (forall i, i <> next_ino s -> inodes r.1.2 !! i = inodes s !! i) /\
  sleeps r.2 = 0%nat.
Proof.
  intros Hf Hlp Htmp. cbv zeta.
  destruct (trylock_contended self s j Hf Hlp Htmp) as (l & -> & Hs).
  cbn [fst snd names inodes]. repeat split; [|exact Hs].
  intros i Hi. apply lookup_insert_ne. congruence.
Qed.

Lemma hijack_posix (self : DotLock) (s : fs) (j : Z) (n : inode) :
  faults s = [] ->
  names s !! lockpath self = Some j ->
  inodes s !! j = Some n ->
  let data := fmt_lockdata str_float (id_host who) (id_pid who)
                (tid_of (id_tid who)) (clock s) in
  exists l,
    @run (Posix who) _ (_hijacklock str_float self) s =
      ((Normal true, set_lock (Some (j, data)) self),
       mkFs (names s)
            (<[j := mkInode data (clock s) (i_nlink n) (i_origin n)]> (inodes s))
            (next_ino s) (clock s + hijack_delay self)%Q [],
       l) /\
    sleeps l = 1%nat.
Proof.
  intros Hf Hlp Hj. cbv zeta.
  destruct s as [nm ino nx ck fl]. cbn [faults names inodes next_ino clock] in *.
  subst fl. posix_run.
  rewrite !insert_insert_eq.
  eexists. split; reflexivity.
Qed.

Lemma is_stale_posix (self : DotLock) (s : fs) (j : Z) (n : inode) :
  faults s = [] ->
  names s !! lockpath self = Some j ->
  inodes s !! j = Some n ->
  check_func self = None ->
  let age := (clock s - inject_Z (Qfloor (i_mtime n)) - _skew self)%Q in
  let limit := Qmax (2 * hijack_delay self) (valid_lock_age self) in
  exists l,
    @run (Posix who) _ (is_stale self) s
    = ((Normal (negb (Qltb age limit)), self), s, l) /\ sleeps l = 0%nat.
Proof.
  intros Hf Hlp Hj Hcf. cbv zeta.
  destruct s as [nm ino nx ck fl]. cbn [faults names inodes next_ino clock] in *.
  subst fl.
  destruct (Qltb _ _) eqn:Hage; posix_run; rewrite ?Hcf; unfold_prog;
    cbn [truthy negb]; eexists; split; reflexivity.
Qed.

(** X20.  On a filesystem that serves every call, with a lock file whose
    age has reached [max(2 * hijack_delay, valid_lock_age)] and no
    [check_func], [acquire] takes the lock over in its first turn: it
    returns [True] after one sleep of [hijack_delay]; the lock file keeps
    its inode, which now holds the new lock data and is cached in
    [_lock]. *)
Theorem acquire_takes_over_a_stale_lock (fuel : nat)
    (max_attempts : option Z) (self : DotLock) (s : fs) (j : Z) (n : inode) :
  faults s = [] ->
  names s !! lockpath self = Some j ->
  inodes s !! j = Some n ->
  j <> next_ino s ->
  names s !! tmp_of who (lockpath self) = None ->
  _lock self = None ->
  check_func self = None ->
  ~ (clock s - inject_Z (Qfloor (i_mtime n)) - _skew self
     < Qmax (2 * hijack_delay self) (valid_lock_age self))%Q ->
  let data := fmt_lockdata str_float (id_host who) (id_pid who)
                (tid_of (id_tid who)) (clock s) in
  let r := @run (Posix who) _ (acquire str_float (S fuel) max_attempts self) s in
  r.1.1 = (Normal (Some (PyBool true)), set_lock (Some (j, data)) self) /\
  names r.1.2 = names s /\
  inodes r.1.2 !! j = Some (mkInode data (clock s) (i_nlink n) (i_origin n)) /\
  clock r.1.2 = (clock s + hijack_delay self)%Q /\
  sleeps r.2 = 1%nat.
Proof.
  intros Hf Hlp Hj Hfresh Htmp Hl Hcf Hold. cbv zeta.
  apply Qltb_ge in Hold.
  unfold acquire. rewrite run_m_bind.
  assert (Hchk : @run (Posix who) _ (is_locked self) s
                 = ((Normal false, self), s, [])).
  { unfold is_locked, m_bind, get. cbn [pbind fst snd]. rewrite Hl.
    reflexivity. }
  rewrite Hchk. cbn [fst snd acquire_loop]. rewrite run_m_bind.
  unfold acquire_turn. rewrite run_m_bind.
  destruct (trylock_contended self s j Hf Hlp Htmp) as (l1 & -> & Hs1).
  rewrite Hl. cbn [fst snd truthy is_not_none]. rewrite run_m_bind.
  match goal with
  | |- context [@run _ _ (is_stale self) ?s1] =>
      destruct (is_stale_posix self s1 j n) as (l2 & -> & Hs2);
        [reflexivity|exact Hlp
        |cbn [inodes]; rewrite lookup_insert_ne by congruence; exact Hj
        |exact Hcf|]
  end.
  cbn [clock]. rewrite Hold. cbn [fst snd negb]. rewrite run_m_bind.
  match goal with
  | |- context [@run _ _ (_hijacklock str_float self) ?s1] =>
      destruct (hijack_posix self s1 j n) as (l3 & -> & Hs3);
        [reflexivity|exact Hlp
        |cbn [inodes]; rewrite lookup_insert_ne by congruence; exact Hj|]
  end.
  cbn [fst snd]. msimpl. cbn [fst snd names inodes clock].
  rewrite !app_nil_r, !sleeps_app, Hs1, Hs2, Hs3.
  repeat split. apply lookup_insert_eq.
Qed.

End Contended.

Section Detection.

Variable str_float : Q -> string.

(** X21.  After a takeover by another engine the former holder finds out:
    the lock file has kept its inode number, but its content is the lock
    data of the new holder (host, ids and time of the takeover, other than
    the data cached by the former holder), so [is_locked] answers [False]
    and forgets the lock, [refresh] raises [DotLockError], and [release]
    leaves the lock file in place; the new holder's [is_locked] answers
    [True]. *)
Theorem hijack_is_detected (whoA whoB : ident) (A B : DotLock) (s : fs)
    (j : Z) (n : inode) (dA : string) :
  faults s = [] ->
  lockpath A = lockpath B ->
  names s !! lockpath B = Some j ->
  inodes s !! j = Some n ->
  _lock A = Some (j, dA) ->
  let dB := fmt_lockdata str_float (id_host whoB) (id_pid whoB)
              (tid_of (id_tid whoB)) (clock s) in
  dA <> dB ->
  let h := @run (Posix whoB) _ (_hijacklock str_float B) s in
  h.1.1 = (Normal true, set_lock (Some (j, dB)) B) /\
  (@run (Posix whoA) _ (is_locked A) h.1.2).1.1
    = (Normal false, set_lock None A) /\
  (@run (Posix whoA) _ (refresh A) h.1.2).1.1.1
    = Raised (DotLockError "Not locked") /\
  names (@run (Posix whoA) _ (release A) h.1.2).1.2 = names s /\
  (@run (Posix whoB) _ (is_locked h.1.1.2) h.1.2).1.1.1 = Normal true.
Proof.
  intros Hf Hpath Hlp Hj HlA dB Hne. cbv zeta.
  destruct (hijack_posix str_float whoB B s j n Hf Hlp Hj) as (l & -> & _).
  fold dB. cbn [fst snd].
  assert (Heqb : String.eqb dB dA = false) by (apply String.eqb_neq; congruence).
  assert (Hchk : (@run (Posix whoA) _ (is_locked A)
                    (mkFs (names s)
                       (<[j := mkInode dB (clock s) (i_nlink n) (i_origin n)]>
                          (inodes s))
                       (next_ino s) (clock s + hijack_delay B)%Q [])).1.1
                 = (Normal false, set_lock None A)).
  { unfold is_locked, m_bind, get. cbn [pbind fst snd]. rewrite HlA, Hpath.
    posix_run. reflexivity. }
  split; [reflexivity|]. split; [exact Hchk|]. split; [|split].
  - unfold refresh. rewrite run_m_bind.
    destruct (run (is_locked A) _) as [[[r1 s1] w1] l1].
    cbn [fst snd] in *. injection Hchk as -> ->. reflexivity.
  - match goal with
    | |- names (run (release A) ?s1).1.2 = _ =>
        pose proof (release_posix whoA A s1) as Hrel
    end.
    cbv zeta in Hrel. destruct Hrel as [Hrel _].
    rewrite Hrel; [reflexivity|].
    intros Ht. rewrite (f_equal fst Hchk) in Ht. discriminate Ht.
  - match goal with
    | |- (run (is_locked ?self1) ?s1).1.1.1 = _ =>
        destruct (is_locked_on_own_lock whoB self1 s1 j
                    (mkInode dB (clock s) (i_nlink n) (i_origin n)))
          as (l2 & ->); [| | | |reflexivity]
    end.
    + reflexivity.
    + exact Hlp.
    + cbn [inodes]. apply lookup_insert_eq.
    + reflexivity.
Qed.

End Detection.


(** *** Two engines, without takeover *)

(** X22.  Without takeover, a cached lock is never out of date: whenever
    one of two engines is at rest with a cached lock, the lock file exists
    and is the cached inode, created by that engine as its temporary file.
    This holds however the system calls of the two engines interleave and
    whichever I/O calls fail: the other engine does not remove or replace
    the lock file. *)
Theorem cached_lock_is_the_lock_file (str_float : Q -> string) (lp : string)
    (idA idB : ident) (st0 st : system) :
  tmp_of idA lp <> tmp_of idB lp ->
  initial lp idA idB st0 ->
  rtc (system_step str_float idA idB) st0 st ->
  forall self last i d,
    _lock self = Some (i, d) ->
    (st.1.1 = Idle self last ->
     names st.2 !! lp = Some i /\
     exists n, inodes st.2 !! i = Some n /\ i_origin n = tmp_of idA lp) /\
    (st.1.2 = Idle self last ->
     names st.2 !! lp = Some i /\
     exists n, inodes st.2 !! i = Some n /\ i_origin n = tmp_of idB lp).
Proof.
  intros Hdiff Hinit Hrtc self last i d Hl.
  destruct (reachable_inv str_float lp idA idB Hdiff st0 st Hinit Hrtc)
    as (gA & gB & HA & HB & (_ & _ & _ & HmA & HmB)).
  destruct st as [[tA tB] s]. cbn [fst snd] in *.
  assert (Hino : lock_ino self = Some i)
    by (unfold lock_ino; rewrite Hl; reflexivity).
  split; intros ->; cbn [thread_inv] in *.
  - destruct HA as (_ & Hg & _). exact (HmA i (Hg i Hino)).
  - destruct HB as (_ & Hg & _). exact (HmB i (Hg i Hino)).
Qed.


(** *** Names of temporary files *)

Lemma string_app_cons (c : Ascii.ascii) (a b : string) :
  String c a +:+ b = String c (a +:+ b).
Proof. reflexivity. Qed.

Lemma string_app_nil (b : string) : "" +:+ b = b.
Proof. reflexivity. Qed.

Lemma string_app_assoc (a b c : string) : (a +:+ b) +:+ c = a +:+ (b +:+ c).
Proof.
  induction a as [|x a IH]; [reflexivity|].
  change (String x ((a +:+ b) +:+ c) = String x (a +:+ (b +:+ c))).
  rewrite IH. reflexivity.
Qed.

Lemma dashfree_no_dash (a b : string) : dashfree (a +:+ "-" +:+ b) = false.
Proof.
  induction a as [|x a IH]; [reflexivity|].
  change (negb (String.eqb (String x EmptyString) "-") && dashfree (a +:+ "-" +:+ b) = false).
  rewrite IH. apply andb_false_r.
Qed.

Lemma split_at_last_dash (a1 a2 v1 v2 : string) :
  dashfree v1 = true -> dashfree v2 = true ->
  a1 +:+ "-" +:+ v1 = a2 +:+ "-" +:+ v2 ->
  a1 = a2 /\ v1 = v2.
Proof.
  intros H1 H2. revert a2. induction a1 as [|x a1 IH]; intros [|y a2] H.
  - rewrite !(string_app_nil ("-" +:+ _)) in H.
    injection H as H. rewrite !string_app_nil in H. split; congruence.
  - exfalso. rewrite string_app_nil, string_app_cons in H.
    injection H as _ H. rewrite string_app_nil in H.
    rewrite H, dashfree_no_dash in H1. discriminate H1.
  - exfalso. rewrite string_app_nil, string_app_cons in H.
    injection H as _ H. rewrite string_app_nil in H.
    rewrite <- H, dashfree_no_dash in H2. discriminate H2.
  - rewrite !string_app_cons in H.
    injection H as -> H. destruct (IH a2 H) as [-> ->]. split; reflexivity.
Qed.

Lemma pretty_N_go_dashfree (x : N) (s : string) :
  dashfree s = true -> dashfree (pretty_N_go x s) = true.
Proof.
  revert s. induction (N.lt_wf_0 x) as [x _ IH]; intros s Hs.
  assert (x = 0 \/ 0 < x)%N as [->|Hx] by lia.
  - rewrite pretty_N_go_0. exact Hs.
  - rewrite pretty_N_go_step by exact Hx. apply IH.
    + apply N.div_lt; [exact Hx|reflexivity].
    + unfold pretty_N_char. repeat case_match; exact Hs.
Qed.

Lemma pretty_Z_dashfree (z : Z) : 0 <= z -> dashfree (pretty z) = true.
Proof.
  intros Hz. destruct z as [|p|p]; [reflexivity| |lia].
  unfold pretty, pretty_Z, pretty, pretty_positive, pretty, pretty_N.
  case_decide; [reflexivity|]. apply pretty_N_go_dashfree. reflexivity.
Qed.

Lemma temp_name_inj (lp : string) (idA idB : ident) :
  0 <= id_pid idA -> 0 <= tid_of (id_tid idA) ->
  0 <= id_pid idB -> 0 <= tid_of (id_tid idB) ->
  tmp_of idA lp = tmp_of idB lp ->
  id_host idA = id_host idB /\
  id_pid idA = id_pid idB /\
  tid_of (id_tid idA) = tid_of (id_tid idB).
Proof.
  intros HpA HtA HpB HtB H. unfold tmp_of, fmt_locktemp in H.
  assert (Hre : forall h P T,
            lp +:+ "tmp-" +:+ h +:+ "-" +:+ P +:+ "-" +:+ T
            = ((lp +:+ "tmp-" +:+ h) +:+ "-" +:+ P) +:+ "-" +:+ T).
  { intros. rewrite !string_app_assoc. reflexivity. }
  rewrite !Hre in H.
  apply split_at_last_dash in H as [H HT];
    [|apply pretty_Z_dashfree; assumption..].
  apply split_at_last_dash in H as [H HP];
    [|apply pretty_Z_dashfree; assumption..].
  apply (inj (String.app lp)) in H. apply (inj (String.app "tmp-")) in H.
  apply (inj pretty) in HT. apply (inj pretty) in HP.
  auto.
Qed.

(** X23.  Two callers that differ in host name, process id or thread id
    (the ids not negative) use different temporary files for the same lock
    file, and neither name is the name of the lock file. *)
Theorem temp_names_are_distinct (lp : string) (idA idB : ident) :
  0 <= id_pid idA -> 0 <= tid_of (id_tid idA) ->
  0 <= id_pid idB -> 0 <= tid_of (id_tid idB) ->
  (id_host idA <> id_host idB \/ id_pid idA <> id_pid idB \/
   tid_of (id_tid idA) <> tid_of (id_tid idB)) ->
  tmp_of idA lp <> tmp_of idB lp /\
  tmp_of idA lp <> lp /\ tmp_of idB lp <> lp.
Proof.
  intros HpA HtA HpB HtB Hdiff.
  split; [|split; apply tmp_of_neq_lockpath].
  intros H.
  destruct (temp_name_inj lp idA idB HpA HtA HpB HtB H) as (Hh & Hp & Ht).
  destruct Hdiff as [Hd|[Hd|Hd]]; contradiction.
Qed.

Section LostReply.

Variable str_float : Q -> string.
Variable who : ident.

(** X24.  [_trylock] goes by the link count, not by what [os.link] reports.
    On a filesystem without lock file, when the link is made and its reply
    is lost, [os.link] reports a failure and [_trylock] still takes the
    lock, which is the lock file then; when the link is not made,
    [os.link] reports the same failure and [_trylock] returns [False],
    leaving the directory as it was. *)
Theorem trylock_trusts_the_link_count (self : DotLock) (s : fs) :
  names s !! lockpath self = None ->
  names s !! tmp_of who (lockpath self) = None ->
  _lock self = None ->
  let tmp := tmp_of who (lockpath self) in
  let data := fmt_lockdata str_float (id_host who) (id_pid who)
                (tid_of (id_tid who)) (clock s) in
  let r := @run (Posix who) _ (_trylock str_float self) s in
  (faults s = [Clean; Clean; Clean; Lost] ->
   In (os_link tmp (lockpath self), AUnit (Fail OSError)) r.2 /\
   r.1.1 = (Normal (PyBool true), set_lock (Some (next_ino s, data)) self) /\
   names r.1.2 = <[lockpath self := next_ino s]> (names s)) /\
  (faults s = [Clean; Clean; Clean; Dropped] ->
   In (os_link tmp (lockpath self), AUnit (Fail OSError)) r.2 /\
   r.1.1 = (Normal (PyBool false), self) /\
   names r.1.2 = names s).
Proof.
  intros Hlp Htmp Hl. cbv zeta.
  pose proof (tmp_of_neq_lockpath who (lockpath self)) as Hne.
  unfold tmp_of in *.
  destruct s as [nm ino nx ck fl]. cbn [faults names inodes next_ino clock] in *.
  split; intros ->; posix_run; cbn [fst snd names reply_of set_lock]. 
  - rewrite delete_insert_ne by congruence.
    rewrite delete_insert_eq, delete_id by exact Htmp.
    split; [find_in_log|]. split; reflexivity.
  - rewrite delete_insert_eq, delete_id by exact Htmp.
    split; [find_in_log|]. split; reflexivity.
Qed.

End LostReply.

(** *** What [acquire] never does *)

Lemma acquire_call_ok_settings (a b : DotLock) (c : syscall) :
  same_settings a b -> acquire_call_ok b c -> acquire_call_ok a c.
Proof.
  intros (_ & Hlp & Hcf & _ & Hpi & Hhd).
  destruct c; cbn [acquire_call_ok]; rewrite ?Hlp, ?Hcf, ?Hpi, ?Hhd; auto.
Qed.

(** Check an explicit list of calls against [acquire_call_ok]. *)
Ltac calls_ok :=
  cbn [fst snd calls map];
  repeat (constructor;
          [first [ exact I
                 | apply fmt_locktemp_neq_lockpath
                 | split; [apply fmt_locktemp_neq_lockpath|reflexivity]
                 | right; reflexivity
                 | left; reflexivity
                 | assumption ]|]);
  constructor.

Section Spares.

Context {E : Env}.
Variable str_float : Q -> string.

Lemma is_locked_calls_ok (self : DotLock) (w : world E) :
  Forall (acquire_call_ok self) (calls (run (is_locked self) w).2).
Proof. crunch; calls_ok. Qed.

Lemma trylock_calls_ok (self : DotLock) (w : world E) :
  Forall (acquire_call_ok self) (calls (run (_trylock str_float self) w).2).
Proof. crunch; calls_ok. Qed.

Lemma is_stale_calls_ok (self : DotLock) (w : world E) :
  Forall (acquire_call_ok self) (calls (run (is_stale self) w).2).
Proof. crunch; calls_ok. Qed.

Lemma hijack_calls_ok (self : DotLock) (w : world E) :
  Forall (acquire_call_ok self) (calls (run (_hijacklock str_float self) w).2).
Proof. crunch; calls_ok. Qed.

Lemma calls_ok_settings (a b : DotLock) (l : list entry) :
  same_settings a b ->
  Forall (acquire_call_ok b) (calls l) -> Forall (acquire_call_ok a) (calls l).
Proof.
  intros Hs H. eapply Forall_impl; [exact H|].
  intros c. apply acquire_call_ok_settings, Hs.
Qed.

Lemma calls_app (l1 l2 : list entry) :
  calls (l1 ++ l2) = (calls l1 ++ calls l2)%list.
Proof. apply map_app. Qed.

Lemma turn_calls_ok (max_attempts : option Z) (i : Z)
    (self : DotLock) (w : world E) :
  Forall (acquire_call_ok self)
    (calls (run (acquire_turn str_float max_attempts i self) w).2).
Proof.
  unfold acquire_turn. rewrite run_m_bind.
  pose proof (trylock_keeps_settings str_float self w) as H1.
  pose proof (trylock_calls_ok self w) as C1.
  destruct (run (_trylock str_float self) w) as [[[r1 s1] w1] l1].
  cbn [fst snd] in *. destruct r1 as [v|e]; [|exact C1].
  destruct (truthy v); [msimpl; rewrite app_nil_r; exact C1|].
  rewrite run_m_bind.
  destruct (is_stale_keeps_self s1 w1) as (b & Hb).
  pose proof (is_stale_calls_ok s1 w1) as C2.
  apply (calls_ok_settings self s1 _ H1) in C2.
  destruct (run (is_stale s1) w1) as [[[r2 s2] w2] l2].
  cbn [fst snd] in *. injection Hb as -> ->.
  rewrite run_m_bind.
  assert (H3 : same_settings s1
            (run ((if b then _hijacklock str_float else m_ret false) s1) w2).1.1.2).
  { destruct b; [apply hijack_keeps_settings|apply same_settings_refl]. }
  assert (C3 : Forall (acquire_call_ok self)
            (calls (run ((if b then _hijacklock str_float else m_ret false) s1)
                      w2).2)).
  { destruct b; [|constructor].
    apply (calls_ok_settings self s1 _ H1), hijack_calls_ok. }
  destruct (run ((if b then _hijacklock str_float else m_ret false) s1) w2)
    as [[[r3 s3] w3] l3].
  cbn [fst snd] in *.
  pose proof (same_settings_trans _ _ _ H1 H3) as H13.
  assert (C123 : Forall (acquire_call_ok self) (calls (l1 ++ l2 ++ l3))).
  { rewrite !calls_app. repeat (apply Forall_app; split); assumption. }
  destruct r3 as [h|e]; [|exact C123].
  destruct h; [msimpl; rewrite app_nil_r; exact C123|].
  destruct (attempts_given max_attempts && _); msimpl;
    [rewrite app_nil_r; exact C123|].
  destruct (handle E (time_sleep (poll_interval s3)) w3) as [[] w4].
  cbn [fst snd]. rewrite !app_assoc, calls_app, <- !app_assoc.
  apply Forall_app. split; [exact C123|].
  constructor; [|constructor]. left.
  destruct H13 as (_ & _ & _ & _ & Hpi & _). symmetry. exact Hpi.
Qed.

Lemma loop_calls_ok (fuel : nat) (max_attempts : option Z) (i : Z)
    (self : DotLock) (w : world E) :
  Forall (acquire_call_ok self)
    (calls (run (acquire_loop str_float fuel max_attempts i self) w).2).
Proof.
  revert i self w. induction fuel as [|n IH]; intros i self w;
    cbn [acquire_loop].
  { constructor. }
  rewrite run_m_bind.
  pose proof (turn_keeps_settings str_float max_attempts i self w) as H1.
  pose proof (turn_calls_ok max_attempts i self w) as C1.
  destruct (run (acquire_turn str_float max_attempts i self) w)
    as [[[r s1] w1] l1].
  cbn [fst snd] in *. destruct r as [[i1|v]|e]; [| |exact C1].
  - specialize (IH i1 s1 w1). apply (calls_ok_settings self s1 _ H1) in IH.
    destruct (run (acquire_loop str_float n max_attempts i1 s1) w1)
      as [[[r2 s2] w2] l2].
    cbn [fst snd] in *. rewrite calls_app. apply Forall_app. split; assumption.
  - msimpl. rewrite app_nil_r. exact C1.
Qed.

(** X25.  [acquire] never unlinks the lock file and never sets file times:
    what it unlinks are temporary files, and its links go from a temporary
    file to the lock file.  It sleeps only [poll_interval] (between turns)
    or [hijack_delay] (in a takeover), and calls no [check_func] but the
    engine's own. *)
Theorem acquire_never_removes_the_lock_file (fuel : nat)
    (max_attempts : option Z) (self : DotLock) (w : world E) :
  let r := run (acquire str_float fuel max_attempts self) w in
  (forall p, In (os_unlink p) (calls r.2) -> p <> lockpath self) /\
  (forall src dst, In (os_link src dst) (calls r.2) ->
     src <> lockpath self /\ dst = lockpath self) /\
  (forall p a m, ~ In (os_utime p a m) (calls r.2)) /\
  (forall d, In (time_sleep d) (calls r.2) ->
     d = poll_interval self \/ d = hijack_delay self) /\
  (forall f s, In (call_check_func f s) (calls r.2) ->
     check_func self = Some f).
Proof.
  cbv zeta.
  assert (Hall : Forall (acquire_call_ok self)
            (calls (run (acquire str_float fuel max_attempts self) w).2)).
  { unfold acquire. rewrite run_m_bind.
    pose proof (is_locked_keeps_settings self w) as H1.
    pose proof (is_locked_calls_ok self w) as C1.
    destruct (run (is_locked self) w) as [[[r1 s1] w1] l1].
    cbn [fst snd] in *. destruct r1 as [[|]|e]; try exact C1.
    - msimpl. rewrite app_nil_r. exact C1.
    - pose proof (loop_calls_ok fuel max_attempts 0 s1 w1) as C2.
      apply (calls_ok_settings self s1 _ H1) in C2.
      destruct (run (acquire_loop str_float fuel max_attempts 0 s1) w1)
        as [[[r2 s2] w2] l2].
      cbn [fst snd] in *. rewrite calls_app. apply Forall_app. split; assumption. }
  pose proof (proj1 (List.Forall_forall _ _) Hall) as Hin. clear Hall.
  repeat split; intros; try intro.
  all: match goal with H : In _ _ |- _ => apply Hin in H end.
  all: cbn [acquire_call_ok] in *; tauto.
Qed.

End Spares.

(** *** Refreshing, and reading back *)

Lemma posix_keeps_clock (who : ident) (c : syscall) (s : fs) :
  faults s = [] -> is_sleep c = false ->
  faults (posix_handle who c s).2 = [] /\
  clock (posix_handle who c s).2 = clock s.
Proof.
  intros Hf Hc. unfold posix_handle. rewrite Hf.
  destruct c; try destruct m; try discriminate Hc; cbn [failure posix_clean];
    repeat case_match; cbn [fst snd faults clock set_inode]; split;
    first [reflexivity | assumption].
Qed.

Lemma refresh_never_sleeps {E : Env} (self : DotLock) (w : world E) :
  forallb (fun c => negb (is_sleep c)) (calls (run (refresh self) w).2) = true.
Proof. crunch; reflexivity. Qed.

Lemma is_stale_young (who : ident) (self : DotLock) (s : fs) (j : Z)
    (n : inode) :
  faults s = [] ->
  names s !! lockpath self = Some j ->
  inodes s !! j = Some n ->
  (clock s - inject_Z (Qfloor (i_mtime n)) - _skew self
   < Qmax (2 * hijack_delay self) (valid_lock_age self))%Q ->
  (@run (Posix who) _ (is_stale self) s).1.1 = (Normal false, self).
Proof.
  intros Hf Hlp Hj Hage. apply Qltb_lt in Hage.
  destruct s as [nm ino nx ck fl]. cbn [faults names inodes next_ino clock] in *.
  subst fl. posix_run. reflexivity.
Qed.

(** X26.  A refreshed lock is safe from takeover for a while: on a
    filesystem that serves every call, after a verified holder has called
    [refresh], another engine that looks [d] seconds later finds the lock
    not stale as long as [d + 1 <= valid_lock_age] (both engines without
    clock skew; the second is lost to the whole seconds of the file
    time). *)
Theorem refreshed_lock_is_not_stale (whoA whoB : ident) (A B : DotLock)
    (s : fs) (d : Q) :
  faults s = [] ->
  lockpath A = lockpath B ->
  (@run (Posix whoA) _ (is_locked A) s).1.1.1 = Normal true ->
  _skew A = 0%Q -> _skew B = 0%Q ->
  (d + 1 <= valid_lock_age B)%Q ->
  let s1 := (@run (Posix whoA) _ (refresh A) s).1.2 in
  let later := (posix_handle whoB (time_sleep d) s1).2 in
  (@run (Posix whoB) _ (is_stale B) later).1.1 = (Normal false, B).
Proof.
  intros Hf Hpath Hchk HsA HsB Hd. cbv zeta.
  destruct (refresh_posix whoA A s Hf Hchk) as (i & n & Hn & Hi & Hm).
  cbv zeta in Hn, Hi.
  assert (Hinv : faults (@run (Posix whoA) _ (refresh A) s).1.2 = [] /\
                 clock (@run (Posix whoA) _ (refresh A) s).1.2 = clock s).
  { apply (run_invariant (E := Posix whoA)
             (fun w => faults w = [] /\ clock w = clock s)
             (fun c => negb (is_sleep c))).
    - intros c w Hc [Hfw Hcw]. apply negb_true_iff in Hc.
      destruct (posix_keeps_clock whoA c w Hfw Hc) as [H1 H2].
      change (handle (Posix whoA) c w) with (posix_handle whoA c w).
      split; [exact H1|]. exact (eq_trans H2 Hcw).
    - split; [exact Hf|reflexivity].
    - apply refresh_never_sleeps. }
  destruct Hinv as [Hf1 Hc1].
  apply (is_stale_young whoB B _ i n).
  - unfold posix_handle. cbn [failure posix_clean snd faults]. exact Hf1.
  - unfold posix_handle. cbn [failure posix_clean snd names].
    rewrite <- Hpath. exact Hn.
  - unfold posix_handle. cbn [failure posix_clean snd inodes]. exact Hi.
  - unfold posix_handle. cbn [failure posix_clean snd clock].
    rewrite Hc1, Hm, HsA, HsB.
    assert (Hfl : (clock s - 0 == clock s)%Q) by ring.
    rewrite (Qfloor_comp _ _ Hfl).
    pose proof (Qlt_floor (clock s)) as H2.
    rewrite inject_Z_plus in H2. change (inject_Z 1) with 1%Q in H2.
    pose proof (Q.le_max_r (2 * hijack_delay B) (valid_lock_age B)) as H3.
    generalize dependent (inject_Z (Qfloor (clock s))).
    generalize dependent (Qmax (2 * hijack_delay B) (valid_lock_age B)).
    intros. lra.
Qed.

(** X27.  On a filesystem that serves every call, what [writefile] wrote is
    what [readfile] reads, for a new file and for one that existed (its old
    content is dropped), and also for empty data, where [readfile] gives
    the empty string and not [None]; no other name of the directory is
    touched. *)
Theorem writefile_readfile_round_trip (who who' : ident) (p data : string)
    (s : fs) :
  faults s = [] ->
  (forall i, names s !! p = Some i -> is_Some (inodes s !! i)) ->
  let wr := @run (Posix who) _ (writefile p data) s in
  wr.1.1 = Normal tt /\
  (@run (Posix who') _ (readfile p) wr.1.2).1.1 = Normal (Some data) /\
  (forall q, q <> p -> names wr.1.2 !! q = names s !! q).
Proof.
  intros Hf Hino. cbv zeta.
  destruct s as [nm ino nx ck fl]. cbn [faults names inodes next_ino clock] in *.
  subst fl. unfold writefile.
  destruct (nm !! p) as [i|] eqn:Hp.
  - destruct (Hino i eq_refl) as [n Hn].
    destruct data as [|c data]; cbn [nonempty]; posix_run;
      cbn [fst snd names]; repeat split; reflexivity.
  - destruct data as [|c data]; cbn [nonempty]; posix_run;
      cbn [fst snd names]; repeat split; try reflexivity;
      intros q Hq; rewrite lookup_insert_ne by congruence; reflexivity.
Qed.

(** *** The holder: refreshing and handing over *)

Section Holder.

Variable str_float : Q -> string.

Lemma refresh_on_own_lock (who : ident) (self : DotLock) (s : fs) (i : Z)
    (n : inode) :
  faults s = [] ->
  names s !! lockpath self = Some i ->
  inodes s !! i = Some n ->
  _lock self = Some (i, i_data n) ->
  exists l,
    @run (Posix who) _ (refresh self) s =
      ((Normal tt, self),
       set_inode i (mkInode (i_data n) (clock s - _skew self)%Q (i_nlink n)
                      (i_origin n)) s,
       l).
Proof.
  intros Hf Hlp Hi Hl.
  destruct s as [nm ino nx ck fl]. cbn [faults names inodes next_ino clock] in *.
  subst fl.
  unfold refresh, is_locked, m_bind, get. cbn [pbind fst snd]. rewrite Hl.
  posix_run. eexists. reflexivity.
Qed.

Lemma release_on_own_lock (who : ident) (self : DotLock) (s : fs) (i : Z)
    (n : inode) :
  faults s = [] ->
  names s !! lockpath self = Some i ->
  inodes s !! i = Some n ->
  _lock self = Some (i, i_data n) ->
  exists l,
    @run (Posix who) _ (release self) s =
      ((Normal tt, set_lock None self),
       mkFs (delete (lockpath self) (names s))
            (<[i := mkInode (i_data n) (i_mtime n) (i_nlink n - 1)
                      (i_origin n)]> (inodes s))
            (next_ino s) (clock s) [],
       l).
Proof.
  intros Hf Hlp Hi Hl.
  destruct s as [nm ino nx ck fl]. cbn [faults names inodes next_ino clock] in *.
  subst fl.
  unfold release, is_locked, m_bind, get. cbn [pbind fst snd]. rewrite Hl.
  cbn [pbind fst snd]. rewrite Hl.
  posix_run. eexists. reflexivity.
Qed.

(** X28.  [refresh] does not disturb the lock it keeps alive: on a
    filesystem that serves every call, for a holder whose cached inode and
    data are those of the lock file, [refresh] returns with [self]
    unchanged, sets the modification time of the lock file to
    [now - skew], leaves the directory, the content of the lock file and
    every other file as they were, and [is_locked] answers [True] before
    and after. *)
Theorem refresh_keeps_ownership (who : ident) (self : DotLock) (s : fs)
    (i : Z) (n : inode) :
  faults s = [] ->
  names s !! lockpath self = Some i ->
  inodes s !! i = Some n ->
  _lock self = Some (i, i_data n) ->
  let r := @run (Posix who) _ (refresh self) s in
  (@run (Posix who) _ (is_locked self) s).1.1.1 = Normal true /\
  r.1.1 = (Normal tt, self) /\
  names r.1.2 = names s /\
  inodes r.1.2 !! i
    = Some (mkInode (i_data n) (clock s - _skew self)%Q (i_nlink n)
              (i_origin n)) /\
  (forall j, j <> i -> inodes r.1.2 !! j = inodes s !! j) /\
  (@run (Posix who) _ (is_locked self) r.1.2).1.1 = (Normal true, self).
Proof.
  intros Hf Hlp Hi Hl. cbv zeta.
  destruct (is_locked_on_own_lock who self s i n Hf Hlp Hi Hl) as (l0 & ->).
  destruct (refresh_on_own_lock who self s i n Hf Hlp Hi Hl) as (l & ->).
  cbn [fst snd names inodes set_inode].
  repeat split.
  - apply lookup_insert_eq.
  - intros j Hj. apply lookup_insert_ne. congruence.
  - match goal with
    | |- (run (is_locked self) ?s1).1.1 = _ =>
        destruct (is_locked_on_own_lock who self s1 i
                    (mkInode (i_data n) (clock s - _skew self)%Q (i_nlink n)
                       (i_origin n)))
          as (l2 & ->); [exact Hf|exact Hlp|apply lookup_insert_eq|exact Hl|]
    end.
    reflexivity.
Qed.

(** X29.  A released lock is free for the next engine: on a filesystem
    that serves every call, when the holder calls [release] the lock file
    is removed, and an [acquire] of another engine that follows succeeds in
    its first turn, without sleeping, on a new inode. *)
Theorem released_lock_can_be_taken (whoA whoB : ident) (A B : DotLock)
    (s : fs) (i : Z) (n : inode) (fuel : nat) (max_attempts : option Z) :
  faults s = [] ->
  lockpath A = lockpath B ->
  names s !! lockpath A = Some i ->
  inodes s !! i = Some n ->
  _lock A = Some (i, i_data n) ->
  names s !! tmp_of whoB (lockpath B) = None ->
  let rel := @run (Posix whoA) _ (release A) s in
  let acq := @run (Posix whoB) _ (acquire str_float (S fuel) max_attempts B)
               rel.1.2 in
  rel.1.1 = (Normal tt, set_lock None A) /\
  names rel.1.2 !! lockpath A = None /\
  acq.1.1.1 = Normal (Some (PyBool true)) /\
  _lock acq.1.1.2
    = Some (next_ino s,
            fmt_lockdata str_float (id_host whoB) (id_pid whoB)
              (tid_of (id_tid whoB)) (clock s)) /\
  names acq.1.2 !! lockpath A = Some (next_ino s) /\
  sleeps acq.2 = 0%nat.
Proof.
  intros Hf Hpath Hlp Hi Hl Htmp. cbv zeta.
  destruct (release_on_own_lock whoA A s i n Hf Hlp Hi Hl) as (l & ->).
  cbn [fst snd names].
  split; [reflexivity|]. split; [apply lookup_delete_eq|].
  pose proof (tmp_of_neq_lockpath whoB (lockpath B)) as Hne.
  match goal with
  | |- context [@run _ _ (acquire _ _ _ B) ?s1] =>
      destruct (acquire_uncontended str_float whoB fuel max_attempts B s1)
        as (l2 & -> & Hs); [reflexivity| | |]
  end.
  - cbn [names]. rewrite <- Hpath. apply lookup_delete_eq.
  - cbn [names]. rewrite lookup_delete_ne by congruence. exact Htmp.
  - cbn [fst snd names next_ino clock _lock set_lock].
    repeat split; [|exact Hs].
    rewrite Hpath. apply lookup_insert_eq.
Qed.

End Holder.

(** ** Examples for the properties above *)

Lemma acquire_bounded_returns_witness :
  0 < 2 /\ (Z.to_nat 2 <= 3)%nat /\
  (@run Busy _ (acquire str_floor 3 (Some 2) demo) tt).1.1.1 <> Normal None.
Proof.
  assert (H1 : 0 < 2) by lia.
  assert (H2 : (Z.to_nat 2 <= 3)%nat) by (cbn; lia).
  split; [exact H1|]. split; [exact H2|].
  exact (proj1 (@acquire_bounded_returns Busy str_floor 3%nat 2 demo tt H1 H2)).
Defined.

Lemma acquire_negative_attempts_is_one_witness :
  -5 < 0 /\
  @run Busy _ (acquire str_floor 2 (Some (-5)) demo) tt
  = @run Busy _ (acquire str_floor 2 (Some 1) demo) tt.
Proof.
  assert (H1 : -5 < 0) by lia.
  split; [exact H1|].
  exact (@acquire_negative_attempts_is_one Busy str_floor 2%nat (-5) demo tt H1).
Defined.

Lemma acquire_gives_up_on_a_busy_lock_witness :
  0 < 3 /\ (Z.to_nat 3 <= 5)%nat /\
  exists l,
    @run Busy _ (acquire str_floor 5 (Some 3) demo) tt
    = ((Normal (Some (PyBool false)), demo), tt, l) /\
    links l = Z.to_nat 3 /\
    sleeps l = (Z.to_nat 3 - 1)%nat.
Proof.
  assert (H1 : 0 < 3) by lia.
  assert (H2 : (Z.to_nat 3 <= 5)%nat) by (cbn; lia).
  split; [exact H1|]. split; [exact H2|].
  exact (acquire_gives_up_on_a_busy_lock str_floor 3 5%nat H1 H2).
Defined.

Lemma acquire_wins_uncontended_witness :
  faults empty_fs = [] /\
  names empty_fs !! lockpath demo = None /\
  names empty_fs !! tmp_of alice (lockpath demo) = None /\
  (@run (Posix alice) _ (acquire str_floor 1 None demo) empty_fs).1.1
  = (Normal (Some (PyBool true)), set_lock (Some (1, "h 7 3 100")) demo).
Proof.
  assert (H1 : faults empty_fs = []) by reflexivity.
  assert (H2 : names empty_fs !! lockpath demo = None) by reflexivity.
  assert (H3 : names empty_fs !! tmp_of alice (lockpath demo) = None)
    by reflexivity.
  split; [exact H1|]. split; [exact H2|]. split; [exact H3|].
  exact (proj1 (acquire_wins_uncontended str_floor alice 0%nat None demo
                  empty_fs H1 H2 H3)).
Defined.

Lemma acquire_release_round_trip_witness :
  faults empty_fs = [] /\
  names empty_fs !! lockpath demo = None /\
  names empty_fs !! tmp_of alice (lockpath demo) = None /\
  names (@run (Posix alice) _
           (release (@run (Posix alice) _ (acquire str_floor 1 None demo)
                       empty_fs).1.1.2)
           (@run (Posix alice) _ (acquire str_floor 1 None demo)
              empty_fs).1.2).1.2
  = names empty_fs.
Proof.
  assert (H1 : faults empty_fs = []) by reflexivity.
  assert (H2 : names empty_fs !! lockpath demo = None) by reflexivity.
  assert (H3 : names empty_fs !! tmp_of alice (lockpath demo) = None)
    by reflexivity.
  split; [exact H1|]. split; [exact H2|]. split; [exact H3|].
  exact (proj2 (proj2 (acquire_release_round_trip str_floor alice 0%nat None
                         demo empty_fs H1 H2 H3))).
Defined.

Lemma trylock_fails_on_existing_lock_witness :
  faults stale_fs = [] /\
  names stale_fs !! lockpath demo = Some 1 /\
  names stale_fs !! tmp_of alice (lockpath demo) = None /\
  (@run (Posix alice) _ (_trylock str_floor demo) stale_fs).1.1
  = (Normal (PyBool false), demo) /\
  names (@run (Posix alice) _ (_trylock str_floor demo) stale_fs).1.2
  = names stale_fs.
Proof.
  assert (H1 : faults stale_fs = []) by reflexivity.
  assert (H2 : names stale_fs !! lockpath demo = Some 1) by reflexivity.
  assert (H3 : names stale_fs !! tmp_of alice (lockpath demo) = None)
    by reflexivity.
  split; [exact H1|]. split; [exact H2|]. split; [exact H3|].
  destruct (trylock_fails_on_existing_lock str_floor alice demo stale_fs 1
              H1 H2 H3) as (Hr & Hn & _).
  split; [exact Hr|exact Hn].
Defined.

Lemma acquire_takes_over_a_stale_lock_witness :
  faults stale_fs = [] /\
  names stale_fs !! lockpath demo = Some 1 /\
  inodes stale_fs !! 1
    = Some (mkInode "g 8 4 100" 100%Q 1 "/srv/data.locktmp-g-8-4") /\
  1 <> next_ino stale_fs /\
  names stale_fs !! tmp_of alice (lockpath demo) = None /\
  _lock demo = None /\
  check_func demo = None /\
  ~ (clock stale_fs - inject_Z (Qfloor 100) - _skew demo
     < Qmax (2 * hijack_delay demo) (valid_lock_age demo))%Q /\
  (@run (Posix alice) _ (acquire str_floor 1 (Some 1) demo) stale_fs).1.1
  = (Normal (Some (PyBool true)), set_lock (Some (1, "h 7 3 200")) demo).
Proof.
  assert (H1 : faults stale_fs = []) by reflexivity.
  assert (H2 : names stale_fs !! lockpath demo = Some 1) by reflexivity.
  assert (H3 : inodes stale_fs !! 1
               = Some (mkInode "g 8 4 100" 100%Q 1 "/srv/data.locktmp-g-8-4"))
    by reflexivity.
  assert (H4 : 1 <> next_ino stale_fs) by (cbn; lia).
  assert (H5 : names stale_fs !! tmp_of alice (lockpath demo) = None)
    by reflexivity.
  assert (H6 : _lock demo = None) by reflexivity.
  assert (H7 : check_func demo = None) by reflexivity.
  assert (H8 : ~ (clock stale_fs - inject_Z (Qfloor 100) - _skew demo
                  < Qmax (2 * hijack_delay demo) (valid_lock_age demo))%Q).
  { intros H. vm_compute in H. discriminate H. }
  repeat (split; [assumption|]).
  exact (proj1 (acquire_takes_over_a_stale_lock str_floor alice 0%nat (Some 1)
                  demo stale_fs 1 _ H1 H2 H3 H4 H5 H6 H7 H8)).
Defined.

Lemma hijack_is_detected_witness :
  faults stale_fs = [] /\
  lockpath bob_held = lockpath demo /\
  names stale_fs !! lockpath demo = Some 1 /\
  inodes stale_fs !! 1
    = Some (mkInode "g 8 4 100" 100%Q 1 "/srv/data.locktmp-g-8-4") /\
  _lock bob_held = Some (1, "g 8 4 100") /\
  "g 8 4 100" <> fmt_lockdata str_floor "h" 7 3 200 /\
  (@run (Posix bob) _ (is_locked bob_held)
     (@run (Posix alice) _ (_hijacklock str_floor demo) stale_fs).1.2).1.1
  = (Normal false, set_lock None bob_held).
Proof.
  assert (H1 : faults stale_fs = []) by reflexivity.
  assert (H2 : lockpath bob_held = lockpath demo) by reflexivity.
  assert (H3 : names stale_fs !! lockpath demo = Some 1) by reflexivity.
  assert (H4 : inodes stale_fs !! 1
               = Some (mkInode "g 8 4 100" 100%Q 1 "/srv/data.locktmp-g-8-4"))
    by reflexivity.
  assert (H5 : _lock bob_held = Some (1, "g 8 4 100")) by reflexivity.
  assert (H6 : "g 8 4 100" <> fmt_lockdata str_floor "h" 7 3 200).
  { intros H. vm_compute in H. discriminate H. }
  repeat (split; [assumption|]).
  exact (proj1 (proj2 (hijack_is_detected str_floor bob alice bob_held demo
                         stale_fs 1 _ "g 8 4 100" H1 H2 H3 H4 H5 H6))).
Defined.

Lemma cached_lock_is_the_lock_file_witness :
  let a1 := @run (Posix alice) _ (start str_floor OpTrylock demo) empty_fs in
  let st : system :=
    (Idle a1.1.1.2 (Some (OpTrylock, a1.1.1.1)), Idle demo None, a1.1.2) in
  tmp_of alice (lockpath demo) <> tmp_of bob (lockpath demo) /\
  initial (lockpath demo) alice bob (Idle demo None, Idle demo None, empty_fs) /\
  rtc (system_step str_floor alice bob)
    (Idle demo None, Idle demo None, empty_fs) st /\
  _lock a1.1.1.2 = Some (1, "h 7 3 100") /\
  names st.2 !! lockpath demo = Some 1.
Proof.
  intros a1 st.
  assert (Hdiff : tmp_of alice (lockpath demo) <> tmp_of bob (lockpath demo)).
  { vm_compute. discriminate. }
  assert (Hinit : initial (lockpath demo) alice bob
                    (Idle demo None, Idle demo None, empty_fs)).
  { exists demo, demo, empty_fs. repeat split.
    intros p i H. change (names empty_fs) with (∅ : gmap string Z) in H.
    rewrite lookup_empty in H. discriminate H. }
  assert (Hrtc : rtc (system_step str_floor alice bob)
                   (Idle demo None, Idle demo None, empty_fs) st).
  { apply steps_A. apply call_thread_steps. }
  assert (Hl : _lock a1.1.1.2 = Some (1, "h 7 3 100")) by reflexivity.
  split; [exact Hdiff|]. split; [exact Hinit|]. split; [exact Hrtc|].
  split; [exact Hl|].
  exact (proj1 (proj1 (cached_lock_is_the_lock_file str_floor (lockpath demo)
                         alice bob _ st Hdiff Hinit Hrtc
                         a1.1.1.2 (Some (OpTrylock, a1.1.1.1)) 1 "h 7 3 100" Hl)
                  eq_refl)).
Defined.

Lemma temp_names_are_distinct_witness :
  0 <= id_pid alice /\ 0 <= tid_of (id_tid alice) /\
  0 <= id_pid bob /\ 0 <= tid_of (id_tid bob) /\
  (id_host alice <> id_host bob \/ id_pid alice <> id_pid bob \/
   tid_of (id_tid alice) <> tid_of (id_tid bob)) /\
  tmp_of alice "/srv/data.lock" <> tmp_of bob "/srv/data.lock".
Proof.
  assert (H1 : 0 <= id_pid alice) by (cbn; lia).
  assert (H2 : 0 <= tid_of (id_tid alice)) by (cbn; lia).
  assert (H3 : 0 <= id_pid bob) by (cbn; lia).
  assert (H4 : 0 <= tid_of (id_tid bob)) by (cbn; lia).
  assert (H5 : id_host alice <> id_host bob \/ id_pid alice <> id_pid bob \/
               tid_of (id_tid alice) <> tid_of (id_tid bob)).
  { right. left. cbn. lia. }
  repeat (split; [assumption|]).
  exact (proj1 (temp_names_are_distinct "/srv/data.lock" alice bob
                  H1 H2 H3 H4 H5)).
Defined.

Lemma trylock_trusts_the_link_count_witness :
  let s := set_faults [Clean; Clean; Clean; Lost] empty_fs in
  names s !! lockpath demo = None /\
  names s !! tmp_of alice (lockpath demo) = None /\
  _lock demo = None /\
  (@run (Posix alice) _ (_trylock str_floor demo) s).1.1
  = (Normal (PyBool true), set_lock (Some (1, "h 7 3 100")) demo).
Proof.
  intros s.
  assert (H1 : names s !! lockpath demo = None) by reflexivity.
  assert (H2 : names s !! tmp_of alice (lockpath demo) = None) by reflexivity.
  assert (H3 : _lock demo = None) by reflexivity.
  repeat (split; [assumption|]).
  exact (proj1 (proj2 (proj1 (trylock_trusts_the_link_count str_floor alice
                                demo s H1 H2 H3) eq_refl))).
Defined.

Lemma refreshed_lock_is_not_stale_witness :
  faults stale_fs = [] /\
  lockpath bob_held = lockpath demo /\
  (@run (Posix bob) _ (is_locked bob_held) stale_fs).1.1.1 = Normal true /\
  _skew bob_held = 0%Q /\ _skew demo = 0%Q /\
  (10 + 1 <= valid_lock_age demo)%Q /\
  (@run (Posix alice) _ (is_stale demo)
     (posix_handle alice (time_sleep 10)
        (@run (Posix bob) _ (refresh bob_held) stale_fs).1.2).2).1.1
  = (Normal false, demo).
Proof.
  assert (H1 : faults stale_fs = []) by reflexivity.
  assert (H2 : lockpath bob_held = lockpath demo) by reflexivity.
  assert (H3 : (@run (Posix bob) _ (is_locked bob_held) stale_fs).1.1.1
               = Normal true) by reflexivity.
  assert (H4 : _skew bob_held = 0%Q) by reflexivity.
  assert (H5 : _skew demo = 0%Q) by reflexivity.
  assert (H6 : (10 + 1 <= valid_lock_age demo)%Q).
  { intros H. vm_compute in H. discriminate H. }
  repeat (split; [assumption|]).
  exact (refreshed_lock_is_not_stale bob alice bob_held demo stale_fs 10
           H1 H2 H3 H4 H5 H6).
Defined.

Lemma writefile_readfile_round_trip_witness :
  faults stale_fs = [] /\
  (forall i, names stale_fs !! "/srv/data.lock" = Some i ->
             is_Some (inodes stale_fs !! i)) /\
  (@run (Posix bob) _ (readfile "/srv/data.lock")
     (@run (Posix alice) _ (writefile "/srv/data.lock" "h 7 3 200")
        stale_fs).1.2).1.1
  = Normal (Some "h 7 3 200").
Proof.
  assert (H1 : faults stale_fs = []) by reflexivity.
  assert (H2 : forall i, names stale_fs !! "/srv/data.lock" = Some i ->
                         is_Some (inodes stale_fs !! i)).
  { intros i Hi. vm_compute in Hi. injection Hi as <-. eexists. reflexivity. }
  repeat (split; [assumption|]).
  exact (proj1 (proj2 (writefile_readfile_round_trip alice bob
                         "/srv/data.lock" "h 7 3 200" stale_fs H1 H2))).
Defined.

Lemma refresh_keeps_ownership_witness :
  faults stale_fs = [] /\
  names stale_fs !! lockpath bob_held = Some 1 /\
  inodes stale_fs !! 1
    = Some (mkInode "g 8 4 100" 100%Q 1 "/srv/data.locktmp-g-8-4") /\
  _lock bob_held = Some (1, "g 8 4 100") /\
  (@run (Posix bob) _ (is_locked bob_held)
     (@run (Posix bob) _ (refresh bob_held) stale_fs).1.2).1.1
  = (Normal true, bob_held).
Proof.
  assert (H1 : faults stale_fs = []) by reflexivity.
  assert (H2 : names stale_fs !! lockpath bob_held = Some 1) by reflexivity.
  assert (H3 : inodes stale_fs !! 1
               = Some (mkInode "g 8 4 100" 100%Q 1 "/srv/data.locktmp-g-8-4"))
    by reflexivity.
  assert (H4 : _lock bob_held
               = Some (1, i_data (mkInode "g 8 4 100" 100%Q 1
                                    "/srv/data.locktmp-g-8-4")))
    by reflexivity.
  split; [exact H1|]. split; [exact H2|]. split; [exact H3|].
  split; [exact H4|].
  exact (proj2 (proj2 (proj2 (proj2 (proj2
           (refresh_keeps_ownership bob bob_held stale_fs 1 _ H1 H2 H3 H4)))))).
Defined.

Lemma released_lock_can_be_taken_witness :
  faults stale_fs = [] /\
  lockpath bob_held = lockpath demo /\
  names stale_fs !! lockpath bob_held = Some 1 /\
  inodes stale_fs !! 1
    = Some (mkInode "g 8 4 100" 100%Q 1 "/srv/data.locktmp-g-8-4") /\
  _lock bob_held = Some (1, "g 8 4 100") /\
  names stale_fs !! tmp_of alice (lockpath demo) = None /\
  (@run (Posix alice) _ (acquire str_floor 1 None demo)
     (@run (Posix bob) _ (release bob_held) stale_fs).1.2).1.1.1
  = Normal (Some (PyBool true)).
Proof.
  assert (H1 : faults stale_fs = []) by reflexivity.
  assert (H2 : lockpath bob_held = lockpath demo) by reflexivity.
  assert (H3 : names stale_fs !! lockpath bob_held = Some 1) by reflexivity.
  assert (H4 : inodes stale_fs !! 1
               = Some (mkInode "g 8 4 100" 100%Q 1 "/srv/data.locktmp-g-8-4"))
    by reflexivity.
  assert (H5 : _lock bob_held
               = Some (1, i_data (mkInode "g 8 4 100" 100%Q 1
                                    "/srv/data.locktmp-g-8-4")))
    by reflexivity.
  assert (H6 : names stale_fs !! tmp_of alice (lockpath demo) = None)
    by reflexivity.
  split; [exact H1|]. split; [exact H2|]. split; [exact H3|].
  split; [exact H4|]. split; [exact H5|]. split; [exact H6|].
  exact (proj1 (proj2 (proj2
           (released_lock_can_be_taken str_floor bob alice bob_held demo
              stale_fs 1 _ 0%nat None H1 H2 H3 H4 H5 H6)))).
Defined.
